(** * The indexing core of wing-man: [Indexer] ([processDocuments],
    [skeletonizeCodeNodes], the inclusion-filter cache)

    A shallow embedding of the [Indexer] class and of the free function
    [getFileFromSymbolTable].  Asynchronous methods are embedded in a state
    and exception monad: every [await]ed call is sequenced, a thrown value
    (or a rejected awaited promise) is [Throw], and the mutable fields of the
    [Indexer] object together with the pass-level locals live in [State].
    Calls on the collaborators (file system, parser, generator, vector store,
    callbacks, console.error) are recorded, oldest first, in [trace].

    The file also embeds [getFileExtension] of the composer view and the
    thread operations of [ComposerProvider], which live in the same source
    file. *)

From stdpp Require Import base strings gmap list pretty.

Set Default Proof Using "Type".
Set Warnings "-clear-no-such-hyp".

(** ** Data model *)

Record Position := mkPosition { line : nat; character : nat }.

Record Range := mkRange { range_start : Position; range_end : Position }.

Record Location := mkLocation { uri : string; range : Range }.

(** [parentNodeId?: string]: [None] is [undefined]. *)
Record CodeGraphNode := mkNode {
  node_id : string;
  node_location : Location;
  node_parentNodeId : option string;
}.

Record SkeletonizedCodeGraphNode := mkSkeleton {
  sk_id : string;
  sk_location : Location;
  sk_parentNodeId : option string;
  skeleton : string;
}.

#[global] Instance Position_eq_dec : EqDecision Position.
Proof. solve_decision. Defined.
#[global] Instance Range_eq_dec : EqDecision Range.
Proof. solve_decision. Defined.
#[global] Instance Location_eq_dec : EqDecision Location.
Proof. solve_decision. Defined.
#[global] Instance CodeGraphNode_eq_dec : EqDecision CodeGraphNode.
Proof. solve_decision. Defined.
#[global] Instance SkeletonizedCodeGraphNode_eq_dec :
  EqDecision SkeletonizedCodeGraphNode.
Proof. solve_decision. Defined.

(** A JavaScript [Set<string>] that is iterated is a duplicate-free list in
    insertion order; [add] of a present element changes nothing. *)
Definition set_add (x : string) (l : list string) : list string :=
  if decide (x ∈ l) then l else l ++ [x].

(** A JavaScript [Map<string, V>] that is iterated: [set] on a present key
    replaces the value in place, on a fresh key appends. *)
Fixpoint map_set {V : Type} (k : string) (v : V) (m : list (string * V))
  : list (string * V) :=
  match m with
  | [] => [(k, v)]
  | (k', v') :: m' =>
      if decide (k = k') then (k, v) :: m' else (k', v') :: map_set k v m'
  end.

(** JavaScript truthiness of an optional string: [undefined] and the empty
    string are falsy. *)
Definition truthy (o : option string) : bool :=
  match o with
  | Some s => negb (bool_decide (s = EmptyString))
  | None => false
  end.

(** [CodeGraphEdgeMap = Map<string, Set<string>>]. *)
Abbreviation CodeGraphEdgeMap := (gmap string (list string)).

Record FileEntry := mkFileEntry { nodeIds : list string; sha : string }.

#[global] Instance FileEntry_eq_dec : EqDecision FileEntry.
Proof. solve_decision. Defined.

(** ** Code Graph *)

(** Modelled from the spec: the state of the [CodeGraph] class, whose module
    ([./graph]) is not part of the sources: the symbol table, the import and
    export edge maps and the nodes (section 4.1). *)
Record CodeGraph := mkCodeGraph {
  symbolTable : gmap string FileEntry;
  importEdges : CodeGraphEdgeMap;
  exportEdges : CodeGraphEdgeMap;
  graphNodes : gmap string CodeGraphNode;
}.

Module Graph.

(** Modelled from the spec: the [CodeGraph] class ([./graph]) is not part of
    the sources; section 4.1 gives [getFileEntry(relativePath)] as a lookup
    signalling absence. *)
Definition getFileFromSymbolTable (g : CodeGraph) (relativePath : string)
  : option FileEntry :=
  symbolTable g !! relativePath.

(** Modelled from the spec: the node ids of the file's previous entry, which
    section 4.1 names in [updateFileWithEdges] and [removeFile]. *)
Definition formerNodeIds (g : CodeGraph) (relativePath : string) : list string :=
  match symbolTable g !! relativePath with
  | Some e => nodeIds e
  | None => []
  end.

(** Modelled from the spec: the edges keyed by the given node ids are
    dropped (section 4.1, [removeFile]). *)
Definition dropKeys (ids : list string) (m : CodeGraphEdgeMap) : CodeGraphEdgeMap :=
  foldr delete m ids.

(** Modelled from the spec: [updateFileWithEdges] of the absent [CodeGraph]
    class; it replaces the file's [nodeIds]/[sha] and replaces (not merges)
    the edges of every node id of the file's previous entry with the edges
    passed in. *)
Definition updateFileWithEdges (g : CodeGraph) (relativePath : string)
    (entry : FileEntry) (imports exports : CodeGraphEdgeMap) : CodeGraph :=
  let former := formerNodeIds g relativePath in
  {| symbolTable := <[relativePath := entry]> (symbolTable g);
     importEdges := imports ∪ dropKeys former (importEdges g);
     exportEdges := exports ∪ dropKeys former (exportEdges g);
     graphNodes := graphNodes g |}.

(** Modelled from the spec: [removeFile] of the absent [CodeGraph] class
    (called [removeFileFromSymbolTable] by the Indexer); it drops the file's
    entry and all edges keyed by any of its former node ids. *)
Definition removeFileFromSymbolTable (g : CodeGraph) (relativePath : string)
  : CodeGraph :=
  let former := formerNodeIds g relativePath in
  {| symbolTable := delete relativePath (symbolTable g);
     importEdges := dropKeys former (importEdges g);
     exportEdges := dropKeys former (exportEdges g);
     graphNodes := graphNodes g |}.

(** Modelled from the spec: [getImportEdge(nodeId)] and [getNode(nodeId)] of
    the absent [CodeGraph] class, both signalling absence. *)
Definition getImportEdge (g : CodeGraph) (nodeId : string) : option (list string) :=
  importEdges g !! nodeId.

(** Modelled from the spec: [getNode(nodeId)], see [getImportEdge]. *)
Definition getNode (g : CodeGraph) (nodeId : string) : option CodeGraphNode :=
  graphNodes g !! nodeId.

End Graph.

(** ** Collaborators *)

(** What a [throw] or a rejected promise carries.  JavaScript can throw any
    value: a [TypeError] of the runtime, an [Error] object of a collaborator,
    or a value that is not an instance of [Error] at all (a string, a plain
    object). *)
Inductive Error :=
| TypeError (msg : string)
| CollaboratorError (msg : string)
| NonError (value : string).

(** [error instanceof Error] *)
Definition instanceOfError (error : Error) : bool :=
  match error with
  | TypeError _ | CollaboratorError _ => true
  | NonError _ => false
  end.

#[global] Instance Error_eq_dec : EqDecision Error.
Proof. solve_decision. Defined.

Record DocumentMetadata := mkMetadata {
  md_filePath : string;
  md_startRange : string;
  md_endRange : string;
  md_relatedNodes : list string;
  md_parentNodeId : option string;
}.

Record Document := mkDocument {
  pageContent : string;
  doc_id : option string;
  metadata : DocumentMetadata;
}.

(** [SerializeMap]: an array of [key, values] pairs. *)
Abbreviation SerializeMap := (list (string * list string)).

Record IndexerResult := mkIndexerResult {
  codeDocs : list Document;
  relativeImports : SerializeMap;
  relativeExports : SerializeMap;
}.

Record SaveArgs := mkSaveArgs {
  save_documents : list Document;
  save_imports : SerializeMap;
  save_exports : SerializeMap;
  save_symbolTable : gmap string FileEntry;
  save_incremental : bool;
}.

#[global] Instance DocumentMetadata_eq_dec : EqDecision DocumentMetadata.
Proof. solve_decision. Defined.
#[global] Instance Document_eq_dec : EqDecision Document.
Proof. solve_decision. Defined.
#[global] Instance SaveArgs_eq_dec : EqDecision SaveArgs.
Proof. solve_decision. Defined.

Inductive Event :=
| EvExistsSync (path : string)
| EvGetTextDocument (documentUri : string)
| EvFindDocumentsByPath (paths : list string)
| EvDeleteDocuments (ids : list (option string))
| EvOnFileRemoved (filePath : string)
| EvOnFileProcessing (relativeFilePath : string)
| EvCreateNodesFromDocument (documentUri : string)
| EvGlob (pattern cwd : string)
| EvSkeletonizeCodeGraphNode (filePath : string) (node : CodeGraphNode)
    (codeBlock : string) (textDocumentCache : gmap string string)
    (relatedNodes : list CodeGraphNode)
| EvSave (args : SaveArgs)
| EvConsoleError (documentUri : string) (e : Error).

#[global] Instance Event_eq_dec : EqDecision Event.
Proof. solve_decision. Defined.

(** What [CodeParser.createNodesFromDocument] answers: it throws, resolves
    to a falsy value, or resolves to its three maps.  [nodes] is the map's
    values in insertion order, so [nodes.size] is the length of the list. *)
Inductive ParseResult :=
| ParseThrows (e : Error)
| ParseFalsy
| ParseOk (nodes : list CodeGraphNode) (imports exports : CodeGraphEdgeMap).

Inductive GeneratorResult :=
| GeneratorThrows (e : Error)
| GeneratorFalsy
| Generated (s : SkeletonizedCodeGraphNode).

(** What becomes of the promise a callback returns: it is fulfilled, it is
    rejected, or it never settles. *)
Inductive Promise :=
| Fulfilled
| Rejected (reason : Error)
| Pending.

(** The surroundings of one [Indexer]: the workspace on disk, the four
    collaborators and the two callbacks.  The file system, the parser and the
    generator are fixed for the duration of a pass; the vector store, which
    the pass itself mutates, answers as a function of the calls made so far.
    The promises of the collaborators, which the code awaits, settle; the
    promises of the callbacks need not. *)
Record World := mkWorld {
  existsSync : string → bool;
  (* getTextDocumentFromUri: the readable documents and their text *)
  textDocuments : gmap string string;
  (* url.fileURLToPath; None: it throws a TypeError *)
  fileURLToPath : string → option string;
  (* path.relative(from, to) *)
  relative : string → string → string;
  (* createHash("sha256").update(text).digest("hex") *)
  sha256hex : string → string;
  (* TextDocument.getText(range) *)
  getTextRange : string → Range → string;
  (* utils.convertIdToFilePath(id, line, character, workspace) *)
  convertIdToFilePath : string → string → string → string → string;
  (* tinyglobby glob(pattern, {cwd, onlyFiles}) *)
  glob : string → string → list string;
  createNodesFromDocument : string → string → ParseResult;
  mergeCodeNodeSummariesIntoParent :
    Location → string → list string → list SkeletonizedCodeGraphNode → string;
  skeletonizeCodeGraphNode :
    string → CodeGraphNode → string → gmap string string →
    list CodeGraphNode → GeneratorResult;
  findDocumentsByPath : list Event → list string → Error + list Document;
  deleteDocuments : list Event → list (option string) → option Error;
  save : list Event → SaveArgs → option Error;
  (* the constructor's callbacks, async functions: what the returned
     promise does *)
  onFileProcessing : string → Promise;
  onFileRemoved : string → Promise;
}.

(** ** The Indexer object and the monad of its methods *)

Record State := mkState {
  workspace : string;
  inclusionFilter : string;
  syncing : bool;
  matchedFilesCache : option (list string);
  codeGraph : CodeGraph;
  (* locals of processDocuments that outlive a caught exception *)
  fileHashMap : gmap string string;
  alreadyVisited : gset string;
  (* promises returned by callbacks and dropped without await *)
  floating : list Event;
  trace : list Event;
}.

Definition set_syncing (b : bool) (s : State) : State :=
  mkState (workspace s) (inclusionFilter s) b (matchedFilesCache s)
    (codeGraph s) (fileHashMap s) (alreadyVisited s) (floating s) (trace s).

Definition set_inclusionFilter (f : string) (s : State) : State :=
  mkState (workspace s) f (syncing s) (matchedFilesCache s)
    (codeGraph s) (fileHashMap s) (alreadyVisited s) (floating s) (trace s).

Definition set_matchedFilesCache (c : option (list string)) (s : State) : State :=
  mkState (workspace s) (inclusionFilter s) (syncing s) c
    (codeGraph s) (fileHashMap s) (alreadyVisited s) (floating s) (trace s).

Definition set_codeGraph (g : CodeGraph) (s : State) : State :=
  mkState (workspace s) (inclusionFilter s) (syncing s) (matchedFilesCache s)
    g (fileHashMap s) (alreadyVisited s) (floating s) (trace s).

Definition set_fileHashMap (m : gmap string string) (s : State) : State :=
  mkState (workspace s) (inclusionFilter s) (syncing s) (matchedFilesCache s)
    (codeGraph s) m (alreadyVisited s) (floating s) (trace s).

Definition set_alreadyVisited (v : gset string) (s : State) : State :=
  mkState (workspace s) (inclusionFilter s) (syncing s) (matchedFilesCache s)
    (codeGraph s) (fileHashMap s) v (floating s) (trace s).

Definition set_floating (l : list Event) (s : State) : State :=
  mkState (workspace s) (inclusionFilter s) (syncing s) (matchedFilesCache s)
    (codeGraph s) (fileHashMap s) (alreadyVisited s) l (trace s).

Definition set_trace (t : list Event) (s : State) : State :=
  mkState (workspace s) (inclusionFilter s) (syncing s) (matchedFilesCache s)
    (codeGraph s) (fileHashMap s) (alreadyVisited s) (floating s) t.

(** [Diverges] is what a bounded unrolling answers when its bound is reached. *)
Inductive Res (A : Type) :=
| Ok (a : A)
| Throw (e : Error)
| Diverges.
Arguments Ok {A} a.
Arguments Throw {A} e.
Arguments Diverges {A}.

Definition M (A : Type) : Type := State → Res A * State.

#[global] Instance M_ret : MRet M := λ A a s, (Ok a, s).

#[global] Instance M_bind : MBind M := λ A B k m s,
  match m s with
  | (Ok a, s') => k a s'
  | (Throw e, s') => (Throw e, s')
  | (Diverges, s') => (Diverges, s')
  end.

Definition throw {A : Type} (e : Error) : M A := λ s, (Throw e, s).

Definition diverge {A : Type} : M A := λ s, (Diverges, s).

Definition gets {A : Type} (f : State → A) : M A := λ s, (Ok (f s), s).

Definition modify (f : State → State) : M unit := λ s, (Ok (), f s).

Definition emit (e : Event) : M unit :=
  modify (λ s, set_trace (trace s ++ [e]) s).

(** [try { m } catch (error) { h error }] *)
Definition try_catch {A : Type} (m : M A) (h : Error → M A) : M A := λ s,
  match m s with
  | (Throw e, s') => h e s'
  | r => r
  end.

(** A call [f(x);] of a callback returning a promise, without [await]: the
    call is made and the promise is dropped, the caller goes on at once,
    whatever becomes of the promise. *)
Definition fireAndForget (call : Event) (promise : Promise) : M unit :=
  emit call ;; modify (λ s, set_floating (floating s ++ [call]) s).

Fixpoint foldM {A B : Type} (f : B → A → M B) (b : B) (l : list A) : M B :=
  match l with
  | [] => mret b
  | x :: l' => b' ← f b x; foldM f b' l'
  end.

Fixpoint mapM {A B : Type} (f : A → M B) (l : list A) : M (list B) :=
  match l with
  | [] => mret []
  | x :: l' => y ← f x; ys ← mapM f l'; mret (y :: ys)
  end.

(** [fileURLToPath(u)], throwing on a URL that is not a file URL. *)
Definition pathOfUrl (w : World) (u : string) : M string :=
  match fileURLToPath w u with
  | Some p => mret p
  | None => throw (TypeError "The URL must be of scheme file")
  end.

(** ** [getFileFromSymbolTable] (the free function above the class) *)

Definition getFileFromSymbolTable (w : World) (currentDocument : string)
  : M (option FileEntry * string * string) :=
  emit (EvGetTextDocument currentDocument) ;;
  match textDocuments w !! currentDocument with
  | None => throw (TypeError "Cannot read properties of undefined")
  | Some documentText =>
      let documentHash := sha256hex w documentText in
      p ← pathOfUrl w currentDocument;
      ws ← gets workspace;
      g ← gets codeGraph;
      let relativeFilePath := relative w ws p in
      mret (Graph.getFileFromSymbolTable g relativeFilePath,
            relativeFilePath, documentHash)
  end.

(** ** The inclusion filter and its cache *)

Definition isSyncing : M bool := gets syncing.

(** [new Set(array)] *)
Definition new_Set (l : list string) : list string :=
  foldl (λ acc x, set_add x acc) [] l.

Definition shouldIncludeFile (w : World) (relativeFilePath : string) : M bool :=
  cache ← gets matchedFilesCache;
  matched ← match cache with
            | Some c => mret c
            | None =>
                pattern ← gets inclusionFilter;
                ws ← gets workspace;
                emit (EvGlob pattern ws) ;;
                let matchedFiles := glob w pattern ws in
                modify (set_matchedFilesCache (Some (new_Set matchedFiles))) ;;
                mret (new_Set matchedFiles)
            end;
  mret (bool_decide (relativeFilePath ∈ matched)).

(** [this.matchedFilesCache?.clear()] *)
Definition clearCache : M unit :=
  modify (λ s, match matchedFilesCache s with
               | Some _ => set_matchedFilesCache (Some []) s
               | None => s
               end).

Definition setInclusionFilter (filter : string) : M unit :=
  modify (set_inclusionFilter filter).

(** ** [skeletonizeCodeNodes] *)

Record SkeletonLocals := mkSkeletonLocals {
  textDocumentCache : gmap string string;
  skeletonNodes : list SkeletonizedCodeGraphNode;
}.

Definition skeletonizeNode (w : World) (node : CodeGraphNode)
    (childNodes : list CodeGraphNode) (l : SkeletonLocals)
  : M (option SkeletonizedCodeGraphNode * SkeletonLocals) :=
  g ← gets codeGraph;
  let relatedNodeEdges := default [] (Graph.getImportEdge g (node_id node)) in
  let documentUri := uri (node_location node) in
  '(textDocument, cache) ←
    match textDocumentCache l !! documentUri with
    | Some t => mret (Some t, textDocumentCache l)
    | None =>
        emit (EvGetTextDocument documentUri) ;;
        match textDocuments w !! documentUri with
        | Some t => mret (Some t, <[documentUri := t]> (textDocumentCache l))
        | None => mret (None, textDocumentCache l)
        end
    end;
  let l' := mkSkeletonLocals cache (skeletonNodes l) in
  match textDocument with
  | None => mret (None, l')
  | Some text =>
      filePath ← pathOfUrl w documentUri;
      let rawBlock := getTextRange w text (range (node_location node)) in
      let nodeCodeBlock :=
        match childNodes with
        | [] => rawBlock
        | _ :: _ =>
            mergeCodeNodeSummariesIntoParent w (node_location node) rawBlock
              (node_id <$> childNodes) (skeletonNodes l)
        end in
      let relatedNodes := omap (Graph.getNode g) relatedNodeEdges in
      emit (EvSkeletonizeCodeGraphNode filePath node nodeCodeBlock cache
              relatedNodes) ;;
      match skeletonizeCodeGraphNode w filePath node nodeCodeBlock cache
              relatedNodes with
      | GeneratorThrows e => throw e
      | GeneratorFalsy => mret (None, l')
      | Generated s => mret (Some s, l')
      end
  end.

(** The first loop of [skeletonizeCodeNodes]: roots and the
    parent-id to children map. *)
Definition partitionStep
    (acc : gmap string (list CodeGraphNode) * list CodeGraphNode)
    (node : CodeGraphNode)
  : gmap string (list CodeGraphNode) * list CodeGraphNode :=
  let '(parentNodeMap, rootNodes) := acc in
  if truthy (node_parentNodeId node) then
    let p := default EmptyString (node_parentNodeId node) in
    (<[p := default [] (parentNodeMap !! p) ++ [node]]> parentNodeMap, rootNodes)
  else (parentNodeMap, rootNodes ++ [node]).

Definition partitionNodes (nodes : list CodeGraphNode)
  : gmap string (list CodeGraphNode) * list CodeGraphNode :=
  foldl partitionStep (∅, []) nodes.

(** [processNode]: the children, then the node itself.  Of the schedules
    [Promise.all] allows, the model runs one: the children's tasks one after
    the other, in the order of the array, each to its end, and a rejection
    ends the run there.  In JavaScript the tasks of the children are all
    started before any of them settles, so two siblings can both miss the
    document cache and read the same document, the skeletons of siblings are
    collected in the order in which their generator calls settle, and the
    tasks of the siblings go on, detached, after [Promise.all] has rejected.
    What every schedule has in common is that a node is handed to
    [skeletonizeNode] only after the tasks of all its children are
    fulfilled: that is what the statement on parents and children rests on.
    [fuel] bounds the depth of the recursion. *)
Fixpoint processNode (w : World) (parentNodeMap : gmap string (list CodeGraphNode))
    (fuel : nat) (node : CodeGraphNode) (l : SkeletonLocals) : M SkeletonLocals :=
  match fuel with
  | 0 => diverge
  | S fuel' =>
      let childNodes := default [] (parentNodeMap !! node_id node) in
      l1 ← foldM (λ l c, processNode w parentNodeMap fuel' c l) l childNodes;
      '(skeletonNode, l2) ← skeletonizeNode w node childNodes l1;
      match skeletonNode with
      | Some s => mret (mkSkeletonLocals (textDocumentCache l2) (skeletonNodes l2 ++ [s]))
      | None => mret l2
      end
  end.

Definition skeletonizeCodeNodes (w : World) (nodes : list CodeGraphNode)
  : M (list SkeletonizedCodeGraphNode) :=
  let '(parentNodeMap, rootNodes) := partitionNodes nodes in
  l ← foldM (λ l node, processNode w parentNodeMap (S (length nodes)) node l)
        (mkSkeletonLocals ∅ []) rootNodes;
  mret (skeletonNodes l).

(** ** [embedCodeGraph] *)

Definition convertNodeId (w : World) (id : string) : M string :=
  if String.prefix "file://" id then
    p ← pathOfUrl w id; ws ← gets workspace; mret (relative w ws p)
  else mret id.

Definition rangeLabel (p : Position) : string :=
  pretty (line p) +:+ "-" +:+ pretty (character p).

Definition relativeEdges (w : World) (edges : CodeGraphEdgeMap) : M SerializeMap :=
  mapM (λ '(key, value),
          k ← convertNodeId w key;
          vs ← mapM (convertNodeId w) value;
          mret (k, vs))
       (map_to_list edges).

Definition embedCodeGraph (w : World) (skeletonNodes : list SkeletonizedCodeGraphNode)
  : M (option IndexerResult) :=
  codeDocs ← mapM (λ skeletonNode,
      g ← gets codeGraph;
      ws ← gets workspace;
      let relatedNodes := default [] (Graph.getImportEdge g (sk_id skeletonNode)) in
      let start := range_start (range (sk_location skeletonNode)) in
      let filePath := convertIdToFilePath w (sk_id skeletonNode)
                        (pretty (line start)) (pretty (character start)) ws in
      related ← mapM (λ nodeId, p ← pathOfUrl w nodeId; mret (relative w ws p))
                  relatedNodes;
      mret {| pageContent := skeleton skeletonNode;
              doc_id := Some (sk_id skeletonNode);
              metadata :=
                {| md_filePath :=
                     if String.prefix "/" filePath
                     then String.substring 1 (String.length filePath - 1) filePath
                     else filePath;
                   md_startRange := rangeLabel start;
                   md_endRange :=
                     rangeLabel (range_end (range (sk_location skeletonNode)));
                   md_relatedNodes := related;
                   md_parentNodeId := sk_parentNodeId skeletonNode |} |})
    skeletonNodes;
  g ← gets codeGraph;
  relativeImports ← relativeEdges w (importEdges g);
  relativeExports ← relativeEdges w (exportEdges g);
  mret (Some (mkIndexerResult codeDocs relativeImports relativeExports)).

(** ** [processDocuments] *)

(** How a loop body ends: it goes on to the next iteration ([continue] or the
    end of the body), or it leaves [processDocuments] by [return]. *)
Inductive Flow (A : Type) :=
| Next (a : A)
| Return.
Arguments Next {A} a.
Arguments Return {A}.

(** The locals of one top-level identifier, with those of the document being
    visited. *)
Record FrontierLocals := mkFrontier {
  relatedNodes : list string;
  nodesToProcess : list (string * CodeGraphNode);
  nodeIdsForFile : list string;
}.

(** [file && (file.sha === sha || fileHashMap.get(relativeFilePath) === sha)] *)
Definition alreadyIndexed (file : option FileEntry) (fileHash : option string)
    (documentHash : string) : bool :=
  match file with
  | Some f =>
      bool_decide (sha f = documentHash)
      || bool_decide (fileHash = Some documentHash)
  | None => false
  end.

(** A call on the vector store: the answer depends on the calls so far. *)
Definition storeCall {A : Type} (call : Event) (answer : list Event → Error + A)
  : M A :=
  history ← gets trace;
  emit call ;;
  match answer history with
  | inl e => throw e
  | inr a => mret a
  end.

Definition orThrow (o : option Error) : Error + unit :=
  match o with
  | Some e => inl e
  | None => inr ()
  end.

(** The body of [for (const node of nodes.values())]. *)
Definition scanNode (w : World) (currentDocument : string)
    (l : FrontierLocals) (node : CodeGraphNode) : M FrontierLocals :=
  let nodeUri := uri (node_location node) in
  if decide (nodeUri ≠ currentDocument) then
    '(file, relativeFilePath, documentHash) ← getFileFromSymbolTable w nodeUri;
    shouldInclude ← shouldIncludeFile w relativeFilePath;
    if negb shouldInclude then mret l
    else
      hashes ← gets fileHashMap;
      if alreadyIndexed file (hashes !! relativeFilePath) documentHash
      then mret l
      else mret (mkFrontier (set_add nodeUri (relatedNodes l))
                   (nodesToProcess l) (nodeIdsForFile l))
  else
    p ← pathOfUrl w (node_id node);
    ws ← gets workspace;
    let relativeId := relative w ws p in
    mret (mkFrontier (relatedNodes l)
            (map_set (node_id node) node (nodesToProcess l))
            (set_add relativeId (nodeIdsForFile l))).

(** The body of [for (const currentDocument of relatedNodes.values())].
    The file system is fixed for the duration of a pass, so the second read
    of [currentDocument] answers what the read of [getFileFromSymbolTable]
    answered just before: the [return] that follows it for a document that
    is no longer there is not taken by a run of the model.  In the program a
    document that disappears between the two reads ends the pass there, with
    the syncing flag left set, like the [return] after a parse with zero
    nodes does. *)
Definition visitDocument (w : World) (currentDocument : string)
    (l : FrontierLocals) : M (Flow FrontierLocals) :=
  visited ← gets alreadyVisited;
  if decide (currentDocument ∈ visited) then mret (Next l)
  else
    modify (λ s, set_alreadyVisited ({[currentDocument]} ∪ alreadyVisited s) s) ;;
    '(file, relativeFilePath, documentHash) ←
      getFileFromSymbolTable w currentDocument;
    hashes ← gets fileHashMap;
    if alreadyIndexed file (hashes !! relativeFilePath) documentHash
    then mret (Next l)
    else
      fireAndForget (EvOnFileProcessing relativeFilePath)
        (onFileProcessing w relativeFilePath) ;;
      emit (EvGetTextDocument currentDocument) ;;
      match textDocuments w !! currentDocument with
      | None => mret Return
      | Some text =>
          emit (EvCreateNodesFromDocument currentDocument) ;;
          '(nodes, imports, exports) ←
            match createNodesFromDocument w currentDocument text with
            | ParseThrows e => throw e
            | ParseFalsy => mret ([], ∅, ∅)
            | ParseOk nodes imports exports => mret (nodes, imports, exports)
            end;
          match nodes with
          | [] => mret Return
          | _ :: _ =>
              l' ← foldM (scanNode w currentDocument)
                     (mkFrontier (relatedNodes l) (nodesToProcess l) []) nodes;
              modify (λ s, set_fileHashMap
                             (<[relativeFilePath := documentHash]> (fileHashMap s)) s) ;;
              modify (λ s, set_codeGraph
                             (Graph.updateFileWithEdges (codeGraph s) relativeFilePath
                                (mkFileEntry (nodeIdsForFile l') documentHash)
                                imports exports) s) ;;
              mret (Next l')
          end
      end.

(** The frontier loop.  [relatedNodes] is a set that grows while it is
    iterated: [i] is the position of the iterator, and elements added during
    the iteration are visited in their turn.  [fuel] bounds the number of
    documents visited. *)
Fixpoint frontierLoop (w : World) (fuel i : nat) (l : FrontierLocals)
  : M (Flow FrontierLocals) :=
  match relatedNodes l !! i with
  | None => mret (Next l)
  | Some currentDocument =>
      match fuel with
      | 0 => diverge
      | S fuel' =>
          r ← visitDocument w currentDocument l;
          match r with
          | Return => mret Return
          | Next l' => frontierLoop w fuel' (S i) l'
          end
      end
  end.

(** The end of the body of [try], once the frontier is exhausted:
    skeletonize the collected nodes, assemble the documents and commit. *)
Definition persistNodes (w : World) (fullBuild : bool)
    (nodesToProcess : list (string * CodeGraphNode)) : M (Flow unit) :=
  match nodesToProcess with
  | [] => mret (Next ())
  | _ :: _ =>
      skeletonNodes ← skeletonizeCodeNodes w (snd <$> nodesToProcess);
      match skeletonNodes with
      | [] => mret (Next ())
      | _ :: _ =>
          indexerResult ← embedCodeGraph w skeletonNodes;
          match indexerResult with
          | None => modify (set_syncing false) ;; mret Return
          | Some result =>
              g ← gets codeGraph;
              let args := mkSaveArgs (codeDocs result)
                            (relativeImports result) (relativeExports result)
                            (symbolTable g) (negb fullBuild) in
              storeCall (EvSave args) (λ h, orThrow (save w h args)) ;;
              mret (Next ())
          end
      end
  end.

(** The body of [try] for one top-level identifier. *)
Definition processDocument (w : World) (fullBuild : bool) (documentUri : string)
  : M (Flow unit) :=
  visited ← gets alreadyVisited;
  if decide (documentUri ∈ visited) then mret (Next ())
  else
    filePath ← pathOfUrl w documentUri;
    emit (EvExistsSync filePath) ;;
    if negb (existsSync w filePath) then
      ws ← gets workspace;
      let relativePath := relative w ws filePath in
      relatedDocs ← storeCall (EvFindDocumentsByPath [relativePath])
                      (λ h, findDocumentsByPath w h [relativePath]);
      match relatedDocs with
      | [] => mret ()
      | _ :: _ =>
          storeCall (EvDeleteDocuments (doc_id <$> relatedDocs))
            (λ h, orThrow (deleteDocuments w h (doc_id <$> relatedDocs)))
      end ;;
      modify (λ s, set_codeGraph
                     (Graph.removeFileFromSymbolTable (codeGraph s) relativePath) s) ;;
      fireAndForget (EvOnFileRemoved filePath) (onFileRemoved w filePath) ;;
      mret (Next ())
    else
      r ← frontierLoop w (S (size (textDocuments w))) 0
            (mkFrontier [documentUri] [] []);
      match r with
      | Return => mret Return
      | Next l => persistNodes w fullBuild (nodesToProcess l)
      end.

(** The body of [catch (error)]: [console.error] is called for an instance
    of [Error] only; any other thrown value is dropped without a trace. *)
Definition logError (documentUri : string) (error : Error) : M (Flow unit) :=
  (if instanceOfError error then emit (EvConsoleError documentUri error)
   else mret ()) ;;
  mret (Next ()).

(** [for (const documentUri of documentUris) { try { ... } catch (error) { ... } }] *)
Fixpoint forDocumentUris (w : World) (fullBuild : bool) (documentUris : list string)
  : M (Flow unit) :=
  match documentUris with
  | [] => mret (Next ())
  | documentUri :: rest =>
      r ← try_catch (processDocument w fullBuild documentUri) (logError documentUri);
      match r with
      | Return => mret Return
      | Next _ => forDocumentUris w fullBuild rest
      end
  end.

(** [!this.workspace || !documentUris || documentUris.length === 0];
    [documentUris] is [None] when the caller passes [undefined]. *)
Definition nothingToIndex (ws : string) (documentUris : option (list string)) : bool :=
  bool_decide (ws = EmptyString)
  || match documentUris with
     | None => true
     | Some l => bool_decide (length l = 0)
     end.

Definition processDocuments (w : World) (documentUris : option (list string))
    (fullBuild : bool) : M unit :=
  ws ← gets workspace;
  if nothingToIndex ws documentUris then modify (set_syncing false)
  else
    modify (set_syncing true) ;;
    modify (set_fileHashMap ∅) ;;
    modify (set_alreadyVisited ∅) ;;
    r ← forDocumentUris w fullBuild (default [] documentUris);
    match r with
    | Return => mret ()
    | Next _ => modify (set_syncing false)
    end.

(** ** Concrete workspaces *)

Module Examples.

Definition pos0 : Position := mkPosition 0 0.

Definition nodeAt (documentUri nodeId : string) (parent : option string)
  : CodeGraphNode :=
  mkNode nodeId (mkLocation documentUri (mkRange pos0 pos0)) parent.

Definition generate (node : CodeGraphNode) (codeBlock : string)
  : SkeletonizedCodeGraphNode :=
  mkSkeleton (node_id node) (node_location node) (node_parentNodeId node)
    codeBlock.

(** A workspace in which a URL is its own path and its own relative path,
    the digest of a text is the text, and the generator answers the code
    block it was given. *)
Definition world (exists_ : string → bool) (docs : gmap string string)
    (parse : string → string → ParseResult) (matched : list string)
    (saveAnswer : option Error) : World :=
  {| existsSync := exists_;
     textDocuments := docs;
     fileURLToPath := Some;
     relative := λ _ p, p;
     sha256hex := λ t, t;
     getTextRange := λ t _, t;
     convertIdToFilePath := λ i _ _ _, i;
     glob := λ _ _, matched;
     createNodesFromDocument := parse;
     mergeCodeNodeSummariesIntoParent := λ _ raw ids done,
       raw +:+ "<" +:+ String.concat "," (skeleton <$> done) +:+ ">";
     skeletonizeCodeGraphNode := λ _ node block _ _, Generated (generate node block);
     findDocumentsByPath := λ _ _, inr [];
     deleteDocuments := λ _ _, None;
     save := λ _ _, saveAnswer;
     onFileProcessing := λ _, Fulfilled;
     onFileRemoved := λ _, Fulfilled |}.

Definition emptyGraph : CodeGraph := mkCodeGraph ∅ ∅ ∅ ∅.

Definition indexer (g : CodeGraph) (cache : option (list string)) : State :=
  {| workspace := "/ws"; inclusionFilter := "**/*.ts"; syncing := false;
     matchedFilesCache := cache; codeGraph := g;
     fileHashMap := ∅; alreadyVisited := ∅; floating := []; trace := [] |}.

(** [a.ts] defines one node and references [b.ts]; [b.ts] defines one node;
    [empty.ts] has no indexable content. *)
Definition parseAB (documentUri text : string) : ParseResult :=
  if bool_decide (documentUri = "a.ts") then
    ParseOk [nodeAt "a.ts" "a.ts#f" None; nodeAt "b.ts" "b.ts#g" None] ∅ ∅
  else if bool_decide (documentUri = "b.ts") then
    ParseOk [nodeAt "b.ts" "b.ts#g" None] ∅ ∅
  else ParseOk [] ∅ ∅.

Definition docsAB : gmap string string :=
  {[ "a.ts" := "import b"; "b.ts" := "export g"; "empty.ts" := EmptyString ]}.

Definition onDisk (path : string) : bool := bool_decide (path ∈ dom docsAB).

Definition worldAB (matched : list string) (saveAnswer : option Error) : World :=
  world onDisk docsAB parseAB matched saveAnswer.

End Examples.

(** ** Vocabulary of the statements *)

(** The parser found nothing to index: [nodes.size === 0], also through the
    [|| { ... }] default for a falsy answer. *)
Definition yieldsNoNodes (r : ParseResult) : Prop :=
  r = ParseFalsy ∨ ∃ imports exports, r = ParseOk [] imports exports.

(** The state in which the loop over [documentUris] starts. *)
Definition passStart (s : State) : State :=
  set_alreadyVisited ∅ (set_fileHashMap ∅ (set_syncing true s)).

(** What visiting a stale document that parses to zero nodes leaves behind. *)
Definition zeroNodeVisit (relativeFilePath documentUri : string) (s : State) : State :=
  set_trace (trace s ++ [EvGetTextDocument documentUri;
                         EvOnFileProcessing relativeFilePath;
                         EvGetTextDocument documentUri;
                         EvCreateNodesFromDocument documentUri])
    (set_floating (floating s ++ [EvOnFileProcessing relativeFilePath])
       (set_alreadyVisited ({[documentUri]} ∪ alreadyVisited s) s)).

(** What the removal branch leaves behind for a file that is gone from
    disk, when the store answered [relatedDocs]. *)
Definition removedFile (w : World) (filePath : string) (relatedDocs : list Document)
    (s : State) : State :=
  let relativePath := relative w (workspace s) filePath in
  set_floating (floating s ++ [EvOnFileRemoved filePath])
    (set_codeGraph (Graph.removeFileFromSymbolTable (codeGraph s) relativePath)
       (set_trace
          (trace s ++ [EvExistsSync filePath; EvFindDocumentsByPath [relativePath]]
             ++ match relatedDocs with
                | [] => []
                | _ :: _ => [EvDeleteDocuments (doc_id <$> relatedDocs)]
                end
             ++ [EvOnFileRemoved filePath])
          s)).

(** What the [catch] block leaves behind for the thrown value [error]. *)
Definition caught (documentUri : string) (error : Error) (s : State) : State :=
  if instanceOfError error
  then set_trace (trace s ++ [EvConsoleError documentUri error]) s
  else s.

(** *** Skeletonizing *)

(** The nodes of the set whose [parentNodeId] is truthy and names
    [parentId], and the nodes whose [parentNodeId] is falsy. *)
Definition childrenOf (nodes : list CodeGraphNode) (parentId : string)
  : list CodeGraphNode :=
  filter (λ n, truthy (node_parentNodeId n) = true
               ∧ node_parentNodeId n = Some parentId) nodes.

Definition rootsOf (nodes : list CodeGraphNode) : list CodeGraphNode :=
  filter (λ n, truthy (node_parentNodeId n) = false) nodes.

Definition lookupChildren (parentNodeMap : gmap string (list CodeGraphNode))
    (parentId : string) : list CodeGraphNode :=
  default [] (parentNodeMap !! parentId).

(** [n] is [P] or is below [P] along the children lists. *)
Inductive Descends (children : string → list CodeGraphNode) (P : CodeGraphNode)
  : CodeGraphNode → Prop :=
| descends_refl : Descends children P P
| descends_child Q n :
    Descends children P Q → n ∈ children (node_id Q) → Descends children P n.

(** The nodes [skeletonizeCodeNodes] can reach: the roots and what is below
    them. *)
Definition reachable (nodes : list CodeGraphNode) (n : CodeGraphNode) : Prop :=
  ∃ r, r ∈ rootsOf nodes ∧ Descends (childrenOf nodes) r n.

Definition readable (w : World) (n : CodeGraphNode) : Prop :=
  is_Some (textDocuments w !! uri (node_location n)).

Definition cache_ok (w : World) (cache : gmap string string) : Prop :=
  ∀ u t, cache !! u = Some t → textDocuments w !! u = Some t.

(** The skeleton a generator call answered, if it answered one. *)
Definition generatorAnswer (w : World) (e : Event)
  : option SkeletonizedCodeGraphNode :=
  match e with
  | EvSkeletonizeCodeGraphNode filePath node codeBlock cache related =>
      match skeletonizeCodeGraphNode w filePath node codeBlock cache related with
      | Generated s => Some s
      | _ => None
      end
  | _ => None
  end.

(** The skeletons produced by the generator calls of a trace, in order. *)
Definition generatedBy (w : World) (t : list Event)
  : list SkeletonizedCodeGraphNode :=
  omap (generatorAnswer w) t.

(** The generator was called for node [n]. *)
Definition generatesFor (n : CodeGraphNode) (t : list Event) : Prop :=
  ∃ filePath codeBlock cache related,
    EvSkeletonizeCodeGraphNode filePath n codeBlock cache related ∈ t.

(** The code block handed to the generator for [n], given the skeletons
    completed so far. *)
Definition codeBlockOf (w : World) (n : CodeGraphNode) (text : string)
    (childNodes : list CodeGraphNode)
    (completed : list SkeletonizedCodeGraphNode) : string :=
  match childNodes with
  | [] => getTextRange w text (range (node_location n))
  | _ :: _ =>
      mergeCodeNodeSummariesIntoParent w (node_location n)
        (getTextRange w text (range (node_location n)))
        (node_id <$> childNodes) completed
  end.

(** A generator call [e] made after the calls [before]: the generator was
    already called for each child with a readable document, and the code
    block is the node's text with the skeletons completed so far merged in. *)
Definition childrenFirst (w : World) (children : string → list CodeGraphNode)
    (done : list SkeletonizedCodeGraphNode) (before : list Event) (e : Event)
  : Prop :=
  match e with
  | EvSkeletonizeCodeGraphNode _ n codeBlock _ _ =>
      (∀ c, c ∈ children (node_id n) → readable w c → generatesFor c before)
      ∧ ∃ text, textDocuments w !! uri (node_location n) = Some text
                ∧ codeBlock = codeBlockOf w n text (children (node_id n))
                                (done ++ generatedBy w before)
  | _ => True
  end.

Definition ordered (w : World) (children : string → list CodeGraphNode)
    (done : list SkeletonizedCodeGraphNode) (t : list Event) : Prop :=
  ∀ t1 e t2, t = t1 ++ e :: t2 → childrenFirst w children done t1 e.

Definition isRead (e : Event) : Prop := ∃ u, e = EvGetTextDocument u.

Definition isSkeletonizerEvent (e : Event) : Prop :=
  match e with
  | EvGetTextDocument _ | EvSkeletonizeCodeGraphNode _ _ _ _ _ => True
  | _ => False
  end.

(** What processing the nodes [targets], from locals [l] in state [s],
    establishes. *)
Definition SkPost (w : World) (children : string → list CodeGraphNode)
    (targets : list CodeGraphNode) (l : SkeletonLocals) (s : State)
    (r : Res SkeletonLocals) (s' : State) : Prop :=
  ∃ t, s' = set_trace (trace s ++ t) s
       ∧ Forall isSkeletonizerEvent t
       ∧ ordered w children (skeletonNodes l) t
       ∧ (∀ n, generatesFor n t → ∃ P, P ∈ targets ∧ Descends children P n)
       ∧ match r with
         | Ok l' =>
             cache_ok w (textDocumentCache l')
             ∧ skeletonNodes l' = skeletonNodes l ++ generatedBy w t
             ∧ ∀ P n, P ∈ targets → Descends children P n → readable w n →
                      generatesFor n t
         | _ => True
         end.

Definition optionList {A : Type} (o : option A) : list A :=
  match o with
  | Some a => [a]
  | None => []
  end.

(** A path from a node up to a root: each node is a child of the next, and
    the last one is a root. *)
Fixpoint upChain (nodes : list CodeGraphNode) (path : list CodeGraphNode) : Prop :=
  match path with
  | [] => True
  | n :: rest =>
      match rest with
      | [] => n ∈ rootsOf nodes
      | q :: _ => n ∈ childrenOf nodes (node_id q) ∧ upChain nodes rest
      end
  end.

(** *** Passes *)

Definition isSave (e : Event) : bool :=
  match e with
  | EvSave _ => true
  | _ => false
  end.

Definition countSaves (t : list Event) : nat :=
  length (filter (λ e, isSave e = true) t).

(** Calls that touch neither the Code Graph nor the store. *)
Definition isQuiet (e : Event) : Prop :=
  match e with
  | EvGetTextDocument _ | EvGlob _ _
  | EvSkeletonizeCodeGraphNode _ _ _ _ _ => True
  | _ => False
  end.

(** The matched set [shouldIncludeFile] answers from: the cache, or what
    [glob] gives for the configured filter when the cache is still null. *)
Definition matchedSet (w : World) (s : State) : list string :=
  match matchedFilesCache s with
  | Some c => c
  | None => new_Set (glob w (inclusionFilter s) (workspace s))
  end.

(** [s'] differs from [s] by quiet calls and a filled cache only. *)
Definition quiet (w : World) (s s' : State) : Prop :=
  workspace s' = workspace s
  ∧ inclusionFilter s' = inclusionFilter s
  ∧ syncing s' = syncing s
  ∧ codeGraph s' = codeGraph s
  ∧ fileHashMap s' = fileHashMap s
  ∧ alreadyVisited s' = alreadyVisited s
  ∧ floating s' = floating s
  ∧ matchedSet w s' = matchedSet w s
  ∧ ∃ t, trace s' = trace s ++ t ∧ Forall isQuiet t.

(** The measure of the frontier loop: the documents of the frontier, and
    the readable documents not yet in it. *)
Definition potential (w : World) (related : list string) : nat :=
  length related
  + size (dom (textDocuments w) ∖ (list_to_set related : gset string)).

(** [nodesToProcess] is keyed by the ids of its nodes. *)
Definition keyed (m : list (string * CodeGraphNode)) : Prop :=
  NoDup m.*1 ∧ ∀ k n, (k, n) ∈ m → k = node_id n.

(** The symbol table records for [F] the digest of its content. *)
Definition current (w : World) (F : string) (s : State) : Prop :=
  ∃ p text e,
    fileURLToPath w F = Some p
    ∧ textDocuments w !! F = Some text
    ∧ symbolTable (codeGraph s) !! relative w (workspace s) p = Some e
    ∧ sha e = sha256hex w text.

(** No other identifier has the relative path of [F]. *)
Definition distinctFile (w : World) (ws F : string) : Prop :=
  ∀ u p p', fileURLToPath w F = Some p → fileURLToPath w u = Some p' →
            relative w ws p' = relative w ws p → u = F.

Definition onDiskFile (w : World) (F : string) : Prop :=
  ∀ p, fileURLToPath w F = Some p → existsSync w p = true.

Definition settled (w : World) (F : string) (s : State) : Prop :=
  current w F s ∧ distinctFile w (workspace s) F ∧ onDiskFile w F.

(** What a pass, or a part of it, may do: at most [n] saves, and a file
    that was [settled] stays so and is not parsed. *)
Definition passRel (w : World) (n : nat) (s s' : State) : Prop :=
  workspace s' = workspace s
  ∧ ∃ t, trace s' = trace s ++ t
         ∧ countSaves t ≤ n
         ∧ ∀ F, settled w F s →
                settled w F s' ∧ EvCreateNodesFromDocument F ∉ t.

(** A computation that changes nothing and ends. *)
Definition silent {A : Type} (m : M A) : Prop :=
  ∀ s, (m s).2 = s ∧ (m s).1 ≠ Diverges.

(** Whether a foreign file is added to the frontier when a node located in
    it is met: it matches the inclusion filter and is not already indexed. *)
Definition wanted (w : World) (s : State) (u : string) : bool :=
  match fileURLToPath w u, textDocuments w !! u with
  | Some p, Some text =>
      let rel := relative w (workspace s) p in
      bool_decide (rel ∈ matchedSet w s)
      && negb (alreadyIndexed (symbolTable (codeGraph s) !! rel)
                 (fileHashMap s !! rel) (sha256hex w text))
  | _, _ => false
  end.

(** The frontier after the nodes of [currentDocument] have been scanned. *)
Definition expandFrontier (w : World) (s : State) (currentDocument : string)
    (nodes : list CodeGraphNode) (related : list string) : list string :=
  foldl (λ rel n,
           let u := uri (node_location n) in
           if bool_decide (u ≠ currentDocument) && wanted w s u
           then set_add u rel else rel)
        related nodes.

(** Scanning [n] does not throw: a foreign file can be read and has a path,
    the id of an own node has a path. *)
Definition scannable (w : World) (currentDocument : string) (n : CodeGraphNode)
  : Prop :=
  let u := uri (node_location n) in
  if decide (u ≠ currentDocument)
  then is_Some (textDocuments w !! u) ∧ is_Some (fileURLToPath w u)
  else is_Some (fileURLToPath w (node_id n)).

(** What the end of the body of [try] may do. *)
Definition persisted (s s' : State) : Prop :=
  workspace s' = workspace s
  ∧ codeGraph s' = codeGraph s
  ∧ ∃ t, trace s' = trace s ++ t
         ∧ Forall (λ e, isQuiet e ∨ isSave e = true) t
         ∧ countSaves t ≤ 1.

(** The calls a visit of document [d] may make. *)
Definition visitEvent (d : string) (e : Event) : Prop :=
  isQuiet e ∨ (∃ rel, e = EvOnFileProcessing rel) ∨ e = EvCreateNodesFromDocument d.

(** Calls that are neither a parse nor a save. *)
Definition harmless (e : Event) : Prop :=
  match e with
  | EvSave _ | EvCreateNodesFromDocument _ => False
  | _ => True
  end.

(** What visiting an already indexed document leaves behind: it is marked
    visited and was read once. *)
Definition visitedOnly (documentUri : string) (s : State) : State :=
  set_trace (trace s ++ [EvGetTextDocument documentUri])
    (set_alreadyVisited ({[documentUri]} ∪ alreadyVisited s) s).

Definition countParses (documentUri : string) (t : list Event) : nat :=
  length (filter (λ e, e = EvCreateNodesFromDocument documentUri) t).

(** Between [s] and [s'] the call [e] was made, or was not made. *)
Definition emitted (e : Event) (s s' : State) : Prop :=
  ∃ t, trace s' = trace s ++ t ∧ e ∈ t.

Definition avoided (e : Event) (s s' : State) : Prop :=
  ∃ t, trace s' = trace s ++ t ∧ e ∉ t.

(** The parser surfaces, for [A], a node located in [B]. *)
Definition refersTo (B : string) (nodes : list CodeGraphNode) : Prop :=
  Exists (λ n, uri (node_location n) = B) nodes.

(** How the body of [try] ends with respect to [save]: it made no save, or
    its last call is its only save and it throws exactly when that save
    failed. *)
Definition saveLast (w : World) (s : State) (r : Res (Flow unit)) (s' : State)
  : Prop :=
  ∃ t0,
    countSaves t0 = 0
    ∧ (trace s' = trace s ++ t0
       ∨ ∃ args,
           trace s' = trace s ++ t0 ++ [EvSave args]
           ∧ r = match save w (trace s ++ t0) args with
                 | Some e => Throw e
                 | None => Ok (Next ())
                 end).

(** ** The composer view: [getFileExtension] *)

Module Compose.

(** [s.lastIndexOf(searchString)]: the position of the last occurrence, or
    [-1].  A string is its sequence of code units; [i] is the position of [s]
    in the string searched and [found] the last occurrence before it. *)
Fixpoint lastIndexFrom (searchString s : string) (i found : Z) : Z :=
  let found' := if String.prefix searchString s then i else found in
  match s with
  | EmptyString => found'
  | String _ s' => lastIndexFrom searchString s' (i + 1) found'
  end.

Definition lastIndexOf (s searchString : string) : Z :=
  lastIndexFrom searchString s 0 (-1).

(** [x >>> 0]: the integer [x] as an unsigned 32-bit integer. *)
Definition toUint32 (x : Z) : Z := x mod 2 ^ 32.

Fixpoint dropString (n : nat) (s : string) : string :=
  match n, s with
  | S n', String _ s' => dropString n' s'
  | _, _ => s
  end.

(** [s.slice(start)]: a negative [start] counts from the end, and the
    position is clamped to the string. *)
Definition slice (s : string) (start : Z) : string :=
  let len := Z.of_nat (String.length s) in
  let from := if (start <? 0)%Z then Z.max (len + start) 0 else Z.min start len in
  dropString (Z.to_nat from) s.

(** [fileName.slice(((fileName.lastIndexOf(".") - 1) >>> 0) + 2)] *)
Definition getFileExtension (fileName : string) : string :=
  slice fileName (toUint32 (lastIndexOf fileName "." - 1) + 2).

(** The string has no occurrence of ["."]. *)
Definition dotFree (s : string) : Prop := ∀ a b, s ≠ a +:+ "." +:+ b.

End Compose.

(** ** Calls on the inclusion filter, in sequence *)

Inductive FilterCall :=
| CallSetInclusionFilter (filter : string)
| CallClearCache
| CallShouldIncludeFile (relativeFilePath : string).

Definition filterCall (w : World) (c : FilterCall) : M unit :=
  match c with
  | CallSetInclusionFilter filter => setInclusionFilter filter
  | CallClearCache => clearCache
  | CallShouldIncludeFile relativeFilePath =>
      shouldIncludeFile w relativeFilePath ;; mret ()
  end.

Fixpoint filterCalls (w : World) (calls : list FilterCall) : M unit :=
  match calls with
  | [] => mret ()
  | c :: rest => filterCall w c ;; filterCalls w rest
  end.

Definition isGlob (e : Event) : bool :=
  match e with
  | EvGlob _ _ => true
  | _ => false
  end.

Definition countGlobs (t : list Event) : nat :=
  length (filter (λ e, isGlob e = true) t).

(** ** Vocabulary for [embedCodeGraph] *)

(** [!filePath.startsWith("/") ? filePath : filePath.slice(1)] *)
Definition withoutLeadingSlash (filePath stripped : string) : Prop :=
  if String.prefix "/" filePath then filePath = "/" +:+ stripped
  else stripped = filePath.

(** The document [embedCodeGraph] assembles for a skeleton node. *)
Definition documentFor (w : World) (s : State) (sk : SkeletonizedCodeGraphNode)
    (d : Document) : Prop :=
  let start := range_start (range (sk_location sk)) in
  doc_id d = Some (sk_id sk)
  ∧ pageContent d = skeleton sk
  ∧ md_parentNodeId (metadata d) = sk_parentNodeId sk
  ∧ md_startRange (metadata d) = rangeLabel start
  ∧ md_endRange (metadata d) = rangeLabel (range_end (range (sk_location sk)))
  ∧ withoutLeadingSlash
      (convertIdToFilePath w (sk_id sk) (pretty (line start))
         (pretty (character start)) (workspace s))
      (md_filePath (metadata d))
  ∧ Forall2 (λ nodeId rel, ∃ p, fileURLToPath w nodeId = Some p
                                ∧ rel = relative w (workspace s) p)
      (default [] (Graph.getImportEdge (codeGraph s) (sk_id sk)))
      (md_relatedNodes (metadata d)).

(** [fileURLToPath(id)] does not throw. *)
Definition isFileUrl (w : World) (id : string) : Prop := is_Some (fileURLToPath w id).

(** The ids [embedCodeGraph] hands to [fileURLToPath]: the import edges of
    the skeleton nodes, and the keys and values of both edge maps that start
    with [file://]. *)
Definition edgeIds (edges : CodeGraphEdgeMap) : list string :=
  filter (λ id, String.prefix "file://" id = true)
    (mjoin ((λ kv, kv.1 :: kv.2) <$> map_to_list edges)).

Definition convertedIds (g : CodeGraph) (skeletonNodes : list SkeletonizedCodeGraphNode)
  : list string :=
  mjoin ((λ sk, default [] (Graph.getImportEdge g (sk_id sk))) <$> skeletonNodes)
  ++ edgeIds (importEdges g) ++ edgeIds (exportEdges g).

(** ** How the parts of a pass end *)

(** The ways a visit of [d] with locals [l] ends, from state [s]. *)
Inductive Visit (w : World) (d : string) (l : FrontierLocals) (s : State)
  : Res (Flow FrontierLocals) → State → Prop :=
| visit_skipped :
    d ∈ alreadyVisited s →
    Visit w d l s (Ok (Next l)) s
| visit_unreadable e :
    d ∉ alreadyVisited s →
    ¬ (is_Some (textDocuments w !! d) ∧ is_Some (fileURLToPath w d)) →
    Visit w d l s (Throw e) (visitedOnly d s)
| visit_indexed p text :
    d ∉ alreadyVisited s →
    fileURLToPath w d = Some p →
    textDocuments w !! d = Some text →
    alreadyIndexed (symbolTable (codeGraph s) !! relative w (workspace s) p)
      (fileHashMap s !! relative w (workspace s) p) (sha256hex w text) = true →
    Visit w d l s (Ok (Next l)) (visitedOnly d s)
| visit_parse_throws p text e :
    d ∉ alreadyVisited s →
    fileURLToPath w d = Some p →
    textDocuments w !! d = Some text →
    createNodesFromDocument w d text = ParseThrows e →
    Visit w d l s (Throw e) (zeroNodeVisit (relative w (workspace s) p) d s)
| visit_no_nodes p text :
    d ∉ alreadyVisited s →
    fileURLToPath w d = Some p →
    textDocuments w !! d = Some text →
    yieldsNoNodes (createNodesFromDocument w d text) →
    Visit w d l s (Ok Return) (zeroNodeVisit (relative w (workspace s) p) d s)
| visit_scan_throws p text nodes imports exports e s3 :
    d ∉ alreadyVisited s →
    fileURLToPath w d = Some p →
    textDocuments w !! d = Some text →
    createNodesFromDocument w d text = ParseOk nodes imports exports →
    foldM (scanNode w d) (mkFrontier (relatedNodes l) (nodesToProcess l) []) nodes
      (zeroNodeVisit (relative w (workspace s) p) d s) = (Throw e, s3) →
    Visit w d l s (Throw e) s3
| visit_scanned p text nodes imports exports l' s3 :
    d ∉ alreadyVisited s →
    fileURLToPath w d = Some p →
    textDocuments w !! d = Some text →
    alreadyIndexed (symbolTable (codeGraph s) !! relative w (workspace s) p)
      (fileHashMap s !! relative w (workspace s) p) (sha256hex w text) = false →
    createNodesFromDocument w d text = ParseOk nodes imports exports →
    nodes ≠ [] →
    foldM (scanNode w d) (mkFrontier (relatedNodes l) (nodesToProcess l) []) nodes
      (zeroNodeVisit (relative w (workspace s) p) d s) = (Ok l', s3) →
    Visit w d l s (Ok (Next l'))
      (set_codeGraph
         (Graph.updateFileWithEdges (codeGraph s3) (relative w (workspace s) p)
            (mkFileEntry (nodeIdsForFile l') (sha256hex w text)) imports exports)
         (set_fileHashMap
            (<[relative w (workspace s) p := sha256hex w text]> (fileHashMap s3)) s3)).

(** The ways the end of the body of [try] ends: after the skeletonizer's
    calls, which lead from [s] to [s1], it stops without a save, or it makes
    one save of at least one document and throws when that save fails. *)
Inductive Persist (w : World) (fullBuild : bool) (s : State)
  : Res (Flow unit) → State → Prop :=
| persist_no_save r s1 t :
    quiet w s s1 →
    trace s1 = trace s ++ t →
    Forall isSkeletonizerEvent t →
    r ≠ Ok Return →
    Persist w fullBuild s r s1
| persist_save s1 t args :
    quiet w s s1 →
    trace s1 = trace s ++ t →
    Forall isSkeletonizerEvent t →
    save_documents args ≠ [] →
    save_incremental args = negb fullBuild →
    save_symbolTable args = symbolTable (codeGraph s) →
    Persist w fullBuild s
      match save w (trace s1) args with
      | Some e => Throw e
      | None => Ok (Next ())
      end
      (set_trace (trace s1 ++ [EvSave args]) s1).

(** The ways the removal branch ends for a file [filePath] that is gone from
    disk: the lookup fails, the deletion fails, or the file is removed. *)
Inductive Gone (w : World) (filePath : string) (s : State)
  : Res (Flow unit) → State → Prop :=
| gone_lookup_fails e :
    findDocumentsByPath w (trace s ++ [EvExistsSync filePath])
      [relative w (workspace s) filePath] = inl e →
    Gone w filePath s (Throw e)
      (set_trace (trace s ++ [EvExistsSync filePath;
                              EvFindDocumentsByPath [relative w (workspace s) filePath]])
         s)
| gone_deletion_fails relatedDocs e :
    findDocumentsByPath w (trace s ++ [EvExistsSync filePath])
      [relative w (workspace s) filePath] = inr relatedDocs →
    relatedDocs ≠ [] →
    deleteDocuments w
      (trace s ++ [EvExistsSync filePath;
                   EvFindDocumentsByPath [relative w (workspace s) filePath]])
      (doc_id <$> relatedDocs) = Some e →
    Gone w filePath s (Throw e)
      (set_trace (trace s ++ [EvExistsSync filePath;
                              EvFindDocumentsByPath [relative w (workspace s) filePath];
                              EvDeleteDocuments (doc_id <$> relatedDocs)])
         s)
| gone_removed relatedDocs :
    findDocumentsByPath w (trace s ++ [EvExistsSync filePath])
      [relative w (workspace s) filePath] = inr relatedDocs →
    (relatedDocs = [] ∨
     deleteDocuments w
       (trace s ++ [EvExistsSync filePath;
                    EvFindDocumentsByPath [relative w (workspace s) filePath]])
       (doc_id <$> relatedDocs) = None) →
    Gone w filePath s (Ok (Next ())) (removedFile w filePath relatedDocs s).

(** ** What a pass keeps *)

(** Between [s] and [s'] the set of visited documents only grows, and a
    document parsed in between was not visited before, is visited after, and
    was parsed once. *)
Definition parsedOnce (s s' : State) : Prop :=
  alreadyVisited s ⊆ alreadyVisited s'
  ∧ ∃ t, trace s' = trace s ++ t
         ∧ (∀ d, countParses d t ≤ 1
                 ∧ (EvCreateNodesFromDocument d ∈ t →
                    (d ∉ alreadyVisited s) ∧ d ∈ alreadyVisited s')).

Definition isParse (e : Event) : Prop := ∃ d, e = EvCreateNodesFromDocument d.

(** The pass was left by the [return] that follows a parse with zero nodes:
    the last call is that parse. *)
Definition endedByEmptyParse (w : World) (s : State) : Prop :=
  ∃ d text before,
    trace s = before ++ [EvCreateNodesFromDocument d]
    ∧ textDocuments w !! d = Some text
    ∧ yieldsNoNodes (createNodesFromDocument w d text).

(** A save as [processDocuments] makes it: of at least one document, and
    incremental unless the build is a full build. *)
Definition goodSave (fullBuild : bool) (e : Event) : Prop :=
  match e with
  | EvSave args =>
      save_documents args ≠ [] ∧ save_incremental args = negb fullBuild
  | _ => True
  end.

(** The relative path of [u] is in the matched set of the inclusion filter. *)
Definition inFilter (w : World) (s : State) (u : string) : Prop :=
  ∃ p, fileURLToPath w u = Some p
       ∧ relative w (workspace s) p ∈ matchedSet w s.

(** The documents parsed between [s] and [s'] are identifiers of the batch
    or match the inclusion filter. *)
Definition parsesFiltered (w : World) (isTop : string → Prop) (s s' : State) : Prop :=
  workspace s' = workspace s
  ∧ matchedSet w s' = matchedSet w s
  ∧ ∃ t, trace s' = trace s ++ t
         ∧ ∀ u, EvCreateNodesFromDocument u ∈ t → isTop u ∨ inFilter w s u.

(** The calls the end of the body of [try] may make, and those the removal
    branch may make. *)
Definition persistEvent (fullBuild : bool) (e : Event) : Prop :=
  isSkeletonizerEvent e ∨ (∃ args, e = EvSave args ∧ goodSave fullBuild e).

Definition removalEvent (e : Event) : Prop :=
  match e with
  | EvExistsSync _ | EvFindDocumentsByPath _ | EvDeleteDocuments _
  | EvOnFileRemoved _ => True
  | _ => False
  end.

(** The fields of the Indexer a pass does not write once it has started. *)
Definition sameIndexer (w : World) (s s' : State) : Prop :=
  workspace s' = workspace s
  ∧ syncing s' = syncing s
  ∧ matchedSet w s' = matchedSet w s.

(** The calls a pass may make. *)
Definition passEvent (fullBuild : bool) (e : Event) : Prop :=
  (∃ d, visitEvent d e) ∨ persistEvent fullBuild e ∨ removalEvent e
  ∨ ∃ d err, e = EvConsoleError d err.

(** Between [s] and [s'] the workspace, the flag and the matched set are
    kept, and only calls of a pass are made. *)
Definition passCalls (w : World) (fullBuild : bool) (s s' : State) : Prop :=
  sameIndexer w s s'
  ∧ ∃ t, trace s' = trace s ++ t ∧ Forall (passEvent fullBuild) t.

(** ** Workspaces with failing collaborators *)

Module Faults.

(** [w] with a vector store whose lookup and deletion answer as given. *)
Definition withStore (w : World)
    (find : list Event → list string → Error + list Document)
    (delete : list Event → list (option string) → option Error) : World :=
  {| existsSync := existsSync w;
     textDocuments := textDocuments w;
     fileURLToPath := fileURLToPath w;
     relative := relative w;
     sha256hex := sha256hex w;
     getTextRange := getTextRange w;
     convertIdToFilePath := convertIdToFilePath w;
     glob := glob w;
     createNodesFromDocument := createNodesFromDocument w;
     mergeCodeNodeSummariesIntoParent := mergeCodeNodeSummariesIntoParent w;
     skeletonizeCodeGraphNode := skeletonizeCodeGraphNode w;
     findDocumentsByPath := find;
     deleteDocuments := delete;
     save := save w;
     onFileProcessing := onFileProcessing w;
     onFileRemoved := onFileRemoved w |}.

(** [w] with callbacks whose promises do as given. *)
Definition withCallbacks (w : World) (processing removed : string → Promise)
  : World :=
  {| existsSync := existsSync w;
     textDocuments := textDocuments w;
     fileURLToPath := fileURLToPath w;
     relative := relative w;
     sha256hex := sha256hex w;
     getTextRange := getTextRange w;
     convertIdToFilePath := convertIdToFilePath w;
     glob := glob w;
     createNodesFromDocument := createNodesFromDocument w;
     mergeCodeNodeSummariesIntoParent := mergeCodeNodeSummariesIntoParent w;
     skeletonizeCodeGraphNode := skeletonizeCodeGraphNode w;
     findDocumentsByPath := findDocumentsByPath w;
     deleteDocuments := deleteDocuments w;
     save := save w;
     onFileProcessing := processing;
     onFileRemoved := removed |}.

(** The generator answers nothing for the node with id [mute], and a
    skeleton for every other node. *)
Definition muteGenerator (mute : string) : World :=
  let w := Examples.worldAB [] None in
  {| existsSync := existsSync w;
     textDocuments := textDocuments w;
     fileURLToPath := fileURLToPath w;
     relative := relative w;
     sha256hex := sha256hex w;
     getTextRange := getTextRange w;
     convertIdToFilePath := convertIdToFilePath w;
     glob := glob w;
     createNodesFromDocument := createNodesFromDocument w;
     mergeCodeNodeSummariesIntoParent := mergeCodeNodeSummariesIntoParent w;
     skeletonizeCodeGraphNode := λ filePath node codeBlock cache related,
       if bool_decide (node_id node = mute) then GeneratorFalsy
       else skeletonizeCodeGraphNode w filePath node codeBlock cache related;
     findDocumentsByPath := findDocumentsByPath w;
     deleteDocuments := deleteDocuments w;
     save := save w;
     onFileProcessing := onFileProcessing w;
     onFileRemoved := onFileRemoved w |}.

(** Every path exists on disk, but only the documents of [docsAB] can be
    read. *)
Definition unreadable : World :=
  Examples.world (λ _, true) Examples.docsAB Examples.parseAB [] None.

(** The parser rejects with [error] on every document. *)
Definition brokenParser (error : Error) : World :=
  Examples.world Examples.onDisk Examples.docsAB (λ _ _, ParseThrows error) [] None.

(** The lookup of the vector store rejects with [error]. *)
Definition brokenStore (error : Error) : World :=
  withStore (Examples.worldAB [] None) (λ _ _, inl error) (λ _ _, None).

End Faults.

(** ** The composer context: thread management

    The thread state of [ComposerProvider] and its four thread operations.
    A handler closes over the values of the render that created it and
    updates the thread list through a functional update: [threads] and
    [activeThread] below are the values the handler closes over, and the
    [Provider] it is applied to is the state its updates start from.
    Messages are kept abstract; [Date.now()] and [uuidv4()] are inputs. *)

Module Composer.

Section Threads.
Context {Message : Type}.

Record Thread := mkThread {
  thread_id : string;
  title : string;
  createdAt : Z;
  updatedAt : Z;
  messages : list Message;
}.

(** [vscode.postMessage({ command, value })] *)
Inductive Posted :=
| PostCreateThread (value : Thread)
| PostSwitchThread (value : string)
| PostDeleteThread (value : string)
| PostRenameThread (threadId newTitle : string).

Record Provider := mkProvider {
  composerMessages : list Message;
  threads : list Thread;
  activeThread : option Thread;
  posted : list Posted;
}.

Definition createThread (now : Z) (uuid : string) (newTitle : string)
    (p : Provider) : Provider :=
  let newThread := mkThread uuid newTitle now now [] in
  {| threads := threads p ++ [newThread];
     activeThread := Some newThread;
     composerMessages := [];
     posted := posted p ++ [PostCreateThread newThread] |}.

(** [threads.find(t => t.id === threadId)] *)
Definition findThread (threadId : string) (ts : list Thread) : option Thread :=
  list_find (λ t, thread_id t = threadId) ts ≫= λ it, Some it.2.

Definition switchThread (closedThreads : list Thread) (threadId : string)
    (p : Provider) : Provider :=
  match findThread threadId closedThreads with
  | Some thread =>
      {| threads := threads p;
         activeThread := Some thread;
         composerMessages := messages thread;
         posted := posted p ++ [PostSwitchThread threadId] |}
  | None => p
  end.

Definition deleteThread (closedThreads : list Thread) (closedActive : option Thread)
    (threadId : string) (p : Provider) : Provider :=
  if decide (length closedThreads ≤ 1) then p
  else
    let updatedThreads := filter (λ t, thread_id t ≠ threadId) (threads p) in
    match updatedThreads with
    | newActiveThread :: _ =>
        if decide (thread_id <$> closedActive = Some threadId) then
          {| threads := updatedThreads;
             activeThread := Some newActiveThread;
             composerMessages := messages newActiveThread;
             posted := posted p ++ [PostDeleteThread threadId] |}
        else
          {| threads := updatedThreads;
             activeThread := activeThread p;
             composerMessages := composerMessages p;
             posted := posted p ++ [PostDeleteThread threadId] |}
    | [] =>
        {| threads := updatedThreads;
           activeThread := activeThread p;
           composerMessages := composerMessages p;
           posted := posted p ++ [PostDeleteThread threadId] |}
    end.

(** The thread [renameThread] puts in place of [thread]; [now] is what
    [Date.now()] answers when that thread is reached. *)
Definition renamed (now : Thread → Z) (threadId newTitle : string) (thread : Thread)
  : Thread :=
  if decide (thread_id thread = threadId) then
    mkThread (thread_id thread) newTitle (createdAt thread) (now thread)
      (messages thread)
  else thread.

Definition renameThread (now : Thread → Z) (closedActive : option Thread)
    (threadId newTitle : string) (p : Provider) : Provider :=
  let matching := filter (λ t, thread_id t = threadId) (threads p) in
  {| threads := renamed now threadId newTitle <$> threads p;
     activeThread :=
       if decide (thread_id <$> closedActive = Some threadId) then
         match last matching with
         | Some thread => Some (renamed now threadId newTitle thread)
         | None => activeThread p
         end
       else activeThread p;
     composerMessages := composerMessages p;
     posted := posted p ++ [PostRenameThread threadId newTitle] |}.

(** The case ["thread-data"] of [handleResponse], for [threads] an array:
    the extension sends its threads and, possibly, the id of the active
    one. *)
Definition threadData (newThreads : list Thread) (activeThreadId : option string)
    (p : Provider) : Provider :=
  let loaded := {| threads := newThreads;
                   activeThread := activeThread p;
                   composerMessages := composerMessages p;
                   posted := posted p |} in
  let shown thread := {| threads := newThreads;
                         activeThread := Some thread;
                         composerMessages := messages thread;
                         posted := posted p |} in
  if truthy activeThreadId && bool_decide (0 < length newThreads) then
    match findThread (default EmptyString activeThreadId) newThreads with
    | Some thread => shown thread
    | None => loaded
    end
  else
    match newThreads with
    | first :: _ => shown first
    | [] => loaded
    end.

(** The operations as a consumer of the context calls them, from the latest
    render with no update pending, and the arrival of thread data. *)
Inductive ThreadAction :=
| CreateThread (now : Z) (uuid newTitle : string)
| SwitchThread (threadId : string)
| DeleteThread (threadId : string)
| RenameThread (now : Thread → Z) (threadId newTitle : string)
| ThreadData (newThreads : list Thread) (activeThreadId : option string).

Definition act (a : ThreadAction) (p : Provider) : Provider :=
  match a with
  | CreateThread now uuid newTitle => createThread now uuid newTitle p
  | SwitchThread threadId => switchThread (threads p) threadId p
  | DeleteThread threadId => deleteThread (threads p) (activeThread p) threadId p
  | RenameThread now threadId newTitle =>
      renameThread now (activeThread p) threadId newTitle p
  | ThreadData newThreads activeThreadId => threadData newThreads activeThreadId p
  end.

(** The ids of the threads are distinct, the active thread is one of the
    threads, and the messages shown are those of the active thread. *)
Definition consistent (p : Provider) : Prop :=
  NoDup (thread_id <$> threads p)
  ∧ ∀ a, activeThread p = Some a →
         a ∈ threads p ∧ composerMessages p = messages a.

(** What an action needs from outside: [uuidv4()] answers an id no thread
    has; the extension sends at least one thread, with distinct ids, and an
    active id, if any, that names one of them. *)
Definition admissible (a : ThreadAction) (p : Provider) : Prop :=
  match a with
  | CreateThread _ uuid _ => uuid ∉ thread_id <$> threads p
  | ThreadData newThreads activeThreadId =>
      NoDup (thread_id <$> newThreads)
      ∧ newThreads ≠ []
      ∧ (truthy activeThreadId = true →
         default EmptyString activeThreadId ∈ thread_id <$> newThreads)
  | _ => True
  end.

End Threads.

Arguments Thread : clear implicits.
Arguments Posted : clear implicits.
Arguments Provider : clear implicits.
Arguments ThreadAction : clear implicits.

End Composer.

(** ** The callbacks of a pass *)



(** ** What the generator is given *)

(** A generator call as [skeletonizeNode] makes it with Code Graph [g]: the
    path of the node's document, the nodes of the graph behind the node's
    import edges, and a document cache that holds the node's document. *)
Definition generatorCall (w : World) (g : CodeGraph) (e : Event) : Prop :=
  match e with
  | EvSkeletonizeCodeGraphNode filePath node _ cache related =>
      fileURLToPath w (uri (node_location node)) = Some filePath
      ∧ related = omap (Graph.getNode g)
                    (default [] (Graph.getImportEdge g (node_id node)))
      ∧ is_Some (cache !! uri (node_location node))
  | _ => True
  end.

Definition generatorCalls (w : World) (s s' : State) : Prop :=
  codeGraph s' = codeGraph s
  ∧ ∃ t, trace s' = trace s ++ t ∧ Forall (generatorCall w (codeGraph s)) t.

(** * Reasoning about the methods *)

(** ** Weakest preconditions *)

Definition wp {A : Type} (m : M A) (Q : Res A → State → Prop) (s : State) : Prop :=
  Q (m s).1 (m s).2.

(** What a continuation owes when it is only reached on [Ok]. *)
Definition andThen {A B : Type} (K : A → State → Prop) (Q : Res B → State → Prop)
  : Res A → State → Prop :=
  λ r s, match r with
         | Ok a => K a s
         | Throw e => Q (Throw e) s
         | Diverges => Q Diverges s
         end.

Lemma wp_ret {A} (a : A) Q s : Q (Ok a) s → wp (mret a) Q s.
Proof. done. Qed.

Lemma wp_bind {A B} (m : M A) (k : A → M B) Q s :
  wp m (andThen (λ a, wp (k a) Q) Q) s → wp (m ≫= k) Q s.
Proof.
  unfold wp, andThen. change ((m ≫= k) s) with (M_bind _ _ k m s).
  unfold M_bind. destruct (m s) as [[a|e|] s']; done.
Qed.

Lemma wp_mono {A} (m : M A) (Q Q' : Res A → State → Prop) s :
  wp m Q s → (∀ r s', Q r s' → Q' r s') → wp m Q' s.
Proof. unfold wp. auto. Qed.

Lemma wp_run {A} (m : M A) Q s r s' : wp m Q s → m s = (r, s') → Q r s'.
Proof. unfold wp. intros H E. by rewrite E in H. Qed.

Lemma wp_gets {A} (f : State → A) Q s : Q (Ok (f s)) s → wp (gets f) Q s.
Proof. done. Qed.

Lemma wp_modify (f : State → State) Q s : Q (Ok ()) (f s) → wp (modify f) Q s.
Proof. done. Qed.

Lemma wp_emit e Q s : Q (Ok ()) (set_trace (trace s ++ [e]) s) → wp (emit e) Q s.
Proof. done. Qed.

Lemma wp_throw {A} e (Q : Res A → State → Prop) s : Q (Throw e) s → wp (throw e) Q s.
Proof. done. Qed.

Lemma wp_diverge {A} (Q : Res A → State → Prop) s : Q Diverges s → wp diverge Q s.
Proof. done. Qed.

Lemma wp_fireAndForget call promise Q s :
  Q (Ok ()) (set_floating (floating s ++ [call]) (set_trace (trace s ++ [call]) s)) →
  wp (fireAndForget call promise) Q s.
Proof. done. Qed.

Lemma wp_try_catch {A} (m : M A) h Q s :
  wp m (λ r s', match r with
                | Throw e => wp (h e) Q s'
                | _ => Q r s'
                end) s →
  wp (try_catch m h) Q s.
Proof.
  unfold wp, try_catch. destruct (m s) as [[a|e|] s']; done.
Qed.

Lemma wp_logError d e Q s :
  Q (Ok (Next ())) (caught d e s) → wp (logError d e) Q s.
Proof. unfold wp, logError, caught. by destruct (instanceOfError e). Qed.

Lemma logError_run d e s : logError d e s = (Ok (Next ()), caught d e s).
Proof. unfold logError, caught. by destruct (instanceOfError e). Qed.

Lemma wp_pathOfUrl w u Q s :
  match fileURLToPath w u with
  | Some p => Q (Ok p) s
  | None => ∀ e, Q (Throw e) s
  end →
  wp (pathOfUrl w u) Q s.
Proof. unfold pathOfUrl. destruct (fileURLToPath w u); [done|]. intros H. apply H. Qed.

Lemma wp_storeCall {A} call (answer : list Event → Error + A) Q s :
  match answer (trace s) with
  | inl e => Q (Throw e) (set_trace (trace s ++ [call]) s)
  | inr a => Q (Ok a) (set_trace (trace s ++ [call]) s)
  end →
  wp (storeCall call answer) Q s.
Proof.
  unfold storeCall, wp, mbind, M_bind, gets, emit, modify. simpl.
  by destruct (answer (trace s)).
Qed.

(** A loop keeps an invariant [I] of its accumulator as long as each round
    does; [Q] receives what escapes the loop. *)
Lemma wp_foldM {A B} (f : B → A → M B) (I : B → State → Prop)
    (Q : Res B → State → Prop) l b s :
  I b s →
  (∀ b x s, x ∈ l → I b s → wp (f b x) (andThen I Q) s) →
  (∀ b s, I b s → Q (Ok b) s) →
  wp (foldM f b l) Q s.
Proof.
  revert b s. induction l as [|x l IH]; intros b s Hb Hf HQ; simpl.
  - apply wp_ret. auto.
  - apply wp_bind. eapply wp_mono; [apply Hf; [left|done]|].
    intros [b'|e|] s'; simpl; auto.
    intros Hb'. apply IH; auto. intros ???? ?. apply Hf; [by right|done].
Qed.

Ltac wp_step :=
  lazymatch goal with
  | |- wp (mret _) _ _ => apply wp_ret
  | |- wp (_ ≫= _) _ _ => apply wp_bind
  | |- wp (gets _) _ _ => apply wp_gets
  | |- wp (modify _) _ _ => apply wp_modify
  | |- wp (emit _) _ _ => apply wp_emit
  | |- wp (throw _) _ _ => apply wp_throw
  | |- wp diverge _ _ => apply wp_diverge
  | |- wp (fireAndForget _ _) _ _ => apply wp_fireAndForget
  | |- wp (try_catch _ _) _ _ => apply wp_try_catch
  | |- wp (logError _ _) _ _ => apply wp_logError
  | |- wp (pathOfUrl _ _) _ _ => apply wp_pathOfUrl
  | |- wp (storeCall _ _) _ _ => apply wp_storeCall
  | |- andThen _ _ _ _ => unfold andThen at 1; cbv beta iota
  end.

(** Projections of updated states. *)
Ltac st_simpl :=
  cbn [workspace inclusionFilter syncing matchedFilesCache codeGraph fileHashMap
       alreadyVisited floating trace set_trace set_floating set_alreadyVisited
       set_fileHashMap set_codeGraph set_syncing set_matchedFilesCache
       set_inclusionFilter].

Ltac st_simpl_in H :=
  cbn [workspace inclusionFilter syncing matchedFilesCache codeGraph fileHashMap
       alreadyVisited floating trace set_trace set_floating set_alreadyVisited
       set_fileHashMap set_codeGraph set_syncing set_matchedFilesCache
       set_inclusionFilter] in H.

Ltac wp_run := repeat first [wp_step | progress (cbv beta iota) | progress st_simpl].

Lemma wp_eq {A} (m : M A) s r s' :
  wp m (λ r0 s0, (r0, s0) = (r, s')) s → m s = (r, s').
Proof. unfold wp. by destruct (m s). Qed.

Lemma wp_of_eq {A} (m : M A) (Q : Res A → State → Prop) s r s' :
  m s = (r, s') → Q r s' → wp m Q s.
Proof. unfold wp. by intros ->. Qed.

(** Two states built from the same one by the same updates are equal. *)
Ltac state_eq :=
  try match goal with |- (_, _) = (_, _) => f_equal end;
  unfold zeroNodeVisit, passStart, set_trace, set_floating, set_alreadyVisited,
    set_fileHashMap, set_codeGraph, set_syncing, set_matchedFilesCache,
    set_inclusionFilter;
  cbn [workspace inclusionFilter syncing matchedFilesCache codeGraph fileHashMap
       alreadyVisited floating trace];
  f_equal; rewrite <- ?app_assoc; reflexivity.

(** ** The loop over the identifiers *)

Lemma forDocumentUris_cons w fullBuild d rest s :
  forDocumentUris w fullBuild (d :: rest) s
  = match try_catch (processDocument w fullBuild d) (logError d) s with
    | (Ok (Next _), s') => forDocumentUris w fullBuild rest s'
    | (Ok Return, s') => (Ok Return, s')
    | (Throw e, s') => (Throw e, s')
    | (Diverges, s') => (Diverges, s')
    end.
Proof.
  cbn [forDocumentUris].
  change ((try_catch ?m ?h ≫= ?k) s) with (M_bind _ _ k (try_catch m h) s).
  unfold M_bind. by destruct (try_catch _ _ s) as [[[[]|]|e|] s'].
Qed.

(** What the [catch] of the loop does with what the body threw. *)
Lemma forDocumentUris_caught w fullBuild d rest s e s1 :
  processDocument w fullBuild d s = (Throw e, s1) →
  forDocumentUris w fullBuild (d :: rest) s
  = forDocumentUris w fullBuild rest (caught d e s1).
Proof.
  intros Hrun. rewrite forDocumentUris_cons. unfold try_catch. rewrite Hrun.
  unfold logError, caught. by destruct (instanceOfError e).
Qed.

Lemma forDocumentUris_next w fullBuild d rest s s1 :
  processDocument w fullBuild d s = (Ok (Next ()), s1) →
  forDocumentUris w fullBuild (d :: rest) s = forDocumentUris w fullBuild rest s1.
Proof.
  intros Hrun. rewrite forDocumentUris_cons. unfold try_catch. by rewrite Hrun.
Qed.

(** ** The guard of [processDocuments] *)

(** C10: with an empty or undefined [documentUris], or an empty workspace
    string, [processDocuments] returns without calling any collaborator (no
    file is read, no vector-store operation is invoked), leaves the Code
    Graph as it was, and [isSyncing()] answers [false] afterwards. *)
Theorem processDocuments_nothing_to_index w s documentUris fullBuild :
  workspace s = EmptyString ∨ documentUris = None ∨ documentUris = Some [] →
  ∃ s', processDocuments w documentUris fullBuild s = (Ok (), s')
        ∧ trace s' = trace s
        ∧ floating s' = floating s
        ∧ codeGraph s' = codeGraph s
        ∧ isSyncing s' = (Ok false, s').
Proof.
  intros H. exists (set_syncing false s).
  assert (nothingToIndex (workspace s) documentUris = true) as Hskip.
  { unfold nothingToIndex. destruct H as [-> | [-> | ->]]; [done| |];
      by rewrite orb_true_r. }
  split; [|done].
  unfold processDocuments.
  change ((gets workspace ≫= _) s) with
    ((if nothingToIndex (workspace s) documentUris
      then modify (set_syncing false)
      else modify (set_syncing true) ;; modify (set_fileHashMap ∅) ;;
           modify (set_alreadyVisited ∅) ;;
           r ← forDocumentUris w fullBuild (default [] documentUris);
           match r with
           | Return => mret ()
           | Next _ => modify (set_syncing false)
           end) s).
  by rewrite Hskip.
Qed.

Lemma processDocuments_nothing_to_index_witness :
  (workspace (Examples.indexer Examples.emptyGraph None) = EmptyString
   ∨ Some ([] : list string) = None ∨ Some [] = Some ([] : list string))
  ∧ ∃ s', processDocuments (Examples.worldAB [] None) (Some []) false
            (Examples.indexer Examples.emptyGraph None) = (Ok (), s')
          ∧ trace s' = trace (Examples.indexer Examples.emptyGraph None)
          ∧ floating s' = floating (Examples.indexer Examples.emptyGraph None)
          ∧ codeGraph s' = codeGraph (Examples.indexer Examples.emptyGraph None)
          ∧ isSyncing s' = (Ok false, s').
Proof.
  split; [right; right; reflexivity|].
  apply (processDocuments_nothing_to_index (Examples.worldAB [] None)
           (Examples.indexer Examples.emptyGraph None) (Some []) false).
  right; right; reflexivity.
Defined.

(** ** The inclusion-filter cache *)

(** C5 (the code does otherwise): once the cache holds a matched set,
    [clearCache] empties that set but keeps it in place, so the next
    [shouldIncludeFile] does not call [glob] again and answers [false] for
    every path, whatever filter is configured. *)
Theorem shouldIncludeFile_after_clearCache w s matched filter relativeFilePath :
  matchedFilesCache s = Some matched →
  ∃ s', (setInclusionFilter filter ;; clearCache ;;
         shouldIncludeFile w relativeFilePath) s = (Ok false, s')
        ∧ trace s' = trace s
        ∧ matchedFilesCache s' = Some [].
Proof.
  intros Hc.
  exists (set_matchedFilesCache (Some []) (set_inclusionFilter filter s)).
  split; [|done].
  change ((setInclusionFilter filter ;; clearCache ;;
           shouldIncludeFile w relativeFilePath) s)
    with (shouldIncludeFile w relativeFilePath
            (clearCache (set_inclusionFilter filter s)).2).
  unfold clearCache, modify. simpl. rewrite Hc. simpl. reflexivity.
Qed.

Lemma shouldIncludeFile_after_clearCache_witness :
  "b.ts" ∈ glob (Examples.worldAB ["a.ts"; "b.ts"] None) "**/*.ts" "/ws"
  ∧ shouldIncludeFile (Examples.worldAB ["a.ts"; "b.ts"] None) "b.ts"
      (Examples.indexer Examples.emptyGraph None)
    = (Ok true,
       set_trace [EvGlob "**/*.ts" "/ws"]
         (Examples.indexer Examples.emptyGraph (Some ["a.ts"; "b.ts"])))
  ∧ ∃ s', (setInclusionFilter "**/*.ts" ;; clearCache ;;
           shouldIncludeFile (Examples.worldAB ["a.ts"; "b.ts"] None) "b.ts")
            (set_trace [EvGlob "**/*.ts" "/ws"]
               (Examples.indexer Examples.emptyGraph (Some ["a.ts"; "b.ts"])))
          = (Ok false, s')
          ∧ trace s' = [EvGlob "**/*.ts" "/ws"]
          ∧ matchedFilesCache s' = Some [].
Proof.
  split; [simpl; set_solver|].
  split; [reflexivity|].
  apply (shouldIncludeFile_after_clearCache
           (Examples.worldAB ["a.ts"; "b.ts"] None)
           (set_trace [EvGlob "**/*.ts" "/ws"]
              (Examples.indexer Examples.emptyGraph (Some ["a.ts"; "b.ts"])))
           ["a.ts"; "b.ts"] "**/*.ts" "b.ts").
  reflexivity.
Defined.

(** ** A parse that yields zero nodes *)

Lemma visitDocument_zero_nodes w s d l p text :
  d ∉ alreadyVisited s →
  fileURLToPath w d = Some p →
  textDocuments w !! d = Some text →
  alreadyIndexed (symbolTable (codeGraph s) !! relative w (workspace s) p)
    (fileHashMap s !! relative w (workspace s) p) (sha256hex w text) = false →
  yieldsNoNodes (createNodesFromDocument w d text) →
  visitDocument w d l s
  = (Ok Return, zeroNodeVisit (relative w (workspace s) p) d s).
Proof.
  intros Hv Hp Htext Hstale Hzero. apply wp_eq.
  unfold visitDocument. wp_run.
  rewrite decide_False by done. wp_run.
  unfold getFileFromSymbolTable. wp_run. rewrite Htext. wp_run.
  rewrite Hp. wp_run. simpl. unfold Graph.getFileFromSymbolTable.
  rewrite Hstale. wp_run.
  destruct Hzero as [-> | (i & e & ->)]; wp_run; state_eq.
Qed.

Lemma processDocument_zero_nodes w s d fullBuild p text :
  d ∉ alreadyVisited s →
  fileURLToPath w d = Some p →
  existsSync w p = true →
  textDocuments w !! d = Some text →
  alreadyIndexed (symbolTable (codeGraph s) !! relative w (workspace s) p)
    (fileHashMap s !! relative w (workspace s) p) (sha256hex w text) = false →
  yieldsNoNodes (createNodesFromDocument w d text) →
  processDocument w fullBuild d s
  = (Ok Return,
     zeroNodeVisit (relative w (workspace s) p) d
       (set_trace (trace s ++ [EvExistsSync p]) s)).
Proof.
  intros Hv Hp Hex Htext Hstale Hzero. apply wp_eq.
  unfold processDocument. wp_run.
  rewrite decide_False by done. wp_run. rewrite Hp. wp_run.
  rewrite Hex. simpl negb. wp_run.
  simpl frontierLoop. wp_run.
  eapply wp_of_eq; [by eapply visitDocument_zero_nodes|].
  wp_run. reflexivity.
Qed.

Lemma processDocuments_zero_nodes w s d rest fullBuild p text :
  workspace s ≠ EmptyString →
  fileURLToPath w d = Some p →
  existsSync w p = true →
  textDocuments w !! d = Some text →
  alreadyIndexed (symbolTable (codeGraph s) !! relative w (workspace s) p)
    None (sha256hex w text) = false →
  yieldsNoNodes (createNodesFromDocument w d text) →
  processDocuments w (Some (d :: rest)) fullBuild s
  = (Ok (),
     zeroNodeVisit (relative w (workspace s) p) d
       (set_trace (trace s ++ [EvExistsSync p]) (passStart s))).
Proof.
  intros Hws Hp Hex Htext Hstale Hzero. apply wp_eq.
  unfold processDocuments. wp_run.
  replace (nothingToIndex (workspace s) (Some (d :: rest))) with false
    by (unfold nothingToIndex; simpl; by rewrite bool_decide_eq_false_2).
  wp_run. simpl forDocumentUris. wp_run.
  eapply wp_of_eq.
  { by eapply processDocument_zero_nodes; simpl; try set_solver. }
  wp_run. reflexivity.
Qed.

(** C1 (the code does otherwise): when the parse of the first document of
    the frontier yields zero nodes, [processDocuments] returns on the spot.
    Whatever identifiers follow in the batch, the pass is the pass on that
    one identifier: its last call is the parse, nothing else is read,
    parsed or saved. *)
Theorem processDocuments_zero_nodes_ends_pass w s d rest fullBuild p text :
  workspace s ≠ EmptyString →
  fileURLToPath w d = Some p →
  existsSync w p = true →
  textDocuments w !! d = Some text →
  alreadyIndexed (symbolTable (codeGraph s) !! relative w (workspace s) p)
    None (sha256hex w text) = false →
  yieldsNoNodes (createNodesFromDocument w d text) →
  processDocuments w (Some (d :: rest)) fullBuild s
  = processDocuments w (Some [d]) fullBuild s
  ∧ trace (processDocuments w (Some (d :: rest)) fullBuild s).2
    = trace s ++ [EvExistsSync p; EvGetTextDocument d;
                  EvOnFileProcessing (relative w (workspace s) p);
                  EvGetTextDocument d; EvCreateNodesFromDocument d].
Proof.
  intros Hws Hp Hex Htext Hstale Hzero.
  rewrite (processDocuments_zero_nodes w s d rest fullBuild p text) by done.
  rewrite (processDocuments_zero_nodes w s d [] fullBuild p text) by done.
  split; [done|]. simpl. by rewrite <- app_assoc.
Qed.

Lemma processDocuments_zero_nodes_ends_pass_witness :
  processDocuments (Examples.worldAB [] None) (Some ["empty.ts"; "b.ts"]) false
    (Examples.indexer Examples.emptyGraph None)
  = processDocuments (Examples.worldAB [] None) (Some ["empty.ts"]) false
      (Examples.indexer Examples.emptyGraph None)
  ∧ trace (processDocuments (Examples.worldAB [] None)
             (Some ["empty.ts"; "b.ts"]) false
             (Examples.indexer Examples.emptyGraph None)).2
    = [EvExistsSync "empty.ts"; EvGetTextDocument "empty.ts";
       EvOnFileProcessing "empty.ts"; EvGetTextDocument "empty.ts";
       EvCreateNodesFromDocument "empty.ts"].
Proof.
  apply (processDocuments_zero_nodes_ends_pass (Examples.worldAB [] None)
           (Examples.indexer Examples.emptyGraph None)
           "empty.ts" ["b.ts"] false "empty.ts" EmptyString).
  - simpl. discriminate.
  - reflexivity.
  - vm_compute. reflexivity.
  - vm_compute. reflexivity.
  - vm_compute. reflexivity.
  - right. exists ∅, ∅. reflexivity.
Defined.

(** C2 (the code does otherwise): on the zero-node [return] the syncing flag
    is not reset; after the call has settled [isSyncing()] answers [true]. *)
Theorem processDocuments_zero_nodes_keeps_syncing w s d rest fullBuild p text :
  workspace s ≠ EmptyString →
  fileURLToPath w d = Some p →
  existsSync w p = true →
  textDocuments w !! d = Some text →
  alreadyIndexed (symbolTable (codeGraph s) !! relative w (workspace s) p)
    None (sha256hex w text) = false →
  yieldsNoNodes (createNodesFromDocument w d text) →
  ∃ s', processDocuments w (Some (d :: rest)) fullBuild s = (Ok (), s')
        ∧ isSyncing s' = (Ok true, s').
Proof.
  intros Hws Hp Hex Htext Hstale Hzero.
  eexists. split; [by eapply processDocuments_zero_nodes|]. reflexivity.
Qed.

Lemma processDocuments_zero_nodes_keeps_syncing_witness :
  ∃ s', processDocuments (Examples.worldAB [] None) (Some ["empty.ts"]) false
          (Examples.indexer Examples.emptyGraph None) = (Ok (), s')
        ∧ isSyncing s' = (Ok true, s').
Proof.
  apply (processDocuments_zero_nodes_keeps_syncing (Examples.worldAB [] None)
           (Examples.indexer Examples.emptyGraph None)
           "empty.ts" [] false "empty.ts" EmptyString).
  - simpl. discriminate.
  - reflexivity.
  - vm_compute. reflexivity.
  - vm_compute. reflexivity.
  - vm_compute. reflexivity.
  - right. exists ∅, ∅. reflexivity.
Defined.

(** ** A file that is gone from disk *)

Lemma processDocument_removed w s documentUri fullBuild filePath relatedDocs :
  documentUri ∉ alreadyVisited s →
  fileURLToPath w documentUri = Some filePath →
  existsSync w filePath = false →
  findDocumentsByPath w (trace s ++ [EvExistsSync filePath])
    [relative w (workspace s) filePath] = inr relatedDocs →
  (relatedDocs = [] ∨
   deleteDocuments w
     (trace s ++ [EvExistsSync filePath;
                  EvFindDocumentsByPath [relative w (workspace s) filePath]])
     (doc_id <$> relatedDocs) = None) →
  processDocument w fullBuild documentUri s
  = (Ok (Next ()), removedFile w filePath relatedDocs s).
Proof.
  intros Hv Hp Hex Hfind Hdel. apply wp_eq.
  unfold processDocument. wp_run.
  rewrite decide_False by done. wp_run. rewrite Hp. wp_run.
  rewrite Hex. simpl negb. wp_run. rewrite Hfind.
  destruct relatedDocs as [|doc docs]; wp_run.
  - unfold removedFile. state_eq.
  - destruct Hdel as [?|Hdel]; [done|].
    simpl trace. rewrite <- app_assoc. simpl app. rewrite Hdel. simpl orThrow.
    wp_run. unfold removedFile. state_eq.
Qed.

(** C9 (as the code has it): for a top-level identifier whose file is gone
    from disk, the store lookup and, when it found documents, their deletion
    are awaited, the file is removed from the Code Graph, [onFileRemoved] is
    called, and the loop goes on with the next identifier from there: the
    call is the last thing done for the identifier.  Nothing is assumed of
    the promise [onFileRemoved] returns: the loop goes on whether that
    promise is fulfilled, is rejected or never settles. *)
Theorem onFileRemoved_not_awaited w s documentUri rest fullBuild filePath relatedDocs :
  documentUri ∉ alreadyVisited s →
  fileURLToPath w documentUri = Some filePath →
  existsSync w filePath = false →
  findDocumentsByPath w (trace s ++ [EvExistsSync filePath])
    [relative w (workspace s) filePath] = inr relatedDocs →
  (relatedDocs = [] ∨
   deleteDocuments w
     (trace s ++ [EvExistsSync filePath;
                  EvFindDocumentsByPath [relative w (workspace s) filePath]])
     (doc_id <$> relatedDocs) = None) →
  ∃ s',
    forDocumentUris w fullBuild (documentUri :: rest) s
    = forDocumentUris w fullBuild rest s'
    ∧ trace s'
      = trace s ++ [EvExistsSync filePath;
                    EvFindDocumentsByPath [relative w (workspace s) filePath]]
          ++ match relatedDocs with
             | [] => []
             | _ :: _ => [EvDeleteDocuments (doc_id <$> relatedDocs)]
             end
          ++ [EvOnFileRemoved filePath]
    ∧ codeGraph s'
      = Graph.removeFileFromSymbolTable (codeGraph s)
          (relative w (workspace s) filePath)
    ∧ syncing s' = syncing s
    ∧ alreadyVisited s' = alreadyVisited s
    ∧ fileHashMap s' = fileHashMap s.
Proof.
  intros Hv Hp Hex Hfind Hdel.
  exists (removedFile w filePath relatedDocs s). split; [|done].
  apply forDocumentUris_next. by apply processDocument_removed.
Qed.

Lemma onFileRemoved_not_awaited_witness :
  let w := Faults.withCallbacks (Examples.worldAB [] None)
             (λ _, Fulfilled) (λ _, Pending) in
  let s := passStart (Examples.indexer Examples.emptyGraph None) in
  onFileRemoved w "gone.ts" = Pending
  ∧ ∃ s',
      forDocumentUris w false ["gone.ts"; "b.ts"] s = forDocumentUris w false ["b.ts"] s'
      ∧ trace s'
        = trace s ++ [EvExistsSync "gone.ts"; EvFindDocumentsByPath ["gone.ts"]]
            ++ [] ++ [EvOnFileRemoved "gone.ts"]
      ∧ codeGraph s' = Graph.removeFileFromSymbolTable (codeGraph s) "gone.ts"
      ∧ syncing s' = syncing s
      ∧ alreadyVisited s' = alreadyVisited s
      ∧ fileHashMap s' = fileHashMap s.
Proof.
  intros w s. split; [reflexivity|].
  apply (onFileRemoved_not_awaited w s "gone.ts" ["b.ts"] false "gone.ts" []).
  - simpl. set_solver.
  - reflexivity.
  - vm_compute. reflexivity.
  - reflexivity.
  - left. reflexivity.
Defined.

(** C9, the claim as stated fails.  In a pass over a file that is gone and a
    file that is there, the promise of [onFileRemoved] for the first never
    settles: a pass that waited for it would never reach the second
    identifier, yet the second identifier is processed and the pass ends.
    And when that promise is rejected, the rejection is not seen by the
    [catch] of the loop: nothing is logged. *)
Lemma onFileRemoved_awaited_counterexample :
  let s := Examples.indexer Examples.emptyGraph None in
  (let w := Faults.withCallbacks (Examples.worldAB [] None)
              (λ _, Fulfilled) (λ _, Pending) in
   onFileRemoved w "gone.ts" = Pending
   ∧ ∃ s' later,
       processDocuments w (Some ["gone.ts"; "b.ts"]) false s = (Ok (), s')
       ∧ trace s' = [EvExistsSync "gone.ts"; EvFindDocumentsByPath ["gone.ts"];
                     EvOnFileRemoved "gone.ts"; EvExistsSync "b.ts"] ++ later)
  ∧ (let w := Faults.withCallbacks (Examples.worldAB [] None)
                (λ _, Fulfilled) (λ _, Rejected (CollaboratorError "view closed")) in
     onFileRemoved w "gone.ts" = Rejected (CollaboratorError "view closed")
     ∧ ∃ s' later,
         processDocuments w (Some ["gone.ts"; "b.ts"]) false s = (Ok (), s')
         ∧ trace s' = [EvExistsSync "gone.ts"; EvFindDocumentsByPath ["gone.ts"];
                       EvOnFileRemoved "gone.ts"; EvExistsSync "b.ts"] ++ later
         ∧ ∀ d e, EvConsoleError d e ∉ trace s').
Proof.
  intros s. split; intros w; (split; [reflexivity|]); eexists _, _.
  - split; [vm_compute; reflexivity|]. reflexivity.
  - split; [vm_compute; reflexivity|]. split; [reflexivity|].
    intros d e Hin. cbn in Hin.
    repeat (apply elem_of_cons in Hin as [Hin|Hin]; [discriminate|]).
    by apply elem_of_nil in Hin.
Qed.

(** ** Traces of the skeletonizer *)

Lemma set_trace_nil s : set_trace (trace s ++ []) s = s.
Proof. destruct s. unfold set_trace. simpl. by rewrite app_nil_r. Qed.

Lemma set_trace_app s t1 t2 :
  set_trace (trace (set_trace (trace s ++ t1) s) ++ t2) (set_trace (trace s ++ t1) s)
  = set_trace (trace s ++ t1 ++ t2) s.
Proof. destruct s. unfold set_trace. simpl. by rewrite app_assoc. Qed.

Lemma app_eq_cons_split {A} (t1 t2 a b : list A) (e : A) :
  t1 ++ t2 = a ++ e :: b →
  (∃ k, t1 = a ++ e :: k ∧ b = k ++ t2) ∨ (∃ k, a = t1 ++ k ∧ t2 = k ++ e :: b).
Proof.
  revert a. induction t1 as [|x t1 IH]; intros a H; simpl in *.
  - right. by exists a.
  - destruct a as [|y a]; simpl in *.
    + injection H as -> <-. left. by exists t1.
    + injection H as -> H. destruct (IH _ H) as [(k & -> & ->)|(k & -> & ->)].
      * left. by exists k.
      * right. by exists k.
Qed.

Lemma generatedBy_app w t1 t2 :
  generatedBy w (t1 ++ t2) = generatedBy w t1 ++ generatedBy w t2.
Proof. apply omap_app. Qed.

Lemma generatedBy_reads w t : Forall isRead t → generatedBy w t = [].
Proof.
  induction 1 as [|e t [u ->] _ IH]; [done|]. simpl. apply IH.
Qed.

Lemma generatesFor_app n t1 t2 :
  generatesFor n (t1 ++ t2) ↔ generatesFor n t1 ∨ generatesFor n t2.
Proof.
  unfold generatesFor. split.
  - intros (fp & b & c & rel & [H|H]%elem_of_app); [left|right]; eauto.
  - intros [(fp & b & c & rel & H)|(fp & b & c & rel & H)];
      exists fp, b, c, rel; apply elem_of_app; auto.
Qed.

Lemma generatesFor_reads n t : Forall isRead t → ¬ generatesFor n t.
Proof.
  intros Hall (fp & b & c & rel & Hin).
  rewrite Forall_forall in Hall. by destruct (Hall _ Hin) as [u ?].
Qed.

Lemma ordered_nil w children done : ordered w children done [].
Proof. intros t1 e t2 H. by destruct t1. Qed.

Lemma ordered_app w children done t1 t2 :
  ordered w children done t1 →
  ordered w children (done ++ generatedBy w t1) t2 →
  ordered w children done (t1 ++ t2).
Proof.
  intros H1 H2 a e b Heq.
  destruct (app_eq_cons_split _ _ _ _ _ Heq) as [(k & -> & ->)|(k & -> & ->)].
  - by eapply H1.
  - specialize (H2 k e b eq_refl). destruct e; try done. simpl in *.
    destruct H2 as [Hc (text & Htext & ->)]. split.
    + intros c Hin Hr. apply generatesFor_app. right. by apply Hc.
    + exists text. split; [done|]. by rewrite generatedBy_app, app_assoc.
Qed.

Lemma Descends_trans children P Q n :
  Descends children P Q → Descends children Q n → Descends children P n.
Proof.
  intros HPQ HQn. induction HQn as [|R n' _ IH Hin]; [done|].
  by eapply descends_child.
Qed.

Lemma SkPost_nil w children l s :
  cache_ok w (textDocumentCache l) → SkPost w children [] l s (Ok l) s.
Proof.
  intros Hc. exists []. rewrite set_trace_nil. split; [done|].
  split; [done|]. split; [apply ordered_nil|]. split.
  - intros n (?&?&?&?&H). by apply elem_of_nil in H.
  - split; [done|]. split; [by rewrite app_nil_r|]. intros P n H. by apply elem_of_nil in H.
Qed.

Lemma SkPost_stop w children T1 T2 l s r s' :
  SkPost w children T1 l s r s' →
  match r with Ok _ => False | _ => True end →
  SkPost w children (T1 ++ T2) l s r s'.
Proof.
  intros (t & -> & Hev & Ho & Hd & Hr) Hnot. exists t.
  repeat split; try done.
  - intros n Hn. destruct (Hd n Hn) as (P & HP & HD). exists P. split; [|done].
    apply elem_of_app. by left.
  - by destruct r.
Qed.

Lemma SkPost_seq w children T1 T2 l s l1 s1 r s2 :
  SkPost w children T1 l s (Ok l1) s1 →
  SkPost w children T2 l1 s1 r s2 →
  SkPost w children (T1 ++ T2) l s r s2.
Proof.
  intros (t1 & -> & Hev1 & Ho1 & Hd1 & Hc1 & Hsk1 & Hg1)
         (t2 & -> & Hev2 & Ho2 & Hd2 & Hr2).
  exists (t1 ++ t2). rewrite set_trace_app. split; [done|].
  split; [by apply Forall_app|].
  split; [apply ordered_app; [done|by rewrite <- Hsk1]|].
  split.
  - intros n [Hn|Hn]%generatesFor_app.
    + destruct (Hd1 n Hn) as (P & HP & HD). exists P. split; [|done].
      apply elem_of_app. by left.
    + destruct (Hd2 n Hn) as (P & HP & HD). exists P. split; [|done].
      apply elem_of_app. by right.
  - destruct r as [l2| |]; [|done..].
    destruct Hr2 as (Hc2 & Hsk2 & Hg2). split; [done|]. split.
    + by rewrite Hsk2, Hsk1, generatedBy_app, app_assoc.
    + intros P n [HP|HP]%elem_of_app HD Hr; apply generatesFor_app;
        [left|right]; eauto.
Qed.

Lemma foldM_SkPost w children (f : SkeletonLocals → CodeGraphNode → M SkeletonLocals) cs :
  (∀ c l s, c ∈ cs → cache_ok w (textDocumentCache l) →
            wp (f l c) (SkPost w children [c] l s) s) →
  ∀ l s, cache_ok w (textDocumentCache l) →
         wp (foldM f l cs) (SkPost w children cs l s) s.
Proof.
  induction cs as [|c cs IH]; intros Hf l s Hc; simpl.
  - apply wp_ret. by apply SkPost_nil.
  - apply wp_bind. eapply wp_mono; [apply Hf; [by left|done]|].
    intros [l1|e|] s1 H1; simpl.
    + eapply wp_mono.
      * apply IH; [|by destruct H1 as (?&?&?&?&?&?&?)].
        intros ???? ?. apply Hf; [by right|done].
      * intros r s2 H2. by apply (SkPost_seq w children [c] cs l s l1 s1).
    + by apply (SkPost_stop w children [c] cs).
    + by apply (SkPost_stop w children [c] cs).
Qed.

Lemma set_trace_set_trace t t' s : set_trace t (set_trace t' s) = set_trace t s.
Proof. done. Qed.

Ltac trace_eq :=
  rewrite ?set_trace_set_trace; rewrite <- ?app_assoc; try rewrite set_trace_nil;
  reflexivity.


Lemma skeletonizeNode_spec w P cs l s :
  cache_ok w (textDocumentCache l) →
  wp (skeletonizeNode w P cs l)
    (λ r s', ∃ pre gen,
       s' = set_trace (trace s ++ pre ++ gen) s
       ∧ Forall isRead pre
       ∧ (gen = [] ∨
          ∃ filePath cache related text,
            textDocuments w !! uri (node_location P) = Some text
            ∧ gen = [EvSkeletonizeCodeGraphNode filePath P
                       (codeBlockOf w P text cs (skeletonNodes l)) cache related])
       ∧ match r with
         | Ok (o, l') =>
             cache_ok w (textDocumentCache l')
             ∧ skeletonNodes l' = skeletonNodes l
             ∧ generatedBy w gen = optionList o
             ∧ (readable w P → gen ≠ [])
         | Throw _ => True
         | Diverges => False
         end) s.
Proof.
  intros Hc. unfold skeletonizeNode. wp_run.
  destruct (textDocumentCache l !! uri (node_location P)) as [text|] eqn:Hcache.
  - wp_run.
    destruct (fileURLToPath w (uri (node_location P))) as [filePath|].
    + wp_run.
      destruct (skeletonizeCodeGraphNode w filePath P _ _ _) as [e| |sk] eqn:Hgen;
        wp_run.
      all: eexists [], [_]; rewrite app_nil_l.
      all: split; [reflexivity|]; split; [done|].
      all: split; [right; eexists _, _, _, text; split; [by apply Hc|];
                   unfold codeBlockOf; by destruct cs|].
      all: try done.
      all: split; [done|]; split; [done|]; split; [|done].
      all: simpl; unfold codeBlockOf in *; destruct cs; by rewrite Hgen.
    + intros e. exists [], []. rewrite set_trace_nil. by repeat split; [|left].
  - wp_run.
    destruct (textDocuments w !! uri (node_location P)) as [text|] eqn:Htext.
    + wp_run.
      assert (cache_ok w (<[uri (node_location P):=text]> (textDocumentCache l)))
        as Hc'.
      { intros u t. rewrite lookup_insert. case_decide; naive_solver. }
      destruct (fileURLToPath w (uri (node_location P))) as [filePath|].
      * wp_run.
        destruct (skeletonizeCodeGraphNode w filePath P _ _ _) as [e| |sk] eqn:Hgen;
          wp_run.
        all: eexists [_], [_].
        all: split; [trace_eq|]; split; [repeat constructor; by eexists|].
        all: split; [right; eexists _, _, _, text; split; [done|];
                     unfold codeBlockOf; by destruct cs|].
        all: try done.
        all: split; [done|]; split; [done|]; split; [|done].
        all: simpl; unfold codeBlockOf in *; destruct cs; by rewrite Hgen.
      * intros e. eexists [_], []. split; [trace_eq|].
        split; [repeat constructor; by eexists|]. by split; [left|].
    + wp_run. eexists [_], []. split; [trace_eq|].
      split; [repeat constructor; by eexists|]. split; [by left|].
      split; [done|]. split; [done|]. split; [done|].
      intros [? Hr]. unfold readable in *. congruence.
Qed.

Lemma ordered_reads w children done t : Forall isRead t → ordered w children done t.
Proof.
  intros Hall t1 e t2 ->. rewrite Forall_app, Forall_cons in Hall.
  by destruct Hall as (_ & [u ->] & _).
Qed.

Lemma ordered_snoc w children done t e :
  ordered w children done t →
  childrenFirst w children done t e →
  ordered w children done (t ++ [e]).
Proof.
  intros Ho He a e' b Heq.
  destruct (app_eq_cons_split _ _ _ _ _ Heq) as [(k & -> & ->)|(k & -> & Hk)].
  - by eapply Ho.
  - destruct k as [|x k]; simpl in Hk.
    + injection Hk as <- <-. by rewrite app_nil_r.
    + injection Hk as _ Hk. by destruct k.
Qed.

Lemma Descends_inv_top children P n :
  Descends children P n →
  n = P ∨ ∃ c, c ∈ children (node_id P) ∧ Descends children c n.
Proof.
  induction 1 as [|Q n _ IH Hin]; [by left|]. right.
  destruct IH as [->|(c & Hc & HD)].
  - exists n. split; [done|constructor].
  - exists c. split; [done|]. by eapply descends_child.
Qed.

Lemma processNode_trace w children P l s l1 s1 pre gen :
  SkPost w children (children (node_id P)) l s (Ok l1) s1 →
  Forall isRead pre →
  (gen = [] ∨
   ∃ filePath cache related text,
     textDocuments w !! uri (node_location P) = Some text
     ∧ gen = [EvSkeletonizeCodeGraphNode filePath P
                (codeBlockOf w P text (children (node_id P)) (skeletonNodes l1))
                cache related]) →
  ∃ t, set_trace (trace s1 ++ pre ++ gen) s1 = set_trace (trace s ++ t) s
       ∧ Forall isSkeletonizerEvent t
       ∧ ordered w children (skeletonNodes l) t
       ∧ (∀ n, generatesFor n t → ∃ P', P' ∈ [P] ∧ Descends children P' n)
       ∧ skeletonNodes l ++ generatedBy w t = skeletonNodes l1 ++ generatedBy w gen
       ∧ ((readable w P → gen ≠ []) →
          ∀ n, Descends children P n → readable w n → generatesFor n t).
Proof.
  intros (tc & -> & Hev & Ho & Hd & Hc & Hsk & Hg) Hpre Hgen.
  exists (tc ++ pre ++ gen). rewrite set_trace_app.
  assert (Forall isSkeletonizerEvent pre) as Hpre'.
  { eapply Forall_impl; [done|]. by intros e [u ->]. }
  assert (ordered w children (skeletonNodes l) (tc ++ pre)) as Ho'.
  { apply ordered_app; [done|]. by apply ordered_reads. }
  assert (∀ n, generatesFor n (tc ++ pre) →
               ∃ P', P' ∈ [P] ∧ Descends children P' n) as Hd'.
  { intros n [Hn|Hn]%generatesFor_app; [|by apply generatesFor_reads in Hn].
    destruct (Hd n Hn) as (c & Hin & HD). exists P. split; [by left|].
    eapply Descends_trans; [|done]. eapply descends_child; [constructor|done]. }
  assert (generatedBy w (tc ++ pre) = generatedBy w tc) as Hgb.
  { by rewrite generatedBy_app, (generatedBy_reads w pre), app_nil_r. }
  assert ((readable w P → generatesFor P gen) →
          ∀ n, Descends children P n → readable w n →
               generatesFor n (tc ++ pre ++ gen)) as Hall.
  { intros HP n HD Hr. apply generatesFor_app.
    destruct (Descends_inv_top _ _ _ HD) as [->|(c & Hin & HDc)].
    - right. apply generatesFor_app. right. by apply HP.
    - left. by eapply Hg. }
  split; [done|].
  destruct Hgen as [->|(fp & cache & rel & text & Htext & ->)].
  - split; [rewrite app_nil_r; by apply Forall_app|].
    split; [by rewrite app_nil_r|]. split; [by rewrite app_nil_r|].
    split; [rewrite app_nil_r, Hgb, Hsk; simpl; by rewrite app_nil_r|].
    intros HP. apply Hall. intros Hr. by destruct (HP Hr).
  - split; [|split; [|split; [|split]]].
    + apply Forall_app. split; [done|]. apply Forall_app. split; [done|].
      by repeat constructor.
    + rewrite app_assoc. apply ordered_snoc; [done|]. split.
      * intros c Hin Hr. apply generatesFor_app. left. eapply Hg; [done| |done].
        constructor.
      * exists text. split; [done|]. by rewrite Hgb, <- Hsk.
    + rewrite app_assoc. intros n [Hn|Hn]%generatesFor_app; [by apply Hd'|].
      destruct Hn as (?&?&?&?&Hin). apply list_elem_of_singleton in Hin.
      injection Hin as _ -> _ _ _. exists P. split; [by left|constructor].
    + by rewrite app_assoc, generatedBy_app, Hgb, app_assoc, Hsk.
    + intros _. apply Hall. intros _. eexists _, _, _, _. by left.
Qed.

Lemma processNode_spec w parentNodeMap children fuel :
  (∀ k, default [] (parentNodeMap !! k) = children k) →
  ∀ P l s, cache_ok w (textDocumentCache l) →
    wp (processNode w parentNodeMap fuel P l) (SkPost w children [P] l s) s.
Proof.
  intros Hch. induction fuel as [|fuel IH]; intros P l s Hc; simpl.
  - apply wp_diverge. exists []. rewrite set_trace_nil.
    repeat split; [done|apply ordered_nil|].
    intros n (?&?&?&?&H). by apply elem_of_nil in H.
  - rewrite Hch. apply wp_bind. eapply wp_mono.
    { apply (foldM_SkPost w children); [|done].
      intros c l0 s0 _ Hc0. by apply IH. }
    intros [l1|e|] s1 H1; simpl.
    + apply wp_bind. eapply wp_mono.
      { apply skeletonizeNode_spec. by destruct H1 as (?&?&?&?&?&?&?). }
      intros r2 s2 (pre & gen & -> & Hpre & Hgen & Hr2).
      destruct (processNode_trace w _ P l s l1 s1 pre gen H1 Hpre Hgen)
        as (t & Hs & Hev & Ho & Hd & Hsk & Hg).
      destruct r2 as [[o l2]|e|]; simpl; [|by exists t|done].
      destruct Hr2 as (Hc2 & Hsk2 & Hgb & Hr).
      destruct o as [sk|]; apply wp_ret; exists t;
        (split; [done|]; split; [done|]; split; [done|]; split; [done|]);
        simpl; (split; [done|]); rewrite Hsk, Hgb, Hsk2; simpl;
        (split; [by rewrite ?app_nil_r|]).
      all: intros P' n ->%list_elem_of_singleton HD Hread; auto.
    + destruct H1 as (t & -> & Hev & Ho & Hd & _). exists t.
      repeat split; try done. intros n Hn. destruct (Hd n Hn) as (c & Hin & HD).
      exists P. split; [by left|]. eapply Descends_trans; [|done].
      eapply descends_child; [constructor|done].
    + destruct H1 as (t & -> & Hev & Ho & Hd & _). exists t.
      repeat split; try done. intros n Hn. destruct (Hd n Hn) as (c & Hin & HD).
      exists P. split; [by left|]. eapply Descends_trans; [|done].
      eapply descends_child; [constructor|done].
Qed.

Lemma partitionNodes_fold nodes :
  ∀ pm0 roots0,
    (foldl partitionStep (pm0, roots0) nodes).2 = roots0 ++ rootsOf nodes
    ∧ ∀ k, default [] ((foldl partitionStep (pm0, roots0) nodes).1 !! k)
           = default [] (pm0 !! k) ++ childrenOf nodes k.
Proof.
  induction nodes as [|n nodes IH]; intros pm0 roots0; simpl.
  - split; [by rewrite app_nil_r|]. intros k. by rewrite app_nil_r.
  - destruct (truthy (node_parentNodeId n)) eqn:Ht.
    + destruct (node_parentNodeId n) as [p|] eqn:Hp; [|done]. simpl.
      destruct (IH (<[p:=default [] (pm0 !! p) ++ [n]]> pm0) roots0) as [-> IH'].
      split.
      * unfold rootsOf. rewrite filter_cons_False; [done|]. rewrite Hp.
        by rewrite Ht.
      * intros k. rewrite IH'. unfold childrenOf. rewrite lookup_insert.
        case_decide as Hk.
        -- subst k. rewrite filter_cons_True by (by rewrite Hp). simpl.
           by rewrite <- app_assoc.
        -- rewrite filter_cons_False; [done|]. intros [_ Heq]. congruence.
    + destruct (IH pm0 (roots0 ++ [n])) as [-> IH'].
      split.
      * unfold rootsOf. rewrite filter_cons_True by done. by rewrite <- app_assoc.
      * intros k. rewrite IH'. unfold childrenOf.
        rewrite filter_cons_False; [done|]. intros [Heq _]. congruence.
Qed.

Lemma partitionNodes_spec nodes :
  (partitionNodes nodes).2 = rootsOf nodes
  ∧ ∀ k, default [] ((partitionNodes nodes).1 !! k) = childrenOf nodes k.
Proof.
  destruct (partitionNodes_fold nodes ∅ []) as [H1 H2]. unfold partitionNodes.
  split; [done|]. intros k. by rewrite H2, lookup_empty.
Qed.

Lemma skeletonizeCodeNodes_spec w nodes s :
  wp (skeletonizeCodeNodes w nodes)
    (λ r s', ∃ t,
       s' = set_trace (trace s ++ t) s
       ∧ Forall isSkeletonizerEvent t
       ∧ ordered w (childrenOf nodes) [] t
       ∧ (∀ n, generatesFor n t → reachable nodes n)
       ∧ match r with
         | Ok result =>
             result = generatedBy w t
             ∧ ∀ n, reachable nodes n → readable w n → generatesFor n t
         | _ => True
         end) s.
Proof.
  unfold skeletonizeCodeNodes.
  destruct (partitionNodes_spec nodes) as [Hroots Hch].
  destruct (partitionNodes nodes) as [pm roots].
  cbn [fst snd] in Hroots, Hch. subst roots. cbv beta iota.
  apply wp_bind. eapply wp_mono.
  { apply (foldM_SkPost w (childrenOf nodes)); [|done].
    intros c l0 s0 _ Hc0.
    by apply (processNode_spec w pm (childrenOf nodes) (S (length nodes))). }
  intros r s' (t & -> & Hev & Ho & Hd & Hr).
  assert (∀ n, generatesFor n t → reachable nodes n) as Hreach.
  { intros n Hn. destruct (Hd n Hn) as (P & HP & HD). by exists P. }
  destruct r as [l'|e|]; simpl; [apply wp_ret| |]; exists t;
    (split; [done|]; split; [done|]; split; [done|]; split; [done|]); [|done..].
  destruct Hr as (_ & Hsk & Hg). split; [done|].
  intros n (P & HP & HD) Hn. by eapply Hg.
Qed.

Lemma reachable_inv nodes n :
  reachable nodes n →
  n ∈ nodes
  ∧ (truthy (node_parentNodeId n) = false
     ∨ ∃ Q, Q ∈ nodes ∧ truthy (node_parentNodeId n) = true
            ∧ node_parentNodeId n = Some (node_id Q)).
Proof.
  intros (r & Hr & HD). induction HD as [|Q n _ IH Hin].
  - apply list_elem_of_filter in Hr as [Ht Hin]. split; [done|by left].
  - apply list_elem_of_filter in Hin as [[Ht Hp] Hin]. split; [done|].
    right. exists Q. by destruct IH.
Qed.

(** ** Termination of [processNode] *)

Lemma node_id_inj nodes a b :
  NoDup (node_id <$> nodes) → a ∈ nodes → b ∈ nodes → node_id a = node_id b →
  a = b.
Proof.
  induction nodes as [|x nodes IH]; intros Hnd Ha Hb Heq.
  - by apply elem_of_nil in Ha.
  - rewrite fmap_cons in Hnd. apply NoDup_cons in Hnd as [Hx Hnd].
    apply elem_of_cons in Ha as [->|Ha]; apply elem_of_cons in Hb as [->|Hb].
    + done.
    + destruct Hx. rewrite Heq. by apply list_elem_of_fmap_2.
    + destruct Hx. rewrite <- Heq. by apply list_elem_of_fmap_2.
    + by apply IH.
Qed.

Lemma upChain_in_nodes nodes path n : upChain nodes path → n ∈ path → n ∈ nodes.
Proof.
  induction path as [|x path IH]; intros Hc Hin; [by apply elem_of_nil in Hin|].
  apply elem_of_cons in Hin as [->|Hin].
  - destruct path as [|q path]; simpl in Hc.
    + by apply list_elem_of_filter in Hc as [_ ?].
    + destruct Hc as [Hc _]. by apply list_elem_of_filter in Hc as [_ ?].
  - apply IH; [|done]. destruct path as [|q path]; [done|]. by destruct Hc.
Qed.

Lemma upChain_suffix nodes pre path :
  upChain nodes (pre ++ path) → upChain nodes path.
Proof.
  induction pre as [|x pre IH]; [done|]. intros Hc. apply IH.
  simpl in Hc. destruct (pre ++ path) as [|q rest]; [done|]. by destruct Hc.
Qed.

Lemma upChain_unique nodes n c1 c2 :
  NoDup (node_id <$> nodes) →
  upChain nodes (n :: c1) → upChain nodes (n :: c2) → c1 = c2.
Proof.
  intros Hnd. revert n c2. induction c1 as [|q1 c1 IH]; intros n c2 H1 H2.
  - destruct c2 as [|q2 c2]; [done|]. simpl in H1, H2.
    apply list_elem_of_filter in H1 as [H1 _].
    destruct H2 as [H2 _]. apply list_elem_of_filter in H2 as [[H2 _] _].
    congruence.
  - destruct c2 as [|q2 c2].
    + simpl in H1, H2. apply list_elem_of_filter in H2 as [H2 _].
      destruct H1 as [H1 _]. apply list_elem_of_filter in H1 as [[H1 _] _].
      congruence.
    + assert (q1 = q2) as ->.
      { apply (node_id_inj nodes); [done|..].
        - eapply upChain_in_nodes; [exact H1|]. right. by left.
        - eapply upChain_in_nodes; [exact H2|]. right. by left.
        - destruct H1 as [H1 _], H2 as [H2 _].
          apply list_elem_of_filter in H1 as [[_ H1] _].
          apply list_elem_of_filter in H2 as [[_ H2] _]. congruence. }
      f_equal. apply (IH q2); [by destruct H1|by destruct H2].
Qed.

Lemma upChain_NoDup nodes path :
  NoDup (node_id <$> nodes) → upChain nodes path → NoDup path.
Proof.
  intros Hnd. induction path as [|n path IH]; intros Hc; [constructor|].
  apply NoDup_cons. split.
  - intros Hin. apply list_elem_of_split in Hin as (pre & post & Heq).
    assert (upChain nodes (n :: post)) as Hpost.
    { apply (upChain_suffix nodes (n :: pre)).
      change ((n :: pre) ++ n :: post) with (n :: (pre ++ n :: post)).
      by rewrite <- Heq. }
    pose proof (upChain_unique nodes n path post Hnd Hc Hpost) as Hsame.
    apply (f_equal length) in Heq. rewrite Hsame in Heq.
    rewrite length_app in Heq. simpl in Heq. lia.
  - apply IH. destruct path as [|q path]; [done|]. by destruct Hc.
Qed.

Lemma upChain_length nodes path :
  NoDup (node_id <$> nodes) → upChain nodes path → length path ≤ length nodes.
Proof.
  intros Hnd Hc. apply submseteq_length, NoDup_submseteq.
  - by apply (upChain_NoDup nodes).
  - intros n. by apply (upChain_in_nodes nodes path).
Qed.

Lemma skeletonizeNode_total w P cs l s :
  wp (skeletonizeNode w P cs l) (λ r _, r ≠ Diverges) s.
Proof.
  unfold skeletonizeNode. wp_run.
  destruct (textDocumentCache l !! uri (node_location P)); wp_run.
  - destruct (fileURLToPath w (uri (node_location P))); [|done]. wp_run.
    by destruct (skeletonizeCodeGraphNode w _ P _ _ _); wp_run.
  - destruct (textDocuments w !! uri (node_location P)); wp_run; [|done].
    destruct (fileURLToPath w (uri (node_location P))); [|done]. wp_run.
    by destruct (skeletonizeCodeGraphNode w _ P _ _ _); wp_run.
Qed.

Lemma processNode_total w nodes parentNodeMap :
  NoDup (node_id <$> nodes) →
  (∀ k, default [] (parentNodeMap !! k) = childrenOf nodes k) →
  ∀ fuel P ancestors l s,
    upChain nodes (P :: ancestors) →
    length nodes < fuel + length ancestors + 1 →
    wp (processNode w parentNodeMap fuel P l) (λ r _, r ≠ Diverges) s.
Proof.
  intros Hnd Hch. induction fuel as [|fuel IH]; intros P anc l s Hc Hlen.
  - pose proof (upChain_length nodes (P :: anc) Hnd Hc) as Hle. simpl in *. lia.
  - simpl. rewrite Hch. apply wp_bind.
    apply (wp_foldM _ (λ _ _, True)); [done| |].
    + intros l0 c s0 Hin _. eapply wp_mono.
      * apply (IH c (P :: anc)); [|simpl; lia]. simpl. split; [done|exact Hc].
      * by intros [] ??.
    + intros l1 s1 _. apply wp_bind. eapply wp_mono; [apply skeletonizeNode_total|].
      intros [[[sk|] l2]|e|] s2 Hr; simpl; try done.
Qed.

Lemma skeletonizeCodeNodes_total w nodes s :
  NoDup (node_id <$> nodes) →
  wp (skeletonizeCodeNodes w nodes) (λ r _, r ≠ Diverges) s.
Proof.
  intros Hnd. unfold skeletonizeCodeNodes.
  destruct (partitionNodes_spec nodes) as [Hroots Hch].
  destruct (partitionNodes nodes) as [pm roots].
  cbn [fst snd] in Hroots, Hch. subst roots. cbv beta iota.
  apply wp_bind. apply (wp_foldM _ (λ _ _, True)); [done| |].
  - intros l0 r s0 Hin _. eapply wp_mono.
    + apply (processNode_total w nodes pm Hnd Hch (S (length nodes)) r []);
        [done|simpl; lia].
    + by intros [] ??.
  - intros l1 s1 _. by apply wp_ret.
Qed.

(** ** What [skeletonizeCodeNodes] generates, and in which order *)

(** C7 (as the code has it): whenever the generator is called for a node
    [P] of the set, every child of [P] has been dealt with.  The generator
    was called for a child only if the child's document is readable; for a
    child with a readable document it was called, and the skeleton that call
    answered, if it answered one, is in the collection of completed
    skeletons at that moment.  The collection holds nothing but answers of
    earlier generator calls.  The code block given to the generator for [P]
    is the text of [P] when [P] has no children, and otherwise
    [mergeCodeNodeSummariesIntoParent] applied to that text, the ids of all
    the children and that collection.  A child whose document cannot be
    read, or for which the generator answers nothing, has no skeleton in the
    collection, and [P] is generated all the same. *)
Theorem skeletonizeCodeNodes_children_first w nodes s
    before filePath P codeBlock cache related after :
  trace (skeletonizeCodeNodes w nodes s).2
  = trace s ++ before
      ++ EvSkeletonizeCodeGraphNode filePath P codeBlock cache related :: after →
  ∃ text completed,
    textDocuments w !! uri (node_location P) = Some text
    ∧ codeBlock = codeBlockOf w P text (childrenOf nodes (node_id P)) completed
    ∧ (∀ sk, sk ∈ completed → sk ∈ generatedBy w before)
    ∧ ∀ C, C ∈ childrenOf nodes (node_id P) →
           (generatesFor C before → readable w C)
           ∧ (readable w C →
              ∃ filePathC codeBlockC cacheC relatedC,
                EvSkeletonizeCodeGraphNode filePathC C codeBlockC cacheC relatedC
                ∈ before
                ∧ ∀ sk,
                    skeletonizeCodeGraphNode w filePathC C codeBlockC cacheC
                      relatedC = Generated sk →
                    sk ∈ completed).
Proof.
  intros Htrace.
  pose proof (skeletonizeCodeNodes_spec w nodes s) as Hspec. unfold wp in Hspec.
  destruct Hspec as (t & Hs & _ & Ho & _). rewrite Hs in Htrace.
  cbn [trace set_trace] in Htrace. apply app_inv_head in Htrace. subst t.
  destruct (Ho before _ after eq_refl) as [Hc (text & Htext & Hblock)].
  exists text, (generatedBy w before).
  split; [done|]. split; [done|]. split; [done|].
  intros C HC. split.
  - intros (fp & blk & ch & rel & Hin).
    apply list_elem_of_split in Hin as (b1 & b2 & ->).
    rewrite <- app_assoc in Ho.
    destruct (Ho b1 _ _ eq_refl) as [_ (textC & HtextC & _)]. by exists textC.
  - intros HrC. destruct (Hc C HC HrC) as (fp & blk & ch & rel & Hin).
    exists fp, blk, ch, rel. split; [done|]. intros sk Hans.
    apply list_elem_of_omap.
    eexists. split; [exact Hin|]. cbn [generatorAnswer]. by rewrite Hans.
Qed.

Lemma skeletonizeCodeNodes_children_first_witness :
  let w := Faults.muteGenerator "c1" in
  let P := Examples.nodeAt "a.ts" "p" None in
  let c1 := Examples.nodeAt "a.ts" "c1" (Some "p") in
  let c2 := Examples.nodeAt "a.ts" "c2" (Some "p") in
  let cache : gmap string string := {[ "a.ts" := "import b" ]} in
  let before :=
    [EvGetTextDocument "a.ts";
     EvSkeletonizeCodeGraphNode "a.ts" c1 "import b" cache [];
     EvSkeletonizeCodeGraphNode "a.ts" c2 "import b" cache []] in
  ∃ text completed,
    textDocuments w !! "a.ts" = Some text
    ∧ "import b<import b>" = codeBlockOf w P text (childrenOf [P; c1; c2] "p") completed
    ∧ (∀ sk, sk ∈ completed → sk ∈ generatedBy w before)
    ∧ ∀ C, C ∈ childrenOf [P; c1; c2] "p" →
           (generatesFor C before → readable w C)
           ∧ (readable w C →
              ∃ filePathC codeBlockC cacheC relatedC,
                EvSkeletonizeCodeGraphNode filePathC C codeBlockC cacheC relatedC
                ∈ before
                ∧ ∀ sk,
                    skeletonizeCodeGraphNode w filePathC C codeBlockC cacheC
                      relatedC = Generated sk →
                    sk ∈ completed).
Proof.
  intros w P c1 c2 cache before.
  apply (skeletonizeCodeNodes_children_first w [P; c1; c2]
           (Examples.indexer Examples.emptyGraph None)
           before "a.ts" P "import b<import b>" cache [] []).
  vm_compute. reflexivity.
Defined.

(** C7, the claim as stated fails: [p] has the children [c1] and [c2], all
    in one readable document, and the generator answers nothing for [c1].
    The generator is called for [p] all the same, after the calls for both
    children; no skeleton of [c1] was appended to the result, neither before
    that call nor later, and the code block given for [p] merges the
    skeleton of [c2] alone. *)
Lemma skeletonizeCodeNodes_child_without_skeleton_counterexample :
  let w := Faults.muteGenerator "c1" in
  let P := Examples.nodeAt "a.ts" "p" None in
  let c1 := Examples.nodeAt "a.ts" "c1" (Some "p") in
  let c2 := Examples.nodeAt "a.ts" "c2" (Some "p") in
  let cache : gmap string string := {[ "a.ts" := "import b" ]} in
  let s := Examples.indexer Examples.emptyGraph None in
  childrenOf [P; c1; c2] "p" = [c1; c2]
  ∧ readable w c1
  ∧ ∃ codeBlock,
      skeletonizeCodeNodes w [P; c1; c2] s
      = (Ok [Examples.generate c2 "import b"; Examples.generate P codeBlock],
         set_trace
           [EvGetTextDocument "a.ts";
            EvSkeletonizeCodeGraphNode "a.ts" c1 "import b" cache [];
            EvSkeletonizeCodeGraphNode "a.ts" c2 "import b" cache [];
            EvSkeletonizeCodeGraphNode "a.ts" P codeBlock cache []] s)
      ∧ codeBlock
        = mergeCodeNodeSummariesIntoParent w (node_location P) "import b"
            ["c1"; "c2"] [Examples.generate c2 "import b"].
Proof.
  intros w P c1 c2 cache s. split; [by vm_compute|]. split; [by eexists|].
  eexists. split; [vm_compute; reflexivity|]. by vm_compute.
Qed.

(** C6 (as the code has it): a node is a root when its [parentNodeId] is
    falsy; the nodes skeletonized are the roots and the nodes below them
    along parent ids.  When [skeletonizeCodeNodes] returns, the generator was
    called for every such node with a readable document, the result is the
    skeletons those calls answered, and no other node is skeletonized: in
    particular not a node whose non-empty [parentNodeId] names no node of
    the set. *)
Theorem skeletonizeCodeNodes_reachable_only w nodes s result s' :
  skeletonizeCodeNodes w nodes s = (Ok result, s') →
  ∃ t, trace s' = trace s ++ t
       ∧ result = generatedBy w t
       ∧ (∀ n, reachable nodes n → readable w n → generatesFor n t)
       ∧ (∀ n, generatesFor n t → reachable nodes n)
       ∧ (∀ n p, n ∈ nodes → node_parentNodeId n = Some p → p ≠ EmptyString →
                 (∀ m, m ∈ nodes → node_id m ≠ p) → ¬ generatesFor n t).
Proof.
  intros Hrun.
  pose proof (wp_run _ _ _ _ _ (skeletonizeCodeNodes_spec w nodes s) Hrun)
    as (t & -> & _ & _ & Honly & -> & Hall).
  exists t. split; [done|]. split; [done|]. split; [done|]. split; [done|].
  intros n p Hin Hp Hne Horphan Hgen.
  destruct (reachable_inv nodes n (Honly n Hgen)) as [_ [Ht|(Q & HQ & _ & HpQ)]].
  - rewrite Hp in Ht. simpl in Ht. by rewrite bool_decide_eq_false_2 in Ht.
  - apply (Horphan Q HQ). congruence.
Qed.

Lemma skeletonizeCodeNodes_reachable_only_witness :
  let w := Examples.worldAB [] None in
  let nodes := [Examples.nodeAt "a.ts" "p" None;
                Examples.nodeAt "a.ts" "c1" (Some "p");
                Examples.nodeAt "a.ts" "o" (Some "ghost")] in
  let run := skeletonizeCodeNodes w nodes (Examples.indexer Examples.emptyGraph None) in
  ∃ t, trace run.2 = [] ++ t
       ∧ run.1 = Ok (generatedBy w t)
       ∧ (∀ n, reachable nodes n → readable w n → generatesFor n t)
       ∧ (∀ n, generatesFor n t → reachable nodes n)
       ∧ (∀ n p, n ∈ nodes → node_parentNodeId n = Some p → p ≠ EmptyString →
                 (∀ m, m ∈ nodes → node_id m ≠ p) → ¬ generatesFor n t).
Proof.
  intros w nodes run.
  destruct run as [r s'] eqn:Hrun.
  assert (∃ result, r = Ok result) as [result ->].
  { subst run. vm_compute in Hrun. injection Hrun as <- _. by eexists. }
  destruct (skeletonizeCodeNodes_reachable_only w nodes
              (Examples.indexer Examples.emptyGraph None) result s' Hrun)
    as (t & Ht & -> & H).
  by exists t.
Defined.

(** C6, the claim as stated fails: a node whose [parentNodeId] names no node
    of the set is not treated as a root.  Its document is readable and the
    generator would answer a skeleton, yet the generator is never called and
    the result is empty. *)
Lemma skeletonizeCodeNodes_orphan_counterexample :
  let w := Examples.worldAB [] None in
  let n := Examples.nodeAt "a.ts" "o" (Some "ghost") in
  let s := Examples.indexer Examples.emptyGraph None in
  readable w n
  ∧ (∀ m, m ∈ [n] → node_id m ≠ "ghost")
  ∧ (∀ filePath codeBlock cache related,
       skeletonizeCodeGraphNode w filePath n codeBlock cache related
       = Generated (Examples.generate n codeBlock))
  ∧ skeletonizeCodeNodes w [n] s = (Ok [], s).
Proof.
  intros w n s. split; [by eexists|]. split.
  - intros m ->%list_elem_of_singleton. discriminate.
  - split; [done|]. vm_compute. reflexivity.
Qed.

(** ** Quiet steps *)

Lemma wp_conj {A} (m : M A) (Q1 Q2 : Res A → State → Prop) s :
  wp m Q1 s → wp m Q2 s → wp m (λ r s', Q1 r s' ∧ Q2 r s') s.
Proof. unfold wp. auto. Qed.

Lemma quiet_refl w s : quiet w s s.
Proof. repeat split; try done. exists []. by rewrite app_nil_r. Qed.

Lemma quiet_trans w s1 s2 s3 : quiet w s1 s2 → quiet w s2 s3 → quiet w s1 s3.
Proof.
  intros (?&?&?&?&?&?&?&?& t1 & Ht1 & Hq1) (?&?&?&?&?&?&?&?& t2 & Ht2 & Hq2).
  repeat split; try congruence.
  exists (t1 ++ t2). split; [by rewrite Ht2, Ht1, app_assoc|by apply Forall_app].
Qed.

Lemma quiet_emit w s e : isQuiet e → quiet w s (set_trace (trace s ++ [e]) s).
Proof. intros He. repeat split; try done. exists [e]. by repeat constructor. Qed.

Lemma quiet_set_trace w s t :
  Forall isQuiet t → quiet w s (set_trace (trace s ++ t) s).
Proof. intros Ht. repeat split; try done. by exists t. Qed.

Lemma countSaves_app t1 t2 : countSaves (t1 ++ t2) = countSaves t1 + countSaves t2.
Proof. unfold countSaves. by rewrite filter_app, length_app. Qed.

Lemma countSaves_quiet t : Forall isQuiet t → countSaves t = 0.
Proof.
  unfold countSaves. induction 1 as [|e t He _ IH]; [done|].
  rewrite filter_cons_False; [done|]. by destruct e.
Qed.

Lemma settled_same w F s s' :
  workspace s' = workspace s → symbolTable (codeGraph s') = symbolTable (codeGraph s) →
  settled w F s → settled w F s'.
Proof.
  intros Hws Hst ((p & text & e & ? & ? & ? & ?) & Hd & Ho).
  repeat split; [|by rewrite Hws|done].
  exists p, text, e. by rewrite Hws, Hst.
Qed.

Lemma passRel_refl w n s : passRel w n s s.
Proof.
  split; [done|]. exists []. rewrite app_nil_r. split; [done|].
  split; [unfold countSaves; simpl; lia|]. intros F HF. split; [done|].
  apply not_elem_of_nil.
Qed.

Lemma passRel_trans w n1 n2 s1 s2 s3 :
  passRel w n1 s1 s2 → passRel w n2 s2 s3 → passRel w (n1 + n2) s1 s3.
Proof.
  intros (Hw1 & t1 & Ht1 & Hn1 & H1) (Hw2 & t2 & Ht2 & Hn2 & H2).
  split; [congruence|]. exists (t1 ++ t2).
  split; [by rewrite Ht2, Ht1, app_assoc|].
  split; [rewrite countSaves_app; lia|].
  intros F HF. destruct (H1 F HF) as [HF1 Hno1]. destruct (H2 F HF1) as [HF2 Hno2].
  split; [done|]. rewrite elem_of_app. tauto.
Qed.

Lemma passRel_weaken w n m s s' : n ≤ m → passRel w n s s' → passRel w m s s'.
Proof.
  intros Hle (Hw & t & Ht & Hn & H). split; [done|]. exists t.
  split; [done|]. split; [lia|done].
Qed.

Lemma quiet_passRel w s s' : quiet w s s' → passRel w 0 s s'.
Proof.
  intros (Hw & _ & _ & Hg & _ & _ & _ & _ & t & Ht & Hq).
  split; [done|]. exists t. split; [done|].
  split; [by rewrite countSaves_quiet|].
  intros F HF. split; [apply (settled_same w F s); [done|by rewrite Hg|done]|].
  intros Hin. rewrite Forall_forall in Hq. by apply Hq in Hin.
Qed.

(** ** Silent computations *)

Lemma silent_wp {A} (m : M A) (Q : Res A → State → Prop) s :
  silent m → (∀ r, r ≠ Diverges → Q r s) → wp m Q s.
Proof. intros Hm HQ. unfold wp. destruct (Hm s) as [-> ?]. by apply HQ. Qed.

Lemma silent_ret {A} (a : A) : silent (mret a).
Proof. by intros s. Qed.

Lemma silent_gets {A} (f : State → A) : silent (gets f).
Proof. by intros s. Qed.

Lemma silent_throw {A} e : silent (throw e : M A).
Proof. by intros s. Qed.

Lemma silent_bind {A B} (m : M A) (k : A → M B) :
  silent m → (∀ a, silent (k a)) → silent (m ≫= k).
Proof.
  intros Hm Hk s. change ((m ≫= k) s) with (M_bind _ _ k m s). unfold M_bind.
  destruct (Hm s) as [Hs Hr]. destruct (m s) as [[a|e|] s']; simpl in *; subst.
  - apply Hk.
  - done.
  - done.
Qed.

Lemma silent_pathOfUrl w u : silent (pathOfUrl w u).
Proof. unfold pathOfUrl. destruct (fileURLToPath w u); [apply silent_ret|apply silent_throw]. Qed.

Lemma silent_mapM {A B} (f : A → M B) l : (∀ x, silent (f x)) → silent (mapM f l).
Proof.
  intros Hf. induction l as [|x l IH]; simpl; [apply silent_ret|].
  apply silent_bind; [done|]. intros y. apply silent_bind; [done|].
  intros ys. apply silent_ret.
Qed.

Lemma silent_convertNodeId w id : silent (convertNodeId w id).
Proof.
  unfold convertNodeId. destruct (String.prefix _ _); [|apply silent_ret].
  apply silent_bind; [apply silent_pathOfUrl|]. intros p.
  apply silent_bind; [apply silent_gets|]. intros ws. apply silent_ret.
Qed.

Lemma silent_relativeEdges w edges : silent (relativeEdges w edges).
Proof.
  unfold relativeEdges. apply silent_mapM. intros [key value].
  apply silent_bind; [apply silent_convertNodeId|]. intros k.
  apply silent_bind; [apply silent_mapM, silent_convertNodeId|]. intros vs.
  apply silent_ret.
Qed.

Lemma silent_embedCodeGraph w skeletonNodes : silent (embedCodeGraph w skeletonNodes).
Proof.
  unfold embedCodeGraph. apply silent_bind.
  - apply silent_mapM. intros sk.
    apply silent_bind; [apply silent_gets|]. intros g.
    apply silent_bind; [apply silent_gets|]. intros ws.
    apply silent_bind; [|intros; apply silent_ret].
    apply silent_mapM. intros nodeId.
    apply silent_bind; [apply silent_pathOfUrl|]. intros; apply silent_ret.
  - intros docs. apply silent_bind; [apply silent_gets|]. intros g.
    apply silent_bind; [apply silent_relativeEdges|]. intros imports.
    apply silent_bind; [apply silent_relativeEdges|]. intros exports.
    apply silent_ret.
Qed.

(** ** The leaves of a pass *)

Lemma getFileFromSymbolTable_spec w d s :
  wp (getFileFromSymbolTable w d)
    (λ r s',
       s' = set_trace (trace s ++ [EvGetTextDocument d]) s
       ∧ match r with
         | Ok (file, rel, hash) =>
             ∃ p text,
               fileURLToPath w d = Some p
               ∧ textDocuments w !! d = Some text
               ∧ rel = relative w (workspace s) p
               ∧ hash = sha256hex w text
               ∧ file = symbolTable (codeGraph s) !! rel
         | Throw _ => ¬ (is_Some (textDocuments w !! d)
                         ∧ is_Some (fileURLToPath w d))
         | Diverges => False
         end) s.
Proof.
  unfold getFileFromSymbolTable. wp_run.
  destruct (textDocuments w !! d) as [text|]; wp_run.
  - destruct (fileURLToPath w d) as [p|]; wp_run.
    + split; [done|]. by exists p, text.
    + intros e. split; [done|]. by intros [_ [? ?]].
  - split; [done|]. by intros [[? ?] _].
Qed.

Lemma shouldIncludeFile_spec w rel s :
  wp (shouldIncludeFile w rel)
    (λ r s', quiet w s s' ∧ r = Ok (bool_decide (rel ∈ matchedSet w s))) s.
Proof.
  unfold shouldIncludeFile, matchedSet. wp_run.
  destruct (matchedFilesCache s) as [c|] eqn:Hc; wp_run.
  - split; [apply quiet_refl|done].
  - split; [|done]. repeat split; try done.
    + unfold matchedSet. st_simpl. by rewrite Hc.
    + eexists [_]. split; [done|]. by repeat constructor.
Qed.

Lemma size_difference_add (D S : gset string) (x : string) :
  x ∈ D → x ∉ S → size (D ∖ S) = 1 + size (D ∖ (S ∪ {[x]})).
Proof.
  intros HD HS.
  assert (D ∖ S = {[x]} ∪ D ∖ (S ∪ {[x]})) as ->.
  { apply set_eq. intros y. destruct (decide (y = x)) as [->|]; set_solver. }
  rewrite size_union by set_solver. by rewrite size_singleton.
Qed.

Lemma potential_set_add w x rel :
  x ∈ dom (textDocuments w) → potential w (set_add x rel) = potential w rel.
Proof.
  intros Hx. unfold set_add. case_decide as Hin; [done|]. unfold potential.
  rewrite length_app, list_to_set_app_L. simpl.
  rewrite (size_difference_add _ (list_to_set rel) x);
    [|done|by rewrite elem_of_list_to_set].
  rewrite union_empty_r_L. lia.
Qed.

Lemma map_set_fst {V} k (v : V) m :
  (map_set k v m).*1 = if decide (k ∈ m.*1) then m.*1 else m.*1 ++ [k].
Proof.
  induction m as [|[k' v'] m IH]; [done|]. cbn [map_set].
  destruct (decide (k = k')) as [->|Hne]; rewrite !fmap_cons; cbn [fst].
  - by rewrite decide_True by (by left).
  - rewrite IH. destruct (decide (k ∈ m.*1)) as [Hin|Hnin].
    + by rewrite decide_True by (by right).
    + rewrite decide_False; [done|]. intros [?|?]%elem_of_cons; done.
Qed.

Lemma map_set_elem {V} k (v : V) m k' v' :
  (k', v') ∈ map_set k v m → (k', v') = (k, v) ∨ (k', v') ∈ m.
Proof.
  induction m as [|[k0 v0] m IH]; simpl.
  - intros ->%list_elem_of_singleton. by left.
  - destruct (decide (k = k0)) as [->|Hne].
    + intros [->|?]%elem_of_cons; [by left|right; by right].
    + intros [->|Hin]%elem_of_cons; [right; by left|].
      destruct (IH Hin) as [?|?]; [by left|right; by right].
Qed.

Lemma keyed_map_set m n : keyed m → keyed (map_set (node_id n) n m).
Proof.
  intros [Hnd Hk]. split.
  - rewrite map_set_fst. case_decide; [done|].
    apply NoDup_app. split; [done|]. split; [|apply NoDup_singleton].
    intros x Hx ->%list_elem_of_singleton. done.
  - intros k v [[= -> ->]|Hin]%map_set_elem; [done|by apply Hk].
Qed.

Lemma keyed_ids m : keyed m → NoDup (node_id <$> m.*2).
Proof.
  intros [Hnd Hk].
  assert (node_id <$> m.*2 = m.*1) as ->; [|done].
  clear Hnd. induction m as [|[k v] m IH]; [done|]. simpl. f_equal.
  - symmetry. apply Hk. by left.
  - apply IH. intros k' v' Hin. apply Hk. by right.
Qed.

Lemma wanted_quiet w s s' u : quiet w s s' → wanted w s' u = wanted w s u.
Proof.
  intros (Hw & _ & _ & Hg & Hh & _ & _ & Hm & _). unfold wanted.
  by rewrite Hw, Hg, Hh, Hm.
Qed.

Lemma wanted_readable w s u : wanted w s u = true → u ∈ dom (textDocuments w).
Proof.
  unfold wanted. destruct (fileURLToPath w u); [|done].
  destruct (textDocuments w !! u) eqn:H; [|done]. intros _.
  apply elem_of_dom. by eexists.
Qed.

Lemma scanNode_spec w d l n s :
  wp (scanNode w d l n)
    (λ r s',
       quiet w s s'
       ∧ match r with
         | Ok l' =>
             relatedNodes l'
             = expandFrontier w s d [n] (relatedNodes l)
             ∧ (keyed (nodesToProcess l) → keyed (nodesToProcess l'))
         | Throw _ => ¬ scannable w d n
         | Diverges => False
         end) s.
Proof.
  unfold scanNode, expandFrontier, scannable. simpl.
  destruct (decide (uri (node_location n) ≠ d)) as [Hne|Heq].
  - rewrite bool_decide_eq_true_2 by done. simpl.
    apply wp_bind. eapply wp_mono; [apply getFileFromSymbolTable_spec|].
    intros [[[file rel] hash]|e|] s1 [-> Hr]; simpl;
      [|by split; [apply quiet_emit|]|done].
    destruct Hr as (p & text & Hp & Htext & -> & -> & ->).
    assert (quiet w s (set_trace (trace s ++ [EvGetTextDocument (uri (node_location n))]) s))
      as Hq1 by by apply quiet_emit.
    apply wp_bind. eapply wp_mono; [apply shouldIncludeFile_spec|].
    intros r2 s2 [Hq2 ->]. simpl.
    pose proof (quiet_trans _ _ _ _ Hq1 Hq2) as Hq.
    unfold wanted. rewrite Hp, Htext. st_simpl.
    destruct Hq as (Hw & Hi & Hsy & Hg & Hh & Hv & Hf & Hm & Ht).
    assert (quiet w s s2) as Hq by (repeat split; done).
    replace (matchedSet w (set_trace (trace s ++ [EvGetTextDocument (uri (node_location n))]) s))
      with (matchedSet w s) by done.
    destruct (bool_decide (_ ∈ matchedSet w s)); simpl; wp_run.
    + rewrite Hh. destruct (alreadyIndexed _ _ _); simpl; wp_run; by split.
    + by split.
  - rewrite bool_decide_eq_false_2 by done. simpl. wp_run.
    destruct (fileURLToPath w (node_id n)) as [p|]; wp_run.
    + split; [apply quiet_refl|]. split; [done|]. apply keyed_map_set.
    + intros e. split; [apply quiet_refl|]. by intros [? ?].
Qed.

Lemma expandFrontier_quiet w s s' d nodes rel :
  quiet w s s' → expandFrontier w s' d nodes rel = expandFrontier w s d nodes rel.
Proof.
  intros Hq. revert rel. induction nodes as [|n nodes IH]; intros rel; [done|].
  simpl. rewrite (wanted_quiet w s s') by done. apply IH.
Qed.

Lemma expandFrontier_potential w s d nodes rel :
  potential w (expandFrontier w s d nodes rel) = potential w rel.
Proof.
  revert rel. induction nodes as [|n nodes IH]; intros rel; [done|].
  simpl. rewrite IH.
  destruct (bool_decide (uri (node_location n) ≠ d)); [|done]. simpl.
  destruct (wanted w s (uri (node_location n))) eqn:Hw; [|done].
  apply potential_set_add. by eapply wanted_readable.
Qed.

Lemma scanNodes_spec w d nodes :
  ∀ l s,
    wp (foldM (scanNode w d) l nodes)
      (λ r s',
         quiet w s s'
         ∧ match r with
           | Ok l' =>
               relatedNodes l' = expandFrontier w s d nodes (relatedNodes l)
               ∧ (keyed (nodesToProcess l) → keyed (nodesToProcess l'))
           | Throw _ => ¬ Forall (scannable w d) nodes
           | Diverges => False
           end) s.
Proof.
  induction nodes as [|n nodes IH]; intros l s; simpl.
  - apply wp_ret. split; [apply quiet_refl|done].
  - apply wp_bind. eapply wp_mono; [apply scanNode_spec|].
    intros [l1|e|] s1 [Hq1 Hr1]; simpl; [| |done].
    + eapply wp_mono; [apply IH|]. intros r s2 [Hq2 Hr2].
      split; [by eapply quiet_trans|].
      destruct r as [l2|e|]; [| |done].
      * destruct Hr1 as [Hrel1 Hk1], Hr2 as [Hrel2 Hk2]. split; [|auto].
        rewrite Hrel2, Hrel1. by rewrite (expandFrontier_quiet w s s1).
      * intros Hall. apply Hr2. by apply Forall_cons in Hall as [_ ?].
    + split; [done|]. intros Hall. apply Hr1. by apply Forall_cons in Hall as [? _].
Qed.

Lemma isSkeletonizerEvent_quiet t : Forall isSkeletonizerEvent t → Forall isQuiet t.
Proof. intros H. eapply Forall_impl; [exact H|]. by intros []. Qed.

Lemma skeletonizeCodeNodes_quiet w nodes s :
  wp (skeletonizeCodeNodes w nodes)
    (λ r s', quiet w s s' ∧ (NoDup (node_id <$> nodes) → r ≠ Diverges)) s.
Proof.
  destruct (decide (NoDup (node_id <$> nodes))) as [Hnd|Hnd].
  - eapply wp_mono.
    + apply wp_conj; [apply skeletonizeCodeNodes_spec|
                      by apply skeletonizeCodeNodes_total].
    + intros r s' [(t & -> & Hev & _) Hr]. split; [|done].
      by apply quiet_set_trace, isSkeletonizerEvent_quiet.
  - eapply wp_mono; [apply skeletonizeCodeNodes_spec|].
    intros r s' (t & -> & Hev & _). split; [|done].
    by apply quiet_set_trace, isSkeletonizerEvent_quiet.
Qed.

Lemma persisted_passRel w s s' : persisted s s' → passRel w 1 s s'.
Proof.
  intros (Hw & Hg & t & Ht & Hev & Hn). split; [done|]. exists t.
  split; [done|]. split; [done|]. intros F HF.
  split; [apply (settled_same w F s); [done|by rewrite Hg|done]|].
  intros Hin. rewrite Forall_forall in Hev. by destruct (Hev _ Hin).
Qed.

Lemma quiet_persisted w s s' : quiet w s s' → persisted s s'.
Proof.
  intros (Hw & _ & _ & Hg & _ & _ & _ & _ & t & Ht & Hq).
  split; [done|]. split; [done|]. exists t. split; [done|].
  split; [eapply Forall_impl; [done|]; by left|]. rewrite countSaves_quiet; [lia|done].
Qed.

Lemma persistNodes_spec w fullBuild m s :
  wp (persistNodes w fullBuild m)
    (λ r s', persisted s s' ∧ (keyed m → r ≠ Diverges)) s.
Proof.
  unfold persistNodes. destruct m as [|kn m].
  { apply wp_ret. split; [apply (quiet_persisted w), quiet_refl|done]. }
  apply wp_bind. eapply wp_mono; [apply skeletonizeCodeNodes_quiet|].
  intros r s1 [Hq Hr].
  destruct r as [sks|e|]; simpl;
    [|by split; [apply (quiet_persisted w)|]
     |split; [by apply (quiet_persisted w)|]; intros Hk;
      by destruct (Hr (keyed_ids _ Hk))].
  destruct sks as [|sk sks].
  { apply wp_ret. by split; [apply (quiet_persisted w)|]. }
  apply wp_bind. apply silent_wp; [apply silent_embedCodeGraph|].
  intros r2 Hr2. destruct r2 as [[result|]|e|]; simpl;
    [| |by split; [apply (quiet_persisted w)|]|done].
  - wp_run.
    destruct Hq as (Hw & _ & _ & Hg & _ & _ & _ & _ & t & Ht & Hqt).
    assert (persisted s (set_trace (trace s1 ++ [EvSave
              (mkSaveArgs (codeDocs result) (relativeImports result)
                 (relativeExports result) (symbolTable (codeGraph s1))
                 (negb fullBuild))]) s1)) as Hp.
    { split; [done|]. split; [done|]. eexists (t ++ [_]). st_simpl.
      split; [by rewrite Ht, app_assoc|]. split.
      - apply Forall_app. split; [eapply Forall_impl; [done|]; by left|].
        apply Forall_singleton. by right.
      - rewrite countSaves_app, countSaves_quiet by done. unfold countSaves.
        simpl. lia. }
    destruct (save w (trace s1) _); simpl; wp_run; by split.
  - wp_run. split; [|done].
    destruct (quiet_persisted w _ _ Hq) as (Hw & Hg & Ht). by repeat split.
Qed.

(** ** The loops of a pass *)

Lemma alreadyIndexed_current e h hash :
  sha e = hash → alreadyIndexed (Some e) h hash = true.
Proof. intros <-. unfold alreadyIndexed. by rewrite bool_decide_eq_true_2. Qed.

(** A document found stale is not one of the settled files, and does not
    share its relative path with one. *)
Lemma stale_not_settled w s d p text h F pF :
  fileURLToPath w d = Some p →
  textDocuments w !! d = Some text →
  alreadyIndexed (symbolTable (codeGraph s) !! relative w (workspace s) p) h
    (sha256hex w text) = false →
  settled w F s →
  fileURLToPath w F = Some pF →
  relative w (workspace s) pF ≠ relative w (workspace s) p.
Proof.
  intros Hp Htext Hstale ((pF' & textF & e & HpF & HtF & He & Hsha) & Hd & _) HpF2 Heq.
  assert (pF' = pF) as -> by congruence.
  assert (d = F) as -> by (by eapply Hd).
  assert (p = pF) as -> by congruence. assert (text = textF) as -> by congruence.
  rewrite He in Hstale. by rewrite alreadyIndexed_current in Hstale.
Qed.


Lemma passRel_visit w s s' t d :
  workspace s' = workspace s →
  trace s' = trace s ++ t →
  Forall (visitEvent d) t →
  (∀ F, settled w F s → settled w F s') →
  (EvCreateNodesFromDocument d ∈ t → ¬ settled w d s) →
  passRel w 0 s s'.
Proof.
  intros Hw Ht Hev Hset Hd. split; [done|]. exists t. split; [done|]. split.
  - unfold countSaves. clear Ht Hd. induction Hev as [|e t He _ IH]; [done|].
    rewrite filter_cons_False; [done|].
    destruct He as [He|[[rel ->]| ->]]; [by destruct e|done..].
  - intros F HF. split; [by apply Hset|]. intros Hin.
    rewrite Forall_forall in Hev. destruct (Hev _ Hin) as [[]|[[? [=]]|[= ->]]].
    by apply Hd.
Qed.

Lemma passRel_visit_same w s s' t d :
  workspace s' = workspace s →
  symbolTable (codeGraph s') = symbolTable (codeGraph s) →
  trace s' = trace s ++ t →
  Forall (visitEvent d) t →
  (EvCreateNodesFromDocument d ∈ t → ¬ settled w d s) →
  passRel w 0 s s'.
Proof.
  intros Hw Hg Ht Hev Hd. apply (passRel_visit w s s' t d); try done.
  intros F HF. by apply (settled_same w F s).
Qed.

Lemma visitDocument_pass w d l s :
  wp (visitDocument w d l)
    (λ r s',
       passRel w 0 s s'
       ∧ match r with
         | Ok (Next l') =>
             potential w (relatedNodes l') = potential w (relatedNodes l)
             ∧ (keyed (nodesToProcess l) → keyed (nodesToProcess l'))
         | Ok Return | Throw _ => True
         | Diverges => False
         end) s.
Proof.
  unfold visitDocument. wp_run.
  destruct (decide (d ∈ alreadyVisited s)) as [Hv|Hv]; wp_run.
  { split; [apply passRel_refl|done]. }
  assert (Forall (visitEvent d) [EvGetTextDocument d]) as Hread.
  { apply Forall_singleton. by left. }
  assert (EvCreateNodesFromDocument d ∈ [EvGetTextDocument d] → ¬ settled w d s)
    as Hread'.
  { by intros [=]%list_elem_of_singleton. }
  eapply wp_mono; [apply getFileFromSymbolTable_spec|].
  intros [[[file rel] hash]|e|] s1 [-> Hr]; simpl; [| |done].
  2:{ split; [|done].
      by apply (passRel_visit_same w s _ [EvGetTextDocument d] d). }
  destruct Hr as (p & text & Hp & Htext & -> & -> & ->). wp_run.
  destruct (alreadyIndexed _ _ _) eqn:Hstale; wp_run.
  { split; [|done].
    by apply (passRel_visit_same w s _ [EvGetTextDocument d] d). }
  assert (¬ settled w d s) as Hnot.
  { intros HF. by apply (stale_not_settled w s d p text _ d p Hp Htext Hstale HF). }
  rewrite Htext. wp_run.
  set (pre := [EvGetTextDocument d; EvOnFileProcessing (relative w (workspace s) p);
               EvGetTextDocument d; EvCreateNodesFromDocument d]).
  assert (Forall (visitEvent d) pre) as Hpre.
  { apply Forall_cons_2; [by left|].
    apply Forall_cons_2; [right; left; by eexists|].
    apply Forall_cons_2; [by left|].
    apply Forall_cons_2; [by right; right|]. apply Forall_nil_2. }
  assert (∀ s', workspace s' = workspace s →
                symbolTable (codeGraph s') = symbolTable (codeGraph s) →
                trace s' = (((trace s ++ [EvGetTextDocument d])
                    ++ [EvOnFileProcessing (relative w (workspace s) p)])
                    ++ [EvGetTextDocument d]) ++ [EvCreateNodesFromDocument d] →
                passRel w 0 s s') as Hstop.
  { intros s' Hw Hg Ht. apply (passRel_visit_same w s s' pre d); try done.
    rewrite Ht. by rewrite <- !app_assoc. }
  destruct (createNodesFromDocument w d text) as [e| |nodes imports exports];
    wp_run.
  - split; [|done]. by apply Hstop.
  - split; [|done]. by apply Hstop.
  - destruct nodes as [|n nodes]; wp_run.
    { split; [|done]. by apply Hstop. }
    eapply wp_mono; [apply scanNodes_spec|].
    intros r s3 [Hq Hr].
    destruct Hq as (Hw3 & _ & _ & Hg3 & _ & _ & _ & _ & t3 & Ht3 & Hq3).
    st_simpl_in Hw3. st_simpl_in Hg3. st_simpl_in Ht3.
    assert (Forall (visitEvent d) (pre ++ t3)) as Hev.
    { apply Forall_app. split; [done|]. eapply Forall_impl; [done|]. by left. }
    assert (trace s3 = trace s ++ pre ++ t3) as Htr.
    { rewrite Ht3. by rewrite <- !app_assoc. }
    destruct r as [l'|e|]; simpl; [| |done].
    + wp_run. split.
      * apply (passRel_visit w s _ (pre ++ t3) d); [done|done|done| |done].
        intros F HF.
        pose proof HF as ((pF & textF & eF & HpF & HtF & HeF & Hsha) & Hd & Ho).
        split; [|split; [st_simpl; by rewrite Hw3|done]].
        exists pF, textF, eF. split; [done|]. split; [done|]. split; [|done].
        st_simpl. unfold Graph.updateFileWithEdges. cbn [symbolTable].
        rewrite lookup_insert_ne, Hw3, Hg3; [done|]. intros Heq.
        rewrite Hw3 in Heq.
        by apply (stale_not_settled w s d p text _ F pF Hp Htext Hstale HF HpF).
      * destruct Hr as [Hrel Hk]. split; [|done].
        rewrite Hrel. apply expandFrontier_potential.
    + split; [|done].
      by apply (passRel_visit_same w s _ (pre ++ t3) d); [|rewrite Hg3|..].
Qed.

Lemma frontierLoop_pass w :
  ∀ fuel i l s,
    potential w (relatedNodes l) ≤ fuel + i →
    wp (frontierLoop w fuel i l)
      (λ r s',
         passRel w 0 s s'
         ∧ match r with
           | Ok (Next l') => keyed (nodesToProcess l) → keyed (nodesToProcess l')
           | Ok Return | Throw _ => True
           | Diverges => False
           end) s.
Proof.
  induction fuel as [|fuel IH]; intros i l s Hpot.
  - simpl. destruct (relatedNodes l !! i) as [d|] eqn:Hd.
    + apply lookup_lt_Some in Hd. unfold potential in Hpot. lia.
    + apply wp_ret. split; [apply passRel_refl|done].
  - simpl. destruct (relatedNodes l !! i) as [d|] eqn:Hd.
    + apply wp_bind. eapply wp_mono; [apply visitDocument_pass|].
      intros [[l'|]|e|] s1 [Hp Hr]; simpl; [| |done|done].
      * destruct Hr as [Hpot' Hk]. eapply wp_mono; [apply IH; lia|].
        intros r s2 [Hp2 Hr2]. split; [by apply (passRel_trans w 0 0 s s1 s2)|].
        destruct r as [[l2|]|e|]; auto.
      * by apply wp_ret.
    + apply wp_ret. split; [apply passRel_refl|done].
Qed.

Lemma potential_initial w d : potential w [d] ≤ S (size (textDocuments w)).
Proof.
  unfold potential. simpl. rewrite <- (size_dom (D:=gset string)).
  pose proof (subseteq_size
                (dom (textDocuments w) ∖ ({[d]} ∪ ∅ : gset string))
                (dom (textDocuments w))) as H.
  specialize (H ltac:(set_solver)). lia.
Qed.

Lemma keyed_nil : keyed [].
Proof. split; [constructor|]. intros k n H. by apply elem_of_nil in H. Qed.

Lemma passRel_harmless w s s' t :
  workspace s' = workspace s →
  trace s' = trace s ++ t →
  Forall harmless t →
  (∀ F, settled w F s → settled w F s') →
  passRel w 0 s s'.
Proof.
  intros Hw Ht Hev Hset. split; [done|]. exists t. split; [done|]. split.
  - unfold countSaves. clear Ht. induction Hev as [|e t He _ IH]; [done|].
    rewrite filter_cons_False; [done|]. by destruct e.
  - intros F HF. split; [by apply Hset|]. intros Hin.
    rewrite Forall_forall in Hev. by apply Hev in Hin.
Qed.

Lemma passRel_harmless_same w s s' t :
  workspace s' = workspace s →
  symbolTable (codeGraph s') = symbolTable (codeGraph s) →
  trace s' = trace s ++ t →
  Forall harmless t →
  passRel w 0 s s'.
Proof.
  intros Hw Hg Ht Hev. apply (passRel_harmless w s s' t); try done.
  intros F HF. by apply (settled_same w F s).
Qed.

(** The removal of a file that is gone leaves the settled files alone. *)
Lemma settled_remove w s s' d p F :
  fileURLToPath w d = Some p →
  existsSync w p = false →
  workspace s' = workspace s →
  symbolTable (codeGraph s')
  = delete (relative w (workspace s) p) (symbolTable (codeGraph s)) →
  settled w F s → settled w F s'.
Proof.
  intros Hp Hex Hw Hg HF.
  pose proof HF as ((pF & textF & eF & HpF & HtF & HeF & Hsha) & Hd & Ho).
  split; [|split; [by rewrite Hw|done]].
  exists pF, textF, eF. split; [done|]. split; [done|]. split; [|done].
  rewrite Hg, Hw, lookup_delete_ne; [done|]. intros Heq.
  assert (d = F) as -> by (by eapply Hd).
  assert (p = pF) as -> by congruence.
  rewrite (Ho pF HpF) in Hex. done.
Qed.

Lemma processDocument_pass w fullBuild d s :
  wp (processDocument w fullBuild d)
    (λ r s', passRel w 1 s s' ∧ r ≠ Diverges) s.
Proof.
  unfold processDocument. wp_run.
  destruct (decide (d ∈ alreadyVisited s)); wp_run.
  { split; [apply passRel_refl|done]. }
  destruct (fileURLToPath w d) as [p|] eqn:Hp.
  2:{ intros e. split; [apply passRel_refl|done]. }
  wp_run.
  assert (passRel w 0 s (set_trace (trace s ++ [EvExistsSync p]) s)) as Hp0.
  { apply (passRel_harmless_same w s _ [EvExistsSync p]); try done.
    by apply Forall_singleton. }
  destruct (existsSync w p) eqn:Hex; simpl negb; wp_run.
  - eapply wp_mono.
    { apply frontierLoop_pass. rewrite Nat.add_0_r. apply potential_initial. }
    intros r s1 [Hp1 Hr1].
    pose proof (passRel_trans w 0 0 _ _ _ Hp0 Hp1) as Hp01.
    destruct r as [[l|]|e|]; simpl; [| | |done].
    + eapply wp_mono; [apply persistNodes_spec|].
      intros r2 s2 [Hp2 Hr2]. split.
      * apply (passRel_trans w 0 1 s s1 s2); [done|by apply persisted_passRel].
      * apply Hr2, Hr1, keyed_nil.
    + apply wp_ret. split; [apply (passRel_weaken w 0); [lia|done]|done].
    + split; [apply (passRel_weaken w 0); [lia|done]|done].
  - set (rel := relative w (workspace s) p).
    destruct (findDocumentsByPath w _ [rel]) as [e|docs]; simpl.
    { split; [|done]. apply (passRel_weaken w 0); [lia|].
      apply (passRel_harmless_same w s _ [EvExistsSync p; EvFindDocumentsByPath [rel]]);
        try done.
      - st_simpl. by rewrite <- app_assoc.
      - by repeat apply Forall_cons_2. }
    assert (∀ s' t, workspace s' = workspace s →
                    symbolTable (codeGraph s')
                    = delete rel (symbolTable (codeGraph s)) →
                    trace s' = trace s ++ t → Forall harmless t →
                    passRel w 1 s s') as Hdone.
    { intros s' t Hw Hg Ht Hev. apply (passRel_weaken w 0); [lia|].
      apply (passRel_harmless w s s' t); try done.
      intros F HF. by apply (settled_remove w s s' d p F). }
    destruct docs as [|doc docs]; wp_run.
    + split; [|done].
      apply (Hdone _ [EvExistsSync p; EvFindDocumentsByPath [rel]; EvOnFileRemoved p]);
        try done.
      * st_simpl. by rewrite <- !app_assoc.
      * by repeat apply Forall_cons_2.
    + destruct (deleteDocuments w _ _) as [e|]; simpl orThrow; wp_run.
      * split; [|done]. apply (passRel_weaken w 0); [lia|].
        apply (passRel_harmless_same w s _
                 [EvExistsSync p; EvFindDocumentsByPath [rel];
                  EvDeleteDocuments (doc_id <$> doc :: docs)]); try done.
        -- st_simpl. by rewrite <- !app_assoc.
        -- by repeat apply Forall_cons_2.
      * split; [|done].
        apply (Hdone _ [EvExistsSync p; EvFindDocumentsByPath [rel];
                        EvDeleteDocuments (doc_id <$> doc :: docs);
                        EvOnFileRemoved p]); try done.
        -- st_simpl. by rewrite <- !app_assoc.
        -- by repeat apply Forall_cons_2.
Qed.

Lemma forDocumentUris_pass w fullBuild documentUris :
  ∀ s, wp (forDocumentUris w fullBuild documentUris)
         (λ r s', passRel w (length documentUris) s s' ∧ ∃ f, r = Ok f) s.
Proof.
  induction documentUris as [|d rest IH]; intros s; simpl.
  - apply wp_ret. split; [apply passRel_refl|by eexists].
  - apply wp_bind, wp_try_catch. eapply wp_mono; [apply processDocument_pass|].
    intros r s1 [Hp1 Hr1].
    assert (∀ s2, passRel w 1 s s2 →
                  wp (forDocumentUris w fullBuild rest)
                    (λ r s', passRel w (S (length rest)) s s' ∧ ∃ f, r = Ok f) s2)
      as Hrest.
    { intros s2 Hp2. eapply wp_mono; [apply IH|]. intros r3 s3 [Hp3 Hr3].
      split; [|done]. by apply (passRel_trans w 1 (length rest) s s2 s3). }
    destruct r as [[[]|]|e|]; simpl; [| | |done].
    + by apply Hrest.
    + apply wp_ret. split; [apply (passRel_weaken w 1); [lia|done]|by eexists].
    + wp_run. apply Hrest. unfold caught. destruct (instanceOfError e); [|done].
      apply (passRel_trans w 1 0 s s1); [done|].
      apply (passRel_harmless_same w s1 _ [EvConsoleError d e]); try done.
      by apply Forall_singleton.
Qed.

Lemma processDocuments_pass w documentUris fullBuild s :
  wp (processDocuments w documentUris fullBuild)
    (λ r s', r = Ok () ∧ passRel w (length (default [] documentUris)) s s') s.
Proof.
  unfold processDocuments. wp_run.
  destruct (nothingToIndex (workspace s) documentUris); wp_run.
  { split; [done|]. apply (passRel_weaken w 0); [lia|].
    apply (passRel_harmless_same w s _ []); try done. st_simpl.
    by rewrite app_nil_r. }
  eapply wp_mono; [apply forDocumentUris_pass|].
  intros r s1 [Hp1 [f ->]]. simpl.
  assert (passRel w (length (default [] documentUris)) s s1) as Hp.
  { apply (passRel_trans w 0 _ s (passStart s) s1); [|done].
    apply (passRel_harmless_same w s _ []); try done. unfold passStart.
    st_simpl. by rewrite app_nil_r. }
  destruct f as [[]|]; wp_run.
  - split; [done|].
    replace (length (default [] documentUris))
      with (length (default [] documentUris) + 0) by lia.
    apply (passRel_trans w _ 0 s s1); [done|].
    apply (passRel_harmless_same w s1 _ []); try done. st_simpl.
    by rewrite app_nil_r.
  - by split.
Qed.

(** ** A file whose index is current *)

Lemma visitDocument_indexed w s d l p text :
  d ∉ alreadyVisited s →
  fileURLToPath w d = Some p →
  textDocuments w !! d = Some text →
  alreadyIndexed (symbolTable (codeGraph s) !! relative w (workspace s) p)
    (fileHashMap s !! relative w (workspace s) p) (sha256hex w text) = true →
  visitDocument w d l s = (Ok (Next l), visitedOnly d s).
Proof.
  intros Hv Hp Htext Hidx. apply wp_eq.
  unfold visitDocument. wp_run.
  rewrite decide_False by done. wp_run.
  unfold getFileFromSymbolTable. wp_run. rewrite Htext. wp_run.
  rewrite Hp. wp_run. unfold Graph.getFileFromSymbolTable.
  rewrite Hidx. wp_run. reflexivity.
Qed.

Lemma frontierLoop_done w fuel i l :
  relatedNodes l !! i = None → frontierLoop w fuel i l = mret (Next l).
Proof. intros H. destruct fuel; simpl; by rewrite H. Qed.

Lemma processDocuments_current w s F fullBuild p text e :
  workspace s ≠ EmptyString →
  fileURLToPath w F = Some p →
  existsSync w p = true →
  textDocuments w !! F = Some text →
  symbolTable (codeGraph s) !! relative w (workspace s) p = Some e →
  sha e = sha256hex w text →
  processDocuments w (Some [F]) fullBuild s
  = (Ok (),
     set_syncing false
       (visitedOnly F (set_trace (trace s ++ [EvExistsSync p]) (passStart s)))).
Proof.
  intros Hws Hp Hex Htext He Hsha. apply wp_eq.
  unfold processDocuments. wp_run.
  replace (nothingToIndex (workspace s) (Some [F])) with false
    by (unfold nothingToIndex; simpl; by rewrite bool_decide_eq_false_2).
  wp_run. simpl forDocumentUris. wp_run. unfold processDocument. wp_run.
  rewrite decide_False by set_solver. wp_run. rewrite Hp. wp_run.
  rewrite Hex. simpl negb. wp_run. simpl frontierLoop. wp_run.
  eapply wp_of_eq.
  { eapply (visitDocument_indexed w _ F _ p text);
      [st_simpl; set_solver|done|done|].
    unfold passStart. st_simpl. rewrite He. by apply alreadyIndexed_current. }
  wp_run. rewrite frontierLoop_done by done. wp_run. simpl persistNodes.
  wp_run. reflexivity.
Qed.

(** C4 (as the code has it): a file that has a symbol-table entry whose
    digest is the digest of its content, or for whose path that digest was
    recorded earlier in the same pass, is not parsed when it is visited.
    A file whose stored digest is current when a pass starts is parsed by no
    identifier of the batch, and a pass on that file alone only checks that
    it exists and reads it: no parse, no store call, the Code Graph (symbol
    table and edges) as it was.  The second of two passes on an unchanged
    document is such a pass once the first has recorded the digest. *)
Theorem unchanged_file_not_reparsed w s F p text e :
  fileURLToPath w F = Some p →
  textDocuments w !! F = Some text →
  symbolTable (codeGraph s) !! relative w (workspace s) p = Some e →
  (sha e = sha256hex w text
   ∨ fileHashMap s !! relative w (workspace s) p = Some (sha256hex w text)) →
  (∀ l, F ∉ alreadyVisited s →
        visitDocument w F l s = (Ok (Next l), visitedOnly F s))
  ∧ (sha e = sha256hex w text → existsSync w p = true →
     distinctFile w (workspace s) F →
     ∀ documentUris fullBuild,
       ∃ s' t, processDocuments w documentUris fullBuild s = (Ok (), s')
               ∧ trace s' = trace s ++ t
               ∧ (EvCreateNodesFromDocument F ∉ t)
               ∧ current w F s')
  ∧ (sha e = sha256hex w text → existsSync w p = true → workspace s ≠ EmptyString →
     ∀ fullBuild,
       ∃ s', processDocuments w (Some [F]) fullBuild s = (Ok (), s')
             ∧ trace s' = trace s ++ [EvExistsSync p; EvGetTextDocument F]
             ∧ codeGraph s' = codeGraph s).
Proof.
  intros Hp Htext He Hdigest. split; [|split].
  - intros l Hv. apply (visitDocument_indexed w s F l p text); try done.
    rewrite He. unfold alreadyIndexed.
    destruct Hdigest as [->| ->].
    + by rewrite bool_decide_eq_true_2.
    + rewrite (bool_decide_eq_true_2 (Some _ = Some _)) by done.
      apply orb_true_r.
  - intros Hsha Hex Hdist documentUris fullBuild.
    destruct (processDocuments w documentUris fullBuild s) as [r s'] eqn:Hrun.
    destruct (wp_run _ _ _ _ _
                (processDocuments_pass w documentUris fullBuild s) Hrun)
      as [-> (_ & t & Ht & _ & Hset)].
    exists s', t.
    assert (settled w F s) as HF.
    { split; [by exists p, text, e|]. split; [done|].
      intros p' Hp'. congruence. }
    destruct (Hset F HF) as [[Hcur _] Hno]. done.
  - intros Hsha Hex Hws fullBuild. eexists. split.
    + by apply (processDocuments_current w s F fullBuild p text e).
    + split; [|done]. unfold visitedOnly, passStart. st_simpl.
      by rewrite <- !app_assoc.
Qed.

Lemma unchanged_file_not_reparsed_witness :
  let w := Examples.worldAB [] None in
  let s1 := (processDocuments w (Some ["b.ts"]) false
               (Examples.indexer Examples.emptyGraph None)).2 in
  symbolTable (codeGraph s1) !! "b.ts" = Some (mkFileEntry ["b.ts#g"] "export g")
  ∧ ∃ s2, processDocuments w (Some ["b.ts"]) false s1 = (Ok (), s2)
          ∧ trace s2 = trace s1 ++ [EvExistsSync "b.ts"; EvGetTextDocument "b.ts"]
          ∧ codeGraph s2 = codeGraph s1.
Proof.
  intros w s1.
  assert (symbolTable (codeGraph s1) !! "b.ts"
          = Some (mkFileEntry ["b.ts#g"] "export g")) as He.
  { vm_compute. reflexivity. }
  split; [exact He|].
  destruct (unchanged_file_not_reparsed w s1 "b.ts" "b.ts" "export g"
              (mkFileEntry ["b.ts#g"] "export g")) as (_ & _ & Hc).
  - reflexivity.
  - vm_compute. reflexivity.
  - exact He.
  - left. reflexivity.
  - apply Hc; [reflexivity|vm_compute; reflexivity|].
    vm_compute. discriminate.
Defined.

(** C4, the claim as stated fails: a document that parses to zero nodes is
    never recorded in the symbol table, so indexing it twice in sequence,
    unchanged, parses it both times. *)
Lemma unchanged_file_reparsed_counterexample :
  let w := Examples.worldAB [] None in
  let s1 := (processDocuments w (Some ["empty.ts"]) false
               (Examples.indexer Examples.emptyGraph None)).2 in
  let s2 := (processDocuments w (Some ["empty.ts"]) false s1).2 in
  symbolTable (codeGraph s1) !! "empty.ts" = None
  ∧ countParses "empty.ts" (trace s1) = 1
  ∧ countParses "empty.ts" (trace s2) = 2.
Proof. vm_compute. done. Qed.

(** ** Failures of the store *)

Lemma passRel_no_saves w s s' :
  passRel w 0 s s' → ∃ t, trace s' = trace s ++ t ∧ countSaves t = 0.
Proof. intros (_ & t & Ht & Hn & _). exists t. split; [done|lia]. Qed.

Lemma saveLast_none w s r s' : passRel w 0 s s' → saveLast w s r s'.
Proof. intros (t & Ht & Hz)%passRel_no_saves. exists t. by split; [|left]. Qed.

Lemma saveLast_after w s s1 r s2 :
  passRel w 0 s s1 → saveLast w s1 r s2 → saveLast w s r s2.
Proof.
  intros (t & Ht & Hz)%passRel_no_saves (t0 & Hz0 & Hlast).
  exists (t ++ t0). split; [rewrite countSaves_app; lia|].
  rewrite Ht in Hlast. destruct Hlast as [Hlast|(args & Hlast & Hr)].
  - left. by rewrite Hlast, app_assoc.
  - right. exists args. split; [by rewrite Hlast, !app_assoc|].
    by rewrite app_assoc.
Qed.

Lemma persistNodes_saveLast w fullBuild m s :
  wp (persistNodes w fullBuild m) (saveLast w s) s.
Proof.
  unfold persistNodes. destruct m as [|kn m].
  { apply wp_ret. exists []. split; [done|]. left. by rewrite app_nil_r. }
  apply wp_bind. eapply wp_mono; [apply skeletonizeCodeNodes_quiet|].
  intros r s1 [Hq _].
  destruct Hq as (_ & _ & _ & Hg & _ & _ & _ & _ & t & Ht & Hqt).
  assert (countSaves t = 0) as Hz by by apply countSaves_quiet.
  destruct r as [sks|e|]; simpl; [|by exists t; split; [|left]..].
  destruct sks as [|sk sks].
  { apply wp_ret. exists t. by split; [|left]. }
  apply wp_bind. apply silent_wp; [apply silent_embedCodeGraph|].
  intros r2 Hr2. destruct r2 as [[result|]|e|]; simpl;
    [| |by exists t; split; [|left]|done].
  - wp_run. rewrite Ht.
    destruct (save w (trace s ++ t) _) as [e|] eqn:Hsave; simpl; wp_run.
    + exists t. split; [done|]. right. eexists. st_simpl.
      split; [by rewrite app_assoc|]. by rewrite Hsave.
    + exists t. split; [done|]. right. eexists. st_simpl.
      split; [by rewrite app_assoc|]. by rewrite Hsave.
  - wp_run. exists t. by split; [|left].
Qed.

Lemma processDocument_saveLast w fullBuild d s :
  wp (processDocument w fullBuild d) (saveLast w s) s.
Proof.
  unfold processDocument. wp_run.
  destruct (decide (d ∈ alreadyVisited s)); wp_run.
  { apply saveLast_none, passRel_refl. }
  destruct (fileURLToPath w d) as [p|] eqn:Hp.
  2:{ intros e. apply saveLast_none, passRel_refl. }
  wp_run.
  assert (passRel w 0 s (set_trace (trace s ++ [EvExistsSync p]) s)) as Hp0.
  { apply (passRel_harmless_same w s _ [EvExistsSync p]); try done.
    by apply Forall_singleton. }
  destruct (existsSync w p) eqn:Hex; simpl negb; wp_run.
  - eapply wp_mono.
    { apply frontierLoop_pass. rewrite Nat.add_0_r. apply potential_initial. }
    intros r s1 [Hp1 Hr1].
    pose proof (passRel_trans w 0 0 _ _ _ Hp0 Hp1) as Hp01.
    destruct r as [[l|]|e|]; simpl; [| | |done].
    + eapply wp_mono; [apply persistNodes_saveLast|].
      intros r2 s2 Hlast. by apply (saveLast_after w s s1).
    + apply wp_ret. by apply saveLast_none.
    + by apply saveLast_none.
  - set (rel := relative w (workspace s) p).
    assert (∀ r s' t, trace s' = trace s ++ t → countSaves t = 0 →
                      saveLast w s r s') as Hdone.
    { intros r s' t Ht Hz. exists t. by split; [|left]. }
    destruct (findDocumentsByPath w _ [rel]) as [e|docs]; simpl.
    { apply (Hdone _ _ [EvExistsSync p; EvFindDocumentsByPath [rel]]); [|done].
      st_simpl. by rewrite <- app_assoc. }
    destruct docs as [|doc docs]; wp_run.
    + apply (Hdone _ _ [EvExistsSync p; EvFindDocumentsByPath [rel];
                        EvOnFileRemoved p]); [|done].
      st_simpl. by rewrite <- !app_assoc.
    + destruct (deleteDocuments w _ _) as [e|]; simpl orThrow; wp_run.
      * apply (Hdone _ _ [EvExistsSync p; EvFindDocumentsByPath [rel];
                          EvDeleteDocuments (doc_id <$> doc :: docs)]); [|done].
        st_simpl. by rewrite <- !app_assoc.
      * apply (Hdone _ _ [EvExistsSync p; EvFindDocumentsByPath [rel];
                          EvDeleteDocuments (doc_id <$> doc :: docs);
                          EvOnFileRemoved p]); [|done].
        st_simpl. by rewrite <- !app_assoc.
Qed.

Lemma countSaves_save t1 args t2 : countSaves (t1 ++ EvSave args :: t2) ≠ 0.
Proof.
  rewrite countSaves_app. unfold countSaves at 2.
  rewrite filter_cons_True by done. simpl. lia.
Qed.

Lemma last_save t0 args t1 args' t2 :
  countSaves t0 = 0 →
  t0 ++ [EvSave args] = t1 ++ EvSave args' :: t2 →
  t1 = t0 ∧ args' = args ∧ t2 = [].
Proof.
  intros Hz Heq. destruct t2 as [|x t2 _] using rev_ind.
  - apply app_inj_tail in Heq as [-> Heq]. by injection Heq as ->.
  - change (t1 ++ EvSave args' :: t2 ++ [x])
      with (t1 ++ (EvSave args' :: t2) ++ [x]) in Heq.
    rewrite app_assoc in Heq. apply app_inj_tail in Heq as [-> _].
    by destruct (countSaves_save t1 args' t2).
Qed.

(** C8 (as the code has it): whatever the vector store answers,
    [processDocuments] ends and its promise resolves: no failure of [save]
    reaches the caller.  The body of [try] calls [save] at most once for its
    identifier, as its last call, and throws what a failed [save] rejected
    with; the [catch] of the loop logs that value with [console.error] when
    it is an instance of [Error], drops it otherwise, and the loop goes on
    with the next identifier: a failed save is not retried. *)
Theorem processDocuments_always_resolves w s documentUris fullBuild :
  (∃ s' t, processDocuments w documentUris fullBuild s = (Ok (), s')
           ∧ trace s' = trace s ++ t
           ∧ countSaves t ≤ length (default [] documentUris))
  ∧ ∀ documentUri rest s0,
      ∃ r s1 t,
        processDocument w fullBuild documentUri s0 = (r, s1)
        ∧ trace s1 = trace s0 ++ t
        ∧ countSaves t ≤ 1
        ∧ ∀ t1 args t2 error,
            t = t1 ++ EvSave args :: t2 →
            save w (trace s0 ++ t1) args = Some error →
            t2 = []
            ∧ r = Throw error
            ∧ forDocumentUris w fullBuild (documentUri :: rest) s0
              = forDocumentUris w fullBuild rest (caught documentUri error s1).
Proof.
  split.
  - destruct (processDocuments w documentUris fullBuild s) as [r s'] eqn:Hrun.
    destruct (wp_run _ _ _ _ _
                (processDocuments_pass w documentUris fullBuild s) Hrun)
      as [-> (_ & t & Ht & Hn & _)].
    by exists s', t.
  - intros d rest s0.
    destruct (processDocument w fullBuild d s0) as [r s1] eqn:Hrun.
    destruct (wp_run _ _ _ _ _ (processDocument_saveLast w fullBuild d s0) Hrun)
      as (t0 & Hz & [Ht|(args & Ht & Hr)]).
    + exists r, s1, t0. split; [done|]. split; [done|]. split; [lia|].
      intros t1 args t2 e -> _. by destruct (countSaves_save t1 args t2).
    + exists r, s1, (t0 ++ [EvSave args]). split; [done|]. split; [done|].
      split; [rewrite countSaves_app, Hz; by vm_compute|].
      intros t1 args' t2 e Hsplit Hsave.
      destruct (last_save _ _ _ _ _ Hz Hsplit) as (-> & -> & ->).
      rewrite Hsave in Hr. subst r. split; [done|]. split; [done|].
      by apply forDocumentUris_caught.
Qed.

(** C8, the claim as stated fails: [save] fails for the one document of the
    batch and the call resolves all the same.  An [Error] is logged by the
    [catch] of the loop; a rejection with another value leaves no trace at
    all. *)
Lemma save_failure_absorbed_counterexample :
  let s := Examples.indexer Examples.emptyGraph None in
  (let w := Examples.worldAB [] (Some (CollaboratorError "disk full")) in
   ∃ s' before args,
     processDocuments w (Some ["b.ts"]) false s = (Ok (), s')
     ∧ trace s' = before ++ [EvSave args;
                             EvConsoleError "b.ts" (CollaboratorError "disk full")]
     ∧ save w before args = Some (CollaboratorError "disk full"))
  ∧ (let w := Examples.worldAB [] (Some (NonError "disk full")) in
     ∃ s' before args,
       processDocuments w (Some ["b.ts"]) false s = (Ok (), s')
       ∧ trace s' = before ++ [EvSave args]
       ∧ save w before args = Some (NonError "disk full")).
Proof.
  intros s. split; intros w; eexists _, [_; _; _; _; _; _; _], _;
    (split; [vm_compute; reflexivity|]); split; reflexivity.
Qed.

(** ** Blast radius: a file and the file it refers to *)

Lemma set_add_idemp x l : set_add x (set_add x l) = set_add x l.
Proof.
  unfold set_add at 2. destruct (decide (x ∈ l)) as [H|H].
  - reflexivity.
  - unfold set_add. rewrite decide_True; [|apply elem_of_app; right; by left].
    by rewrite decide_False.
Qed.

Lemma expandFrontier_two_files w s A B nodes :
  A ≠ B →
  Forall (λ n, uri (node_location n) = A ∨ uri (node_location n) = B) nodes →
  ∀ rel,
    expandFrontier w s A nodes rel
    = if bool_decide (refersTo B nodes) && wanted w s B
      then set_add B rel else rel.
Proof.
  intros HAB Hnodes. induction Hnodes as [|n nodes Hn _ IH]; intros rel.
  - unfold expandFrontier. cbn [foldl].
    rewrite bool_decide_eq_false_2; [done|]. unfold refersTo. by intros ?%Exists_nil.
  - unfold expandFrontier in *. cbn [foldl]. rewrite IH.
    destruct Hn as [Hn|Hn]; rewrite Hn.
    + rewrite (bool_decide_eq_false_2 (A ≠ A)) by naive_solver. simpl.
      assert (bool_decide (refersTo B (n :: nodes)) = bool_decide (refersTo B nodes))
        as ->; [|done].
      apply bool_decide_ext. unfold refersTo. rewrite Exists_cons. naive_solver.
    + rewrite (bool_decide_eq_true_2 (B ≠ A)) by naive_solver. simpl.
      rewrite (bool_decide_eq_true_2 (refersTo B (n :: nodes)))
        by (by apply Exists_cons_hd).
      simpl. destruct (wanted w s B); [|by rewrite andb_false_r].
      destruct (bool_decide (refersTo B nodes)); simpl; [|done].
      apply set_add_idemp.
Qed.

Lemma emitted_grows_l e s s1 s2 :
  emitted e s s1 → (∃ t, trace s2 = trace s1 ++ t) → emitted e s s2.
Proof.
  intros (t1 & Ht1 & Hin) (t2 & Ht2). exists (t1 ++ t2).
  split; [by rewrite Ht2, Ht1, app_assoc|]. apply elem_of_app. by left.
Qed.

Lemma emitted_grows_r e s s1 s2 :
  (∃ t, trace s1 = trace s ++ t) → emitted e s1 s2 → emitted e s s2.
Proof.
  intros (t1 & Ht1) (t2 & Ht2 & Hin). exists (t1 ++ t2).
  split; [by rewrite Ht2, Ht1, app_assoc|]. apply elem_of_app. by right.
Qed.

Lemma avoided_trans e s s1 s2 : avoided e s s1 → avoided e s1 s2 → avoided e s s2.
Proof.
  intros (t1 & Ht1 & Hin1) (t2 & Ht2 & Hin2). exists (t1 ++ t2).
  split; [by rewrite Ht2, Ht1, app_assoc|]. rewrite elem_of_app. tauto.
Qed.

Lemma passRel_grows w n s s' : passRel w n s s' → ∃ t, trace s' = trace s ++ t.
Proof. intros (_ & t & Ht & _). by exists t. Qed.

Lemma persisted_avoided s s' F :
  persisted s s' → avoided (EvCreateNodesFromDocument F) s s'.
Proof.
  intros (_ & _ & t & Ht & Hev & _). exists t. split; [done|].
  intros Hin. rewrite Forall_forall in Hev. by destruct (Hev _ Hin).
Qed.

Lemma quiet_avoided w s s' F :
  quiet w s s' → avoided (EvCreateNodesFromDocument F) s s'.
Proof. intros Hq. by apply persisted_avoided, (quiet_persisted w). Qed.

(** The pass on a single identifier, from the body of its [try]. *)
Lemma wp_processDocuments_single w d fullBuild (Q : Res () → State → Prop) s :
  workspace s ≠ EmptyString →
  wp (processDocument w fullBuild d)
    (λ r s1,
       match r with
       | Ok (Next _) => Q (Ok ()) (set_syncing false s1)
       | Ok Return => Q (Ok ()) s1
       | Throw e => Q (Ok ()) (set_syncing false (caught d e s1))
       | Diverges => Q Diverges s1
       end) (passStart s) →
  wp (processDocuments w (Some [d]) fullBuild) Q s.
Proof.
  intros Hws H. unfold processDocuments. wp_run.
  replace (nothingToIndex (workspace s) (Some [d])) with false
    by (unfold nothingToIndex; simpl; by rewrite bool_decide_eq_false_2).
  wp_run. simpl forDocumentUris. wp_run.
  eapply wp_mono; [exact H|]. intros [[[]|]|e|] s1 HQ; wp_run; done.
Qed.

Lemma wanted_ext w s s' u :
  workspace s' = workspace s → codeGraph s' = codeGraph s →
  fileHashMap s' = fileHashMap s → matchedSet w s' = matchedSet w s →
  wanted w s' u = wanted w s u.
Proof. intros Hw Hg Hh Hm. unfold wanted. by rewrite Hw, Hg, Hh, Hm. Qed.

Lemma expandFrontier_ext w s s' d nodes rel :
  workspace s' = workspace s → codeGraph s' = codeGraph s →
  fileHashMap s' = fileHashMap s → matchedSet w s' = matchedSet w s →
  expandFrontier w s' d nodes rel = expandFrontier w s d nodes rel.
Proof.
  intros Hw Hg Hh Hm. revert rel.
  induction nodes as [|n nodes IH]; intros rel; [done|].
  unfold expandFrontier in *. cbn [foldl].
  rewrite (wanted_ext w s s') by done. apply IH.
Qed.

(** The visit of a stale document whose nodes can all be scanned. *)
Lemma visitDocument_scanned w s A l pA textA nodes imports exports :
  A ∉ alreadyVisited s →
  fileURLToPath w A = Some pA →
  textDocuments w !! A = Some textA →
  alreadyIndexed (symbolTable (codeGraph s) !! relative w (workspace s) pA)
    (fileHashMap s !! relative w (workspace s) pA) (sha256hex w textA) = false →
  createNodesFromDocument w A textA = ParseOk nodes imports exports →
  nodes ≠ [] →
  Forall (scannable w A) nodes →
  wp (visitDocument w A l)
    (λ r s',
       ∃ l' tq,
         r = Ok (Next l')
         ∧ relatedNodes l' = expandFrontier w s A nodes (relatedNodes l)
         ∧ (keyed (nodesToProcess l) → keyed (nodesToProcess l'))
         ∧ trace s' = trace s ++ [EvGetTextDocument A;
                                  EvOnFileProcessing (relative w (workspace s) pA);
                                  EvGetTextDocument A;
                                  EvCreateNodesFromDocument A] ++ tq
         ∧ Forall isQuiet tq
         ∧ workspace s' = workspace s
         ∧ matchedSet w s' = matchedSet w s
         ∧ alreadyVisited s' = {[A]} ∪ alreadyVisited s
         ∧ fileHashMap s'
           = <[relative w (workspace s) pA := sha256hex w textA]> (fileHashMap s)
         ∧ symbolTable (codeGraph s')
           = <[relative w (workspace s) pA :=
                 mkFileEntry (nodeIdsForFile l') (sha256hex w textA)]>
               (symbolTable (codeGraph s))) s.
Proof.
  intros Hv Hp Htext Hstale Hparse Hne Hscan.
  unfold visitDocument. wp_run.
  rewrite decide_False by done. wp_run.
  unfold getFileFromSymbolTable. wp_run. rewrite Htext. wp_run.
  rewrite Hp. wp_run. unfold Graph.getFileFromSymbolTable.
  rewrite Hstale. wp_run. rewrite Hparse. wp_run.
  destruct nodes as [|n nodes]; [done|]. wp_run.
  eapply wp_mono; [apply scanNodes_spec|].
  intros r s3 [Hq Hr].
  destruct Hq as (Hw3 & _ & _ & Hg3 & Hh3 & Hv3 & _ & Hm3 & t3 & Ht3 & Hq3).
  st_simpl_in Hw3. st_simpl_in Hg3. st_simpl_in Ht3. st_simpl_in Hh3.
  st_simpl_in Hv3.
  destruct r as [l'|e|]; simpl; [|done|done]. wp_run.
  destruct Hr as [Hrel Hk]. exists l', t3.
  split; [done|]. split.
  { rewrite Hrel. cbn [relatedNodes].
    by apply (expandFrontier_ext w s _ A (n :: nodes) (relatedNodes l)). }
  split; [done|].
  split; [by rewrite Ht3, <- !app_assoc|]. split; [done|]. split; [done|].
  split; [transitivity (matchedSet w s3); [done|by rewrite Hm3]|].
  split; [done|]. split; [by rewrite Hh3|].
  unfold Graph.updateFileWithEdges. cbn [symbolTable]. by rewrite Hg3.
Qed.

(** The visit of a stale, readable document calls the parser for it. *)
Lemma visitDocument_parses w s d l p text :
  d ∉ alreadyVisited s →
  fileURLToPath w d = Some p →
  textDocuments w !! d = Some text →
  alreadyIndexed (symbolTable (codeGraph s) !! relative w (workspace s) p)
    (fileHashMap s !! relative w (workspace s) p) (sha256hex w text) = false →
  wp (visitDocument w d l)
    (λ r s', emitted (EvCreateNodesFromDocument d) s s') s.
Proof.
  intros Hv Hp Htext Hstale.
  unfold visitDocument. wp_run.
  rewrite decide_False by done. wp_run.
  unfold getFileFromSymbolTable. wp_run. rewrite Htext. wp_run.
  rewrite Hp. wp_run. unfold Graph.getFileFromSymbolTable.
  rewrite Hstale. wp_run.
  set (pre := [EvGetTextDocument d; EvOnFileProcessing (relative w (workspace s) p);
               EvGetTextDocument d; EvCreateNodesFromDocument d]).
  assert (∀ s' t, trace s' = ((((trace s ++ [EvGetTextDocument d])
                     ++ [EvOnFileProcessing (relative w (workspace s) p)])
                     ++ [EvGetTextDocument d]) ++ [EvCreateNodesFromDocument d]) ++ t →
                  emitted (EvCreateNodesFromDocument d) s s') as Hemit.
  { intros s' t Ht. exists (pre ++ t). split; [by rewrite Ht, <- !app_assoc|].
    apply elem_of_app. left. unfold pre. set_solver. }
  destruct (createNodesFromDocument w d text) as [e| |nodes imports exports];
    wp_run.
  - apply (Hemit _ []). st_simpl. by rewrite app_nil_r.
  - apply (Hemit _ []). st_simpl. by rewrite app_nil_r.
  - destruct nodes as [|n nodes]; wp_run.
    { apply (Hemit _ []). st_simpl. by rewrite app_nil_r. }
    eapply wp_mono; [apply scanNodes_spec|].
    intros r s3 [Hq Hr].
    destruct Hq as (_ & _ & _ & _ & _ & _ & _ & _ & t3 & Ht3 & _).
    st_simpl_in Ht3.
    destruct r as [l'|e|]; simpl; [| |done]; wp_run; by apply (Hemit _ t3).
Qed.

Lemma size_textDocuments_pos w d text :
  textDocuments w !! d = Some text → ∃ n, size (textDocuments w) = S n.
Proof.
  intros H. destruct (size (textDocuments w)) as [|n] eqn:Hsize; [|by exists n].
  apply map_size_empty_inv in Hsize. rewrite Hsize in H. by rewrite lookup_empty in H.
Qed.

Lemma processDocument_two_files w s A B pA pB textA textB nodes imports exports
    fullBuild :
  alreadyVisited s = ∅ →
  fileHashMap s = ∅ →
  A ≠ B →
  fileURLToPath w A = Some pA →
  existsSync w pA = true →
  textDocuments w !! A = Some textA →
  alreadyIndexed (symbolTable (codeGraph s) !! relative w (workspace s) pA) None
    (sha256hex w textA) = false →
  createNodesFromDocument w A textA = ParseOk nodes imports exports →
  refersTo B nodes →
  Forall (λ n, uri (node_location n) = A ∨ uri (node_location n) = B) nodes →
  Forall (λ n, uri (node_location n) = A → is_Some (fileURLToPath w (node_id n)))
    nodes →
  fileURLToPath w B = Some pB →
  textDocuments w !! B = Some textB →
  relative w (workspace s) pA ≠ relative w (workspace s) pB →
  wp (processDocument w fullBuild A)
    (λ r s',
       r ≠ Diverges
       ∧ if wanted w s B
         then emitted (EvCreateNodesFromDocument B) s s'
         else avoided (EvCreateNodesFromDocument B) s s') s.
Proof.
  intros Hvis Hhash HAB HpA HexA HtA HstaleA Hparse HB Hnodes Hown HpB HtB Hrel.
  assert (nodes ≠ []) as Hne.
  { intros ->. by apply Exists_nil in HB. }
  assert (Forall (scannable w A) nodes) as Hscan.
  { rewrite Forall_forall in Hnodes, Hown. apply Forall_forall. intros n Hin.
    unfold scannable. destruct (decide (uri (node_location n) ≠ A)) as [Hn|Hn].
    - destruct (Hnodes n Hin) as [?| ->]; [done|]. by rewrite HpB, HtB.
    - apply Hown; [done|]. by destruct (decide (uri (node_location n) = A)). }
  unfold processDocument. wp_run.
  rewrite decide_False by (rewrite Hvis; set_solver). wp_run.
  rewrite HpA. wp_run. rewrite HexA. simpl negb. wp_run.
  simpl frontierLoop. wp_run.
  set (s0 := set_trace (trace s ++ [EvExistsSync pA]) s).
  eapply wp_mono.
  { apply (visitDocument_scanned w s0 A _ pA textA nodes imports exports);
      try done.
    - unfold s0. st_simpl. rewrite Hvis. set_solver.
    - unfold s0. st_simpl. by rewrite Hhash, lookup_empty. }
  intros r s1 (l' & tq & -> & Hrel' & Hk & Ht1 & Hq1 & Hw1 & Hm1 & Hv1 & Hh1 & Hg1).
  cbn [relatedNodes nodesToProcess] in Hrel', Hk.
  rewrite (expandFrontier_two_files w s0 A B nodes HAB Hnodes) in Hrel'.
  rewrite bool_decide_eq_true_2 in Hrel' by done. cbn [andb] in Hrel'.
  replace (wanted w s0 B) with (wanted w s B) in Hrel' by done.
  unfold s0 in Ht1, Hw1, Hv1, Hh1, Hg1. st_simpl_in Ht1. st_simpl_in Hw1.
  st_simpl_in Hv1. st_simpl_in Hh1. st_simpl_in Hg1.
  assert (keyed (nodesToProcess l')) as Hk' by apply Hk, keyed_nil.
  assert (avoided (EvCreateNodesFromDocument B) s s1) as Havoid.
  { eexists. split; [rewrite Ht1, <- app_assoc; reflexivity|].
    intros Hin. simpl in Hin. rewrite !elem_of_cons in Hin.
    rewrite Forall_forall in Hq1.
    destruct Hin as [Hin|[Hin|[Hin|[Hin|[Hin|Hin]]]]]; try discriminate.
    - injection Hin as Hin. by subst.
    - by apply Hq1 in Hin. }
  simpl andThen.
  destruct (wanted w s B) eqn:HW.
  - (* B is added to the frontier and visited next *)
    assert (relatedNodes l' = [A; B]) as Hfront.
    { rewrite Hrel'. unfold set_add. rewrite decide_False; [done|]. set_solver. }
    destruct (size_textDocuments_pos w A textA HtA) as [n Hsize].
    rewrite Hsize. simpl frontierLoop. rewrite Hfront. simpl lookup. wp_run.
    assert (alreadyIndexed
              (symbolTable (codeGraph s1) !! relative w (workspace s1) pB)
              (fileHashMap s1 !! relative w (workspace s1) pB)
              (sha256hex w textB) = false) as HstaleB.
    { unfold wanted in HW. rewrite HpB, HtB in HW.
      apply andb_prop in HW as [_ HW]. apply negb_true_iff in HW.
      rewrite Hw1, Hg1, Hh1, Hhash, !lookup_insert_ne, lookup_empty by done.
      by rewrite Hhash, lookup_empty in HW. }
    eapply wp_mono.
    { apply wp_conj.
      - apply (visitDocument_parses w s1 B l' pB textB); try done.
        rewrite Hv1, Hvis. set_solver.
      - apply visitDocument_pass. }
    intros r s2 [Hemit [Hp2 Hr2]].
    assert (emitted (EvCreateNodesFromDocument B) s s2) as Hemit2.
    { apply (emitted_grows_r _ s s1 s2); [|done].
      destruct Havoid as (t & Ht & _). by exists t. }
    destruct r as [[l2|]|e|]; [| | |done]; wp_run.
    + destruct Hr2 as [Hpot2 Hk2].
      eapply wp_mono.
      { apply (frontierLoop_pass w n 2 l2 s2). rewrite Hpot2, Hfront.
        assert (potential w [A; B] = potential w [A]) as ->.
        { change [A; B] with ([A] ++ [B]).
          rewrite <- (potential_set_add w B [A]).
          - unfold set_add. rewrite decide_False; [done|]. set_solver.
          - apply elem_of_dom. by eexists. }
        pose proof (potential_initial w A). lia. }
      intros r3 s3 [Hp3 Hr3].
      pose proof (emitted_grows_l _ s s2 s3 Hemit2 (passRel_grows _ _ _ _ Hp3))
        as Hemit3.
      destruct r3 as [[l3|]|e|]; [| | |done]; wp_run.
      * eapply wp_mono; [apply persistNodes_spec|].
        intros r4 s4 [Hp4 Hr4]. split; [by apply Hr4, Hr3, Hk2|].
        apply (emitted_grows_l _ s s3 s4); [done|].
        destruct Hp4 as (_ & _ & t & Ht & _). by exists t.
      * done.
      * done.
    + done.
    + done.
  - (* B is not added: the frontier is exhausted *)
    rewrite frontierLoop_done by (by rewrite Hrel'). wp_run.
    eapply wp_mono; [apply persistNodes_spec|].
    intros r4 s4 [Hp4 Hr4]. split; [by apply Hr4|].
    apply (avoided_trans _ s s1 s4); [done|by apply persisted_avoided].
Qed.

(** C3 (as the code has it): [A] is stale, so it is parsed, and its parse
    surfaces nodes located in [A] itself and in [B].  In a pass started on
    [A] alone, [B] is parsed exactly when its relative path is in the matched
    set of the inclusion filter and it is not already indexed: it has no
    symbol-table entry, or the stored digest differs from the digest of its
    content.  A [B] whose stored digest is current is not parsed, and
    neither is a stale [B] that the filter excludes. *)
Theorem blast_radius w s A B pA pB textA textB nodes imports exports fullBuild :
  workspace s ≠ EmptyString →
  A ≠ B →
  fileURLToPath w A = Some pA →
  existsSync w pA = true →
  textDocuments w !! A = Some textA →
  alreadyIndexed (symbolTable (codeGraph s) !! relative w (workspace s) pA) None
    (sha256hex w textA) = false →
  createNodesFromDocument w A textA = ParseOk nodes imports exports →
  refersTo B nodes →
  Forall (λ n, uri (node_location n) = A ∨ uri (node_location n) = B) nodes →
  Forall (λ n, uri (node_location n) = A → is_Some (fileURLToPath w (node_id n)))
    nodes →
  fileURLToPath w B = Some pB →
  textDocuments w !! B = Some textB →
  relative w (workspace s) pA ≠ relative w (workspace s) pB →
  ∃ s' t,
    processDocuments w (Some [A]) fullBuild s = (Ok (), s')
    ∧ trace s' = trace s ++ t
    ∧ (EvCreateNodesFromDocument B ∈ t
       ↔ relative w (workspace s) pB ∈ matchedSet w s
         ∧ alreadyIndexed
             (symbolTable (codeGraph s) !! relative w (workspace s) pB) None
             (sha256hex w textB) = false).
Proof.
  intros Hws HAB HpA HexA HtA HstaleA Hparse HB Hnodes Hown HpB HtB Hrel.
  assert (wanted w (passStart s) B = true
          ↔ relative w (workspace s) pB ∈ matchedSet w s
            ∧ alreadyIndexed
                (symbolTable (codeGraph s) !! relative w (workspace s) pB) None
                (sha256hex w textB) = false) as HW.
  { unfold wanted. rewrite HpB, HtB. unfold passStart. st_simpl.
    rewrite lookup_empty.
    replace (matchedSet w (set_alreadyVisited ∅ (set_fileHashMap ∅ (set_syncing true s))))
      with (matchedSet w s) by done.
    rewrite andb_true_iff, bool_decide_eq_true, negb_true_iff. done. }
  assert (wp (processDocuments w (Some [A]) fullBuild)
            (λ r s', r = Ok ()
                     ∧ if wanted w (passStart s) B
                       then emitted (EvCreateNodesFromDocument B) s s'
                       else avoided (EvCreateNodesFromDocument B) s s') s) as Hwp.
  { apply wp_processDocuments_single; [done|].
    eapply wp_mono.
    { by apply (processDocument_two_files w (passStart s) A B pA pB textA textB
                  nodes imports exports fullBuild). }
    intros r s1 [Hr Hs1].
    assert (∀ s2 t, trace s2 = trace s1 ++ t →
                    EvCreateNodesFromDocument B ∉ t →
                    if wanted w (passStart s) B
                    then emitted (EvCreateNodesFromDocument B) s s2
                    else avoided (EvCreateNodesFromDocument B) s s2) as Hend.
    { intros s2 t Ht Hno. destruct (wanted w (passStart s) B).
      - apply (emitted_grows_l _ s s1 s2); [done|by exists t].
      - apply (avoided_trans _ s s1 s2); [done|by exists t]. }
    destruct r as [[[]|]|e|]; [| | |done].
    - split; [done|]. apply (Hend _ []); [by rewrite app_nil_r|apply not_elem_of_nil].
    - split; [done|]. apply (Hend _ []); [by rewrite app_nil_r|apply not_elem_of_nil].
    - split; [done|]. unfold caught. destruct (instanceOfError e).
      + apply (Hend _ [EvConsoleError A e]); [done|].
        by intros [=]%list_elem_of_singleton.
      + apply (Hend _ []); [by rewrite app_nil_r|apply not_elem_of_nil]. }
  unfold wp in Hwp.
  destruct (processDocuments w (Some [A]) fullBuild s) as [r s'].
  simpl in Hwp. destruct Hwp as [-> Hwp].
  destruct (wanted w (passStart s) B).
  - destruct Hwp as (t & Ht & Hin). exists s', t. split; [done|]. split; [done|].
    split; [intros _; by apply HW|done].
  - destruct Hwp as (t & Ht & Hin). exists s', t. split; [done|]. split; [done|].
    split; [done|]. intros H%HW. done.
Qed.

Lemma blast_radius_witness :
  let w := Examples.worldAB ["a.ts"; "b.ts"] None in
  let s := Examples.indexer Examples.emptyGraph None in
  ∃ s' t,
    processDocuments w (Some ["a.ts"]) false s = (Ok (), s')
    ∧ trace s' = trace s ++ t
    ∧ (EvCreateNodesFromDocument "b.ts" ∈ t
       ↔ "b.ts" ∈ matchedSet w s
         ∧ alreadyIndexed (symbolTable (codeGraph s) !! "b.ts") None "export g"
           = false).
Proof.
  intros w s.
  apply (blast_radius w s "a.ts" "b.ts" "a.ts" "b.ts" "import b" "export g"
           [Examples.nodeAt "a.ts" "a.ts#f" None;
            Examples.nodeAt "b.ts" "b.ts#g" None] ∅ ∅ false).
  - simpl. discriminate.
  - discriminate.
  - reflexivity.
  - vm_compute. reflexivity.
  - vm_compute. reflexivity.
  - vm_compute. reflexivity.
  - vm_compute. reflexivity.
  - apply Exists_cons_tl, Exists_cons_hd. reflexivity.
  - apply Forall_cons_2; [by left|]. apply Forall_cons_2; [by right|].
    apply Forall_nil_2.
  - apply Forall_cons_2; [by eexists|]. apply Forall_cons_2; [by eexists|].
    apply Forall_nil_2.
  - reflexivity.
  - vm_compute. reflexivity.
  - simpl. discriminate.
Defined.

(** C3, the claim as stated fails: [a.ts] refers to [b.ts], [b.ts] has no
    symbol-table entry (it is stale), but the inclusion filter matches only
    [a.ts]: the pass on [a.ts] parses [a.ts] and never [b.ts]. *)
Lemma blast_radius_filter_counterexample :
  let w := Examples.worldAB ["a.ts"] None in
  let s := Examples.indexer Examples.emptyGraph None in
  let s' := (processDocuments w (Some ["a.ts"]) false s).2 in
  createNodesFromDocument w "a.ts" "import b"
  = ParseOk [Examples.nodeAt "a.ts" "a.ts#f" None;
             Examples.nodeAt "b.ts" "b.ts#g" None] ∅ ∅
  ∧ symbolTable (codeGraph s) !! "b.ts" = None
  ∧ textDocuments w !! "b.ts" = Some "export g"
  ∧ countParses "a.ts" (trace s') = 1
  ∧ countParses "b.ts" (trace s') = 0.
Proof. vm_compute. done. Qed.

(** * Further properties of the code *)

(** ** [getFileExtension] *)

Lemma prefix_dot_cons a s :
  String.prefix "." (String a s) = true ↔ String a s = "." +:+ s.
Proof.
  cbn [String.prefix].
  match goal with |- context [Ascii.ascii_dec ?c a] =>
    destruct (Ascii.ascii_dec c a) as [<-|Hne] end.
  - by destruct s.
  - split; [by destruct s|]. intros [= ->]. done.
Qed.

Lemma dotFree_cons a s : Compose.dotFree (String a s) → Compose.dotFree s.
Proof. intros H x y ->. by apply (H (String a x) y). Qed.

Lemma lastIndexFrom_dotFree s :
  Compose.dotFree s → ∀ i found, Compose.lastIndexFrom "." s i found = found.
Proof.
  induction s as [|a s IH]; intros Hfree i found; [done|].
  cbn [Compose.lastIndexFrom].
  destruct (String.prefix "." (String a s)) eqn:Hp.
  - apply prefix_dot_cons in Hp. by destruct (Hfree EmptyString s).
  - apply IH. by eapply dotFree_cons.
Qed.

Lemma lastIndexFrom_last_dot base ext :
  Compose.dotFree ext →
  ∀ i found,
    Compose.lastIndexFrom "." (base +:+ "." +:+ ext) i found
    = (i + Z.of_nat (String.length base))%Z.
Proof.
  intros Hfree. induction base as [|a base IH]; intros i found.
  - lazy [String.append]. cbn [Compose.lastIndexFrom].
    rewrite (proj2 (prefix_dot_cons _ ext)) by reflexivity.
    rewrite lastIndexFrom_dotFree by done. simpl. lia.
  - change (String a base +:+ "." +:+ ext) with (String a (base +:+ "." +:+ ext)).
    cbn [Compose.lastIndexFrom]. rewrite IH. cbn [String.length]. lia.
Qed.

Lemma lastIndexFrom_ge searchString s :
  ∀ i found, (found ≤ i)%Z →
             (found ≤ Compose.lastIndexFrom searchString s i found)%Z.
Proof.
  induction s as [|a s IH]; intros i found Hle; cbn [Compose.lastIndexFrom].
  - destruct (String.prefix _ _); lia.
  - destruct (String.prefix _ _).
    + etrans; [|apply IH]; lia.
    + apply IH. lia.
Qed.

(** A string in which [lastIndexOf] finds no dot has none. *)
Lemma dotFree_intro s : Compose.lastIndexOf s "." = (-1)%Z → Compose.dotFree s.
Proof.
  unfold Compose.lastIndexOf. intros Hnone a b ->.
  assert (∀ i found, (found < i)%Z →
            (i ≤ Compose.lastIndexFrom "." (a +:+ "." +:+ b) i found)%Z) as Hfound.
  { clear Hnone. induction a as [|c a IH]; intros i found Hlt.
    - lazy [String.append]. cbn [Compose.lastIndexFrom].
      rewrite (proj2 (prefix_dot_cons _ b)) by reflexivity.
      apply lastIndexFrom_ge. lia.
    - change (String c a +:+ "." +:+ b) with (String c (a +:+ "." +:+ b)).
      cbn [Compose.lastIndexFrom]. etrans; [|apply IH]; [lia|].
      destruct (String.prefix _ _); lia. }
  specialize (Hfound 0%Z (-1)%Z). lia.
Qed.

Lemma string_length_app a b :
  String.length (a +:+ b) = String.length a + String.length b.
Proof.
  induction a as [|c a IH]; [done|].
  change (String c a +:+ b) with (String c (a +:+ b)). cbn [String.length].
  by rewrite IH.
Qed.

Lemma dropString_app a b : Compose.dropString (String.length a) (a +:+ b) = b.
Proof.
  induction a as [|c a IH]; [by destruct b|].
  change (String c a +:+ b) with (String c (a +:+ b)). done.
Qed.

Lemma dropString_past_dot base ext :
  Compose.dropString (S (String.length base)) (base +:+ "." +:+ ext) = ext.
Proof.
  induction base as [|c base IH]; [done|].
  change (String c base +:+ "." +:+ ext) with (String c (base +:+ "." +:+ ext)).
  done.
Qed.

Lemma dropString_all s n : String.length s ≤ n → Compose.dropString n s = EmptyString.
Proof.
  revert n. induction s as [|c s IH]; intros n Hn; [by destruct n|].
  destruct n as [|n]; simpl in *; [lia|]. apply IH. lia.
Qed.

(** X1: for a name with something before its last dot, [getFileExtension]
    is what follows the last dot. *)
Theorem getFileExtension_after_last_dot base ext :
  base ≠ EmptyString →
  Compose.dotFree ext →
  (Z.of_nat (String.length (base +:+ "." +:+ ext)) < 2 ^ 32)%Z →
  Compose.getFileExtension (base +:+ "." +:+ ext) = ext.
Proof.
  intros Hbase Hfree Hlen.
  unfold Compose.getFileExtension, Compose.lastIndexOf.
  rewrite lastIndexFrom_last_dot by done.
  rewrite !string_length_app in Hlen. cbn [String.length] in Hlen.
  assert (0 < String.length base) as Hpos by (destruct base; [done|simpl; lia]).
  unfold Compose.toUint32. rewrite Z.mod_small by lia.
  unfold Compose.slice. rewrite !string_length_app. cbn [String.length].
  destruct (_ <? 0)%Z eqn:Hneg; [lia|].
  replace (Z.to_nat _) with (S (String.length base)) by lia.
  apply dropString_past_dot.
Qed.

Lemma getFileExtension_after_last_dot_witness :
  Compose.getFileExtension "photo.final.png" = "png".
Proof.
  apply (getFileExtension_after_last_dot "photo.final" "png").
  - discriminate.
  - apply dotFree_intro. vm_compute. reflexivity.
  - vm_compute. reflexivity.
Defined.

(** X2: a name with no dot, and a name whose only dot is its first
    character, have no extension: [getFileExtension] is the empty string. *)
Theorem getFileExtension_none fileName rest :
  Compose.dotFree rest →
  fileName = rest ∨ fileName = "." +:+ rest →
  (Z.of_nat (String.length fileName) < 2 ^ 32)%Z →
  Compose.getFileExtension fileName = EmptyString.
Proof.
  intros Hfree Hname Hlen.
  unfold Compose.getFileExtension, Compose.lastIndexOf, Compose.slice.
  assert (Compose.lastIndexFrom "." fileName 0 (-1) = (-1)%Z
          ∨ Compose.lastIndexFrom "." fileName 0 (-1) = 0%Z) as [-> | ->].
  { destruct Hname as [-> | ->].
    - left. by apply lastIndexFrom_dotFree.
    - right. by rewrite (lastIndexFrom_last_dot EmptyString rest). }
  - change (Compose.toUint32 (-1 - 1) + 2)%Z with (2 ^ 32)%Z.
    destruct (_ <? 0)%Z eqn:Hneg; [lia|]. apply dropString_all. lia.
  - change (Compose.toUint32 (0 - 1) + 2)%Z with (2 ^ 32 + 1)%Z.
    destruct (_ <? 0)%Z eqn:Hneg; [lia|]. apply dropString_all. lia.
Qed.

Lemma getFileExtension_none_witness :
  Compose.getFileExtension ".gitignore" = EmptyString.
Proof.
  apply (getFileExtension_none ".gitignore" "gitignore").
  - apply dotFree_intro. vm_compute. reflexivity.
  - by right.
  - vm_compute. reflexivity.
Defined.


(** ** The inclusion filter over a sequence of calls *)

Lemma filterCall_cached w c s :
  is_Some (matchedFilesCache s) →
  wp (filterCall w c)
    (λ r s', r = Ok () ∧ trace s' = trace s ∧ is_Some (matchedFilesCache s')) s.
Proof.
  intros [m Hm]. destruct c as [f| |p]; cbn [filterCall].
  - unfold setInclusionFilter. wp_run. by rewrite Hm.
  - unfold clearCache. wp_run. rewrite Hm. done.
  - unfold shouldIncludeFile. wp_run. rewrite Hm. wp_run. by rewrite Hm.
Qed.

Lemma filterCalls_cached w calls :
  ∀ s, is_Some (matchedFilesCache s) →
       wp (filterCalls w calls) (λ r s', trace s' = trace s) s.
Proof.
  induction calls as [|c calls IH]; intros s Hm; cbn [filterCalls]; wp_run; [done|].
  eapply wp_mono; [by apply filterCall_cached|].
  intros r s1 (-> & Ht & Hm1). simpl. rewrite <- Ht. by apply IH.
Qed.

(** X3: over any sequence of [setInclusionFilter], [clearCache] and
    [shouldIncludeFile] calls, [glob] is called at most once, and not at all
    when the cache already holds a set: the matched set is computed by the
    first [shouldIncludeFile] and never again, whatever is cleared or set
    afterwards. *)
Theorem glob_called_at_most_once w calls s :
  ∃ t, trace (filterCalls w calls s).2 = trace s ++ t
       ∧ countGlobs t ≤ 1
       ∧ (is_Some (matchedFilesCache s) → t = []).
Proof.
  change (wp (filterCalls w calls)
            (λ _ s', ∃ t, trace s' = trace s ++ t ∧ countGlobs t ≤ 1
                          ∧ (is_Some (matchedFilesCache s) → t = [])) s).
  revert s. induction calls as [|c calls IH]; intros s.
  { apply wp_ret. exists []. rewrite app_nil_r. split; [done|].
    split; [unfold countGlobs; simpl; lia|done]. }
  destruct (matchedFilesCache s) as [m|] eqn:Hm.
  { eapply wp_mono; [apply filterCalls_cached; rewrite Hm; by eexists|].
    intros r s' Ht. exists []. rewrite app_nil_r. split; [done|].
    split; [unfold countGlobs; simpl; lia|done]. }
  assert (¬ is_Some (None : option (list string))) as Hnone by by intros [? ?].
  cbn [filterCalls]. apply wp_bind. destruct c as [f| |p]; cbn [filterCall].
  - unfold setInclusionFilter. wp_run. eapply wp_mono; [apply IH|].
    intros r s' (t & Ht & Hn & _). exists t. by repeat split.
  - unfold clearCache. wp_run. rewrite Hm. eapply wp_mono; [apply IH|].
    intros r s' (t & Ht & Hn & _). exists t. by repeat split.
  - unfold shouldIncludeFile. wp_run. rewrite Hm. wp_run.
    eapply wp_mono; [apply filterCalls_cached; by eexists|].
    intros r s' Ht. st_simpl_in Ht.
    exists [EvGlob (inclusionFilter s) (workspace s)].
    split; [done|]. split; [by vm_compute|done].
Qed.

(** ** [embedCodeGraph] *)

(** A loop of [map] whose rounds leave the state alone: it answers one
    result per element, or throws at an element that throws. *)
Lemma wp_mapM {A B} (f : A → M B) (P : A → B → Prop) (bad : A → Prop) l s :
  (∀ x, x ∈ l →
        wp (f x) (λ r s', s' = s ∧ match r with
                                   | Ok y => P x y
                                   | Throw _ => bad x
                                   | Diverges => False
                                   end) s) →
  wp (mapM f l) (λ r s', s' = s ∧ match r with
                                  | Ok ys => Forall2 P l ys
                                  | Throw _ => Exists bad l
                                  | Diverges => False
                                  end) s.
Proof.
  induction l as [|x l IH]; intros Hf; cbn [mapM].
  - apply wp_ret. split; [done|]. constructor.
  - apply wp_bind. eapply wp_mono; [apply Hf; by left|].
    intros [y|e|] s1 [-> Hr]; simpl; [| |done].
    + apply wp_bind. eapply wp_mono; [apply IH; intros; apply Hf; by right|].
      intros [ys|e|] s1 [-> Hr']; simpl; [| |done].
      * apply wp_ret. split; [done|]. by constructor.
      * split; [done|]. by apply Exists_cons_tl.
    + split; [done|]. by apply Exists_cons_hd.
Qed.

Lemma convertNodeId_spec w id s :
  wp (convertNodeId w id)
    (λ r s', s' = s ∧ match r with
                      | Ok _ => String.prefix "file://" id = true → isFileUrl w id
                      | Throw _ => String.prefix "file://" id = true
                                   ∧ ¬ isFileUrl w id
                      | Diverges => False
                      end) s.
Proof.
  unfold convertNodeId, isFileUrl. destruct (String.prefix "file://" id); wp_run.
  - destruct (fileURLToPath w id); wp_run; [by split|].
    intros e. split; [done|]. split; [done|]. by intros [? ?].
  - by split.
Qed.

Lemma relativeEdges_spec w edges s :
  wp (relativeEdges w edges)
    (λ r s', s' = s ∧ match r with
                      | Ok _ => Forall (isFileUrl w) (edgeIds edges)
                      | Throw _ => ¬ Forall (isFileUrl w) (edgeIds edges)
                      | Diverges => False
                      end) s.
Proof.
  unfold relativeEdges, edgeIds.
  eapply wp_mono.
  { apply (wp_mapM _
             (λ kv _, Forall (isFileUrl w)
                        (filter (λ id, String.prefix "file://" id = true) (kv.1 :: kv.2)))
             (λ kv, ¬ Forall (isFileUrl w)
                        (filter (λ id, String.prefix "file://" id = true) (kv.1 :: kv.2)))).
    intros [key value] _. cbn [fst snd]. apply wp_bind.
    eapply wp_mono; [apply convertNodeId_spec|].
    intros [k|e|] s1 [-> Hk]; simpl; [| |done].
    - apply wp_bind. eapply wp_mono.
      { apply (wp_mapM _ (λ id _, String.prefix "file://" id = true → isFileUrl w id)
                 (λ id, String.prefix "file://" id = true ∧ ¬ isFileUrl w id)).
        intros id _. apply convertNodeId_spec. }
      intros [vs|e|] s1 [-> Hvs]; simpl; [| |done].
      + apply wp_ret. split; [done|].
        apply Forall_forall. intros id [Hp Hin]%list_elem_of_filter.
        apply elem_of_cons in Hin as [->|Hin]; [by apply Hk|].
        clear Hk. induction Hvs as [|x y l l' Hx _ IH]; [by apply elem_of_nil in Hin|].
        apply elem_of_cons in Hin as [->|Hin]; [by apply Hx|by apply IH].
      + split; [done|]. intros Hall. apply Exists_exists in Hvs as (id & Hin & Hp & Hbad).
        apply Hbad. rewrite Forall_forall in Hall. apply Hall.
        apply list_elem_of_filter. split; [done|]. by right.
    - split; [done|]. intros Hall. destruct Hk as [Hp Hbad]. apply Hbad.
      rewrite Forall_forall in Hall. apply Hall.
      apply list_elem_of_filter. split; [done|]. by left. }
  intros r s' [-> Hr]. split; [done|].
  destruct r as [ys|e|]; [| |done].
  - apply Forall_forall. intros id [Hp Hin]%list_elem_of_filter.
    apply list_elem_of_join in Hin as (ids & Hin & Hids).
    apply list_elem_of_fmap in Hids as (kv & -> & Hkv).
    assert (Forall (isFileUrl w)
              (filter (λ id, String.prefix "file://" id = true) (kv.1 :: kv.2))) as Hall.
    { clear Hin. induction Hr as [|x y l l' Hx _ IH]; [by apply elem_of_nil in Hkv|].
      apply elem_of_cons in Hkv as [->|Hkv]; [done|by apply IH]. }
    rewrite Forall_forall in Hall. apply Hall. by apply list_elem_of_filter.
  - intros Hall. apply Exists_exists in Hr as (kv & Hkv & Hbad). apply Hbad.
    apply Forall_forall. intros id [Hp Hin]%list_elem_of_filter.
    rewrite Forall_forall in Hall. apply Hall. apply list_elem_of_filter.
    split; [done|]. apply list_elem_of_join. exists (kv.1 :: kv.2).
    split; [done|]. apply list_elem_of_fmap. by exists kv.
Qed.

Lemma substring_all s : String.substring 0 (String.length s) s = s.
Proof. induction s as [|c s IH]; [done|]. cbn. by rewrite IH. Qed.

Lemma strip_slash filePath :
  String.prefix "/" filePath = true →
  filePath = "/" +:+ String.substring 1 (String.length filePath - 1) filePath.
Proof.
  destruct filePath as [|c rest]; [done|]. cbn [String.prefix].
  match goal with |- context [Ascii.ascii_dec ?a c] =>
    destruct (Ascii.ascii_dec a c) as [<-|Hne]; [|done] end.
  intros _. replace (String.length (String _ rest) - 1) with (String.length rest)
    by (cbn [String.length]; lia).
  cbn [String.substring]. rewrite substring_all. reflexivity.
Qed.

Lemma embedCodeGraph_spec w skeletonNodes s :
  wp (embedCodeGraph w skeletonNodes)
    (λ r s',
       s' = s
       ∧ match r with
         | Ok (Some result) =>
             Forall2 (documentFor w s) skeletonNodes (codeDocs result)
             ∧ Forall (isFileUrl w) (convertedIds (codeGraph s) skeletonNodes)
         | Ok None => False
         | Throw _ => ¬ Forall (isFileUrl w) (convertedIds (codeGraph s) skeletonNodes)
         | Diverges => False
         end) s.
Proof.
  unfold embedCodeGraph, convertedIds. apply wp_bind. eapply wp_mono.
  { apply (wp_mapM _ (documentFor w s)
             (λ sk, ¬ Forall (isFileUrl w)
                      (default [] (Graph.getImportEdge (codeGraph s) (sk_id sk))))).
    intros sk _. wp_run. eapply wp_mono.
    { apply (wp_mapM _ (λ nodeId rel, ∃ p, fileURLToPath w nodeId = Some p
                                            ∧ rel = relative w (workspace s) p)
               (λ nodeId, ¬ isFileUrl w nodeId)).
      intros nodeId _. wp_run. unfold isFileUrl.
      destruct (fileURLToPath w nodeId) as [p|]; wp_run.
      - split; [done|]. by exists p.
      - intros e. split; [done|]. by intros [? ?]. }
    intros [related|e|] s1 [-> Hr]; simpl; [| |done].
    - apply wp_ret. split; [done|]. unfold documentFor. cbn.
      repeat split; try done. unfold withoutLeadingSlash.
      destruct (String.prefix "/" _) eqn:Hp; [|done]. by apply strip_slash.
    - split; [done|]. intros Hall. apply Exists_exists in Hr as (id & Hin & Hbad).
      apply Hbad. rewrite Forall_forall in Hall. by apply Hall. }
  assert (∀ docs, Forall2 (documentFor w s) skeletonNodes docs →
            Forall (isFileUrl w)
              (mjoin ((λ sk, default [] (Graph.getImportEdge (codeGraph s) (sk_id sk)))
                      <$> skeletonNodes))) as Hdocs.
  { intros docs Hall. induction Hall as [|sk d l l' Hd _ IH]; [constructor|].
    cbn. apply Forall_app. split; [|done].
    destruct Hd as (_ & _ & _ & _ & _ & _ & Hrel).
    induction Hrel as [|x y ? ? [p [Hp _]] _ IH']; constructor; [|done].
    by exists p. }
  assert (∀ sk, sk ∈ skeletonNodes →
            ¬ Forall (isFileUrl w)
                (default [] (Graph.getImportEdge (codeGraph s) (sk_id sk))) →
            ¬ Forall (isFileUrl w)
                (mjoin ((λ sk, default [] (Graph.getImportEdge (codeGraph s) (sk_id sk)))
                        <$> skeletonNodes))) as Hbad.
  { intros sk Hin Hno Hall. apply Hno. apply Forall_forall. intros id Hid.
    rewrite Forall_forall in Hall. apply Hall. apply list_elem_of_join.
    eexists. split; [done|]. apply list_elem_of_fmap. by exists sk. }
  intros [docs|e|] s1 [-> Hr]; simpl; [| |done].
  2:{ split; [done|]. apply Exists_exists in Hr as (sk & Hin & Hno).
      intros [Hall _]%Forall_app. by apply (Hbad sk). }
  wp_run. eapply wp_mono; [apply relativeEdges_spec|].
  intros [imports|e|] s1 [-> Hi]; simpl; [| |done].
  2:{ split; [done|]. by intros [_ [? _]%Forall_app]%Forall_app. }
  apply wp_bind. eapply wp_mono; [apply relativeEdges_spec|].
  intros [exports|e|] s1 [-> He]; simpl; [| |done].
  2:{ split; [done|]. by intros [_ [_ ?]%Forall_app]%Forall_app. }
  apply wp_ret. split; [done|]. split; [done|].
  apply Forall_app. split; [by eapply Hdocs|]. by apply Forall_app.
Qed.

(** X4: when [embedCodeGraph] returns, it has assembled exactly one document
    per skeleton node, in the order of the nodes; each carries the node's id,
    skeleton, parent id and range labels, the file path with one leading
    slash removed, and the workspace-relative paths of the node's import
    edges.  The Indexer is left as it was. *)
Theorem embedCodeGraph_documents w skeletonNodes s result s' :
  embedCodeGraph w skeletonNodes s = (Ok (Some result), s') →
  s' = s ∧ Forall2 (documentFor w s) skeletonNodes (codeDocs result).
Proof.
  intros Hrun.
  destruct (wp_run _ _ _ _ _ (embedCodeGraph_spec w skeletonNodes s) Hrun)
    as [-> [Hdocs _]].
  done.
Qed.

(** X5: [embedCodeGraph] never resolves to a falsy value and never changes
    the Indexer.  It returns a result when every id it converts with
    [fileURLToPath] (the import edges of the skeleton nodes, and the keys
    and values of both edge maps that start with [file://]) is a file URL,
    and it throws when one of them is not. *)
Theorem embedCodeGraph_result_or_throw w skeletonNodes s :
  (Forall (isFileUrl w) (convertedIds (codeGraph s) skeletonNodes) →
   ∃ result, embedCodeGraph w skeletonNodes s = (Ok (Some result), s))
  ∧ (¬ Forall (isFileUrl w) (convertedIds (codeGraph s) skeletonNodes) →
     ∃ e, embedCodeGraph w skeletonNodes s = (Throw e, s)).
Proof.
  pose proof (embedCodeGraph_spec w skeletonNodes s) as Hspec. unfold wp in Hspec.
  destruct (embedCodeGraph w skeletonNodes s) as [[[result|]|e|] s'];
    cbn [fst snd] in Hspec; destruct Hspec as [-> Hr]; try done.
  - split; [by exists result|]. intros Hno. by destruct Hr as [_ ?].
  - split; [done|]. by exists e.
Qed.

Lemma embedCodeGraph_documents_witness :
  let w := Examples.worldAB [] None in
  let s := Examples.indexer Examples.emptyGraph None in
  let skeletonNodes :=
    [Examples.generate (Examples.nodeAt "b.ts" "/b.ts#g" None) "export g"] in
  ∃ result,
    embedCodeGraph w skeletonNodes s = (Ok (Some result), s)
    ∧ md_filePath <$> (metadata <$> codeDocs result) = ["b.ts#g"]
    ∧ s = s
    ∧ Forall2 (documentFor w s) skeletonNodes (codeDocs result).
Proof.
  intros w s skeletonNodes. eexists.
  split; [vm_compute; reflexivity|]. split; [reflexivity|].
  apply (embedCodeGraph_documents w skeletonNodes s _ s).
  vm_compute. reflexivity.
Defined.


(** ** How the parts of a pass end *)

Lemma visitDocument_shape w d l s : wp (visitDocument w d l) (Visit w d l s) s.
Proof.
  unfold visitDocument. wp_run.
  destruct (decide (d ∈ alreadyVisited s)) as [Hv|Hv]; wp_run.
  { by constructor. }
  eapply wp_mono; [apply getFileFromSymbolTable_spec|].
  intros [[[file rel] hash]|e|] s1 [-> Hr]; simpl; [| |done].
  2:{ by apply visit_unreadable. }
  destruct Hr as (p & text & Hp & Htext & -> & -> & ->). wp_run.
  destruct (alreadyIndexed _ _ _) eqn:Hstale; wp_run.
  { by apply (visit_indexed w d l s p text). }
  rewrite Htext. wp_run.
  set (s2 := set_trace _ _).
  assert (s2 = zeroNodeVisit (relative w (workspace s) p) d s) as Hs2.
  { subst s2. state_eq. }
  destruct (createNodesFromDocument w d text) as [e| |nodes imports exports] eqn:Hparse;
    wp_run.
  - rewrite Hs2. by apply (visit_parse_throws w d l s p text).
  - rewrite Hs2. apply (visit_no_nodes w d l s p text); try done.
    rewrite Hparse. by left.
  - destruct nodes as [|n nodes]; wp_run.
    { rewrite Hs2. apply (visit_no_nodes w d l s p text); try done.
      rewrite Hparse. right. by eexists _, _. }
    pose proof (scanNodes_spec w d (n :: nodes)
                  (mkFrontier (relatedNodes l) (nodesToProcess l) []) s2) as Hscan.
    unfold wp in *.
    destruct (foldM (scanNode w d) _ (n :: nodes) s2) as [r s3] eqn:Hrun.
    cbn [fst snd] in *. rewrite Hs2 in Hrun.
    destruct r as [l'|e|]; simpl; [| |by destruct Hscan].
    + by apply (visit_scanned w d l s p text (n :: nodes) imports exports).
    + by apply (visit_scan_throws w d l s p text (n :: nodes) imports exports).
Qed.

Lemma skeletonizeCodeNodes_events w nodes s :
  wp (skeletonizeCodeNodes w nodes)
    (λ r s', quiet w s s' ∧ ∃ t, trace s' = trace s ++ t
                                 ∧ Forall isSkeletonizerEvent t) s.
Proof.
  eapply wp_mono; [apply skeletonizeCodeNodes_spec|].
  intros r s' (t & -> & Hev & _). split.
  - by apply quiet_set_trace, isSkeletonizerEvent_quiet.
  - by exists t.
Qed.

Lemma persistNodes_shape w fullBuild m s :
  wp (persistNodes w fullBuild m) (Persist w fullBuild s) s.
Proof.
  unfold persistNodes. destruct m as [|kn m].
  { apply wp_ret. apply (persist_no_save w fullBuild s _ s []);
      [apply quiet_refl|by rewrite app_nil_r|constructor|done]. }
  apply wp_bind. eapply wp_mono; [apply skeletonizeCodeNodes_events|].
  intros r s1 [Hq (t & Ht & Hev)].
  destruct r as [sks|e|]; simpl;
    [|by apply (persist_no_save w fullBuild s _ s1 t)..].
  destruct sks as [|sk sks].
  { apply wp_ret. by apply (persist_no_save w fullBuild s _ s1 t). }
  apply wp_bind. eapply wp_mono; [apply embedCodeGraph_spec|].
  intros [[result|]|e|] s2 [-> Hr]; simpl; [|done| |done].
  2:{ by apply (persist_no_save w fullBuild s _ s1 t). }
  wp_run. destruct Hr as [Hdocs _].
  set (args := mkSaveArgs _ _ _ _ _).
  assert (Persist w fullBuild s
            match save w (trace s1) args with
            | Some e => Throw e
            | None => Ok (Next ())
            end (set_trace (trace s1 ++ [EvSave args]) s1)) as Hp.
  { apply (persist_save w fullBuild s s1 t args); try done.
    - cbn. intros Hnil. rewrite Hnil in Hdocs. by apply Forall2_nil_inv_r in Hdocs.
    - cbn. by destruct Hq as (_ & _ & _ & -> & _). }
  destruct (save w (trace s1) args); simpl; wp_run; done.
Qed.

Lemma processDocument_gone w fullBuild d p s :
  d ∉ alreadyVisited s →
  fileURLToPath w d = Some p →
  existsSync w p = false →
  wp (processDocument w fullBuild d) (Gone w p s) s.
Proof.
  intros Hv Hp Hex. unfold processDocument. wp_run.
  rewrite decide_False by done. wp_run. rewrite Hp. wp_run.
  rewrite Hex. simpl negb. wp_run.
  destruct (findDocumentsByPath w _ _) as [e|docs] eqn:Hfind; simpl.
  { replace (set_trace _ _) with
      (set_trace (trace s ++ [EvExistsSync p;
                              EvFindDocumentsByPath [relative w (workspace s) p]]) s)
      by state_eq.
    by apply gone_lookup_fails. }
  destruct docs as [|doc docs]; wp_run.
  - replace (set_floating _ _) with (removedFile w p [] s)
      by (unfold removedFile; state_eq).
    apply gone_removed; [done|by left].
  - simpl trace. rewrite <- app_assoc. simpl app.
    destruct (deleteDocuments w _ _) as [e|] eqn:Hdel; simpl orThrow; wp_run.
    + replace (set_trace _ _) with
        (set_trace (trace s ++ [EvExistsSync p;
                                EvFindDocumentsByPath [relative w (workspace s) p];
                                EvDeleteDocuments (doc_id <$> doc :: docs)]) s)
        by state_eq.
      by apply (gone_deletion_fails w p s (doc :: docs)).
    + replace (set_floating _ _) with (removedFile w p (doc :: docs) s)
        by (unfold removedFile; state_eq).
      apply gone_removed; [done|by right].
Qed.

(** ** Invariants of a pass *)

(** [processDocuments] is its guard, then the loop over the batch from the
    state in which the flag is set and the per-pass maps are empty. *)
Lemma wp_processDocuments w documentUris fullBuild (Q : Res () → State → Prop) s :
  (nothingToIndex (workspace s) documentUris = true → Q (Ok ()) (set_syncing false s)) →
  (nothingToIndex (workspace s) documentUris = false →
   wp (forDocumentUris w fullBuild (default [] documentUris))
     (λ r s1, match r with
              | Ok Return => Q (Ok ()) s1
              | Ok (Next _) => Q (Ok ()) (set_syncing false s1)
              | Throw e => Q (Throw e) s1
              | Diverges => Q Diverges s1
              end) (passStart s)) →
  wp (processDocuments w documentUris fullBuild) Q s.
Proof.
  intros Hskip Hloop. unfold processDocuments. wp_run.
  destruct (nothingToIndex (workspace s) documentUris); wp_run; [by apply Hskip|].
  eapply wp_mono; [by apply Hloop|].
  intros [[[]|]|e|] s1 H; simpl; wp_run; done.
Qed.

Section PassInvariant.
Context (w : World) (fullBuild : bool).

(** [R]: what a part of the pass may do to the Indexer; [I top]: what
    holds of the frontier of the top-level identifier [top]; [Last]: the
    state in which the pass is left by [return]. *)
Variable isTop : string → Prop.
Variable R : State → State → Prop.
Variable I : string → State → FrontierLocals → Prop.
Variable Last : State → Prop.

Hypothesis R_refl : ∀ s, R s s.
Hypothesis R_trans : ∀ s1 s2 s3, R s1 s2 → R s2 s3 → R s1 s3.
Hypothesis R_exists : ∀ s p, R s (set_trace (trace s ++ [EvExistsSync p]) s).
Hypothesis R_logged : ∀ s d e, R s (set_trace (trace s ++ [EvConsoleError d e]) s).
Hypothesis I_init : ∀ top s, isTop top → I top s (mkFrontier [top] [] []).
Hypothesis R_visit : ∀ top d l s,
  isTop top → I top s l → d ∈ relatedNodes l →
  wp (visitDocument w d l)
    (λ r s', R s s' ∧ match r with
                      | Ok (Next l') => I top s' l'
                      | Ok Return => Last s'
                      | _ => True
                      end) s.
Hypothesis R_persist : ∀ m s,
  wp (persistNodes w fullBuild m) (λ r s', R s s' ∧ r ≠ Ok Return) s.
Hypothesis R_gone : ∀ d p s,
  isTop d → d ∉ alreadyVisited s →
  fileURLToPath w d = Some p → existsSync w p = false →
  wp (processDocument w fullBuild d) (λ r s', R s s' ∧ r ≠ Ok Return) s.

Lemma frontierLoop_invariant top :
  isTop top →
  ∀ fuel i l s,
    I top s l →
    wp (frontierLoop w fuel i l)
      (λ r s', R s s' ∧ match r with
                        | Ok (Next l') => I top s' l'
                        | Ok Return => Last s'
                        | _ => True
                        end) s.
Proof using R_refl R_trans R_visit.
  intros Htop fuel. induction fuel as [|fuel IH]; intros i l s Hl; cbn [frontierLoop].
  - destruct (relatedNodes l !! i); [by apply wp_diverge|by apply wp_ret].
  - destruct (relatedNodes l !! i) as [d|] eqn:Hd; [|by apply wp_ret].
    apply wp_bind. eapply wp_mono.
    { apply (R_visit top d l s); [done|done|]. by eapply list_elem_of_lookup_2. }
    intros [[l'|]|e|] s1 [HR Hr]; simpl; [| |done..].
    + eapply wp_mono; [by apply IH|].
      intros r s2 [HR2 Hr2]. split; [by eapply R_trans|done].
    + by apply wp_ret.
Qed.

Lemma processDocument_invariant d s :
  isTop d →
  wp (processDocument w fullBuild d)
    (λ r s', R s s' ∧ (r = Ok Return → Last s')) s.
Proof using All.
  intros Htop.
  destruct (decide (d ∈ alreadyVisited s)) as [Hv|Hv].
  { unfold processDocument. wp_run. rewrite decide_True by done. by wp_run. }
  destruct (fileURLToPath w d) as [p|] eqn:Hp.
  2:{ unfold processDocument. wp_run. rewrite decide_False by done. wp_run.
      rewrite Hp. by intros e. }
  destruct (existsSync w p) eqn:Hex.
  2:{ eapply wp_mono; [by apply (R_gone d p s)|]. intros r s' [HR Hr]. by split. }
  unfold processDocument. wp_run. rewrite decide_False by done. wp_run.
  rewrite Hp. wp_run. rewrite Hex. simpl negb. wp_run.
  eapply wp_mono; [apply (frontierLoop_invariant d Htop); by apply I_init|].
  intros [[l|]|e|] s1 [HR Hr]; simpl.
  - eapply wp_mono; [apply R_persist|]. intros r s2 [HR2 Hr2].
    split; [|done]. eapply R_trans; [apply R_exists|]. by eapply R_trans.
  - apply wp_ret. split; [|done]. eapply R_trans; [apply R_exists|done].
  - split; [|done]. eapply R_trans; [apply R_exists|done].
  - split; [|done]. eapply R_trans; [apply R_exists|done].
Qed.

Lemma forDocumentUris_invariant documentUris :
  Forall isTop documentUris →
  ∀ s, wp (forDocumentUris w fullBuild documentUris)
         (λ r s', R s s' ∧ (r = Ok Return → Last s')) s.
Proof using All.
  induction 1 as [|d rest Hd _ IH]; intros s; cbn [forDocumentUris].
  - by apply wp_ret.
  - apply wp_bind, wp_try_catch.
    eapply wp_mono; [by apply processDocument_invariant|].
    intros [[[]|]|e|] s1 [HR Hr]; simpl; [| | |done].
    + eapply wp_mono; [apply IH|]. intros r s2 [HR2 Hr2].
      split; [by eapply R_trans|done].
    + apply wp_ret. split; [done|auto].
    + wp_run. eapply wp_mono; [apply IH|]. intros r s2 [HR2 Hr2].
      split; [|done]. eapply R_trans; [done|]. eapply R_trans; [|done].
      unfold caught. destruct (instanceOfError e); [apply R_logged|apply R_refl].
Qed.
End PassInvariant.

(** ** No document is parsed twice in a pass *)

Lemma countParses_app d t1 t2 :
  countParses d (t1 ++ t2) = countParses d t1 + countParses d t2.
Proof. unfold countParses. by rewrite filter_app, length_app. Qed.

Lemma countParses_zero d t : EvCreateNodesFromDocument d ∉ t → countParses d t = 0.
Proof.
  unfold countParses. intros Hnot.
  destruct (filter _ t) as [|e l] eqn:Hf; [done|].
  assert (e ∈ filter (λ e, e = EvCreateNodesFromDocument d) t) as Hin
    by (rewrite Hf; by left).
  apply list_elem_of_filter in Hin as [-> Hin]. done.
Qed.

Lemma parsedOnce_refl s : parsedOnce s s.
Proof.
  split; [done|]. exists []. split; [by rewrite app_nil_r|].
  intros d. split; [unfold countParses; simpl; lia|]. by intros ?%elem_of_nil.
Qed.

Lemma parsedOnce_trans s1 s2 s3 : parsedOnce s1 s2 → parsedOnce s2 s3 → parsedOnce s1 s3.
Proof.
  intros [Hv1 (t1 & Ht1 & H1)] [Hv2 (t2 & Ht2 & H2)].
  split; [set_solver|]. exists (t1 ++ t2).
  split; [by rewrite Ht2, Ht1, app_assoc|].
  intros d. destruct (H1 d) as [Hc1 Hp1], (H2 d) as [Hc2 Hp2]. split.
  - rewrite countParses_app.
    destruct (decide (EvCreateNodesFromDocument d ∈ t1)) as [Hin|Hnin].
    + rewrite (countParses_zero d t2); [lia|].
      intros Hin2. destruct (Hp1 Hin) as [_ ?], (Hp2 Hin2) as [? _]. done.
    + rewrite (countParses_zero d t1) by done. lia.
  - intros [Hin|Hin]%elem_of_app.
    + destruct (Hp1 Hin). split; [done|set_solver].
    + destruct (Hp2 Hin). split; [set_solver|done].
Qed.

(** A step that parses nothing and unvisits nothing. *)
Lemma parsedOnce_no_parse s s' t :
  alreadyVisited s ⊆ alreadyVisited s' →
  trace s' = trace s ++ t →
  Forall (λ e, ¬ isParse e) t →
  parsedOnce s s'.
Proof.
  intros Hv Ht Hno. split; [done|]. exists t. split; [done|].
  assert (∀ d, EvCreateNodesFromDocument d ∉ t) as Hnot.
  { intros d Hin. rewrite Forall_forall in Hno. apply (Hno _ Hin). by exists d. }
  intros d. split; [rewrite countParses_zero by done; lia|].
  intros Hin. by destruct (Hnot d).
Qed.

Lemma quiet_not_parse t : Forall isQuiet t → Forall (λ e, ¬ isParse e) t.
Proof. intros H. eapply Forall_impl; [exact H|]. intros e He [d ->]. done. Qed.

Lemma quiet_parsedOnce w s s' : quiet w s s' → parsedOnce s s'.
Proof.
  intros (_ & _ & _ & _ & _ & Hv & _ & _ & t & Ht & Hq).
  apply (parsedOnce_no_parse s s' t); [by rewrite Hv|done|by apply quiet_not_parse].
Qed.

Lemma parsedOnce_zeroNodeVisit rel d s :
  d ∉ alreadyVisited s → parsedOnce s (zeroNodeVisit rel d s).
Proof.
  intros Hv. split; [unfold zeroNodeVisit; st_simpl; set_solver|].
  eexists. split; [unfold zeroNodeVisit; st_simpl; reflexivity|].
  intros d'. split.
  - change [EvGetTextDocument d; EvOnFileProcessing rel; EvGetTextDocument d;
            EvCreateNodesFromDocument d]
      with ([EvGetTextDocument d; EvOnFileProcessing rel; EvGetTextDocument d]
              ++ [EvCreateNodesFromDocument d]).
    rewrite countParses_app, (countParses_zero d' [_; _; _]).
    + unfold countParses.
      pose proof (length_filter (λ e, e = EvCreateNodesFromDocument d')
                    [EvCreateNodesFromDocument d]) as Hle.
      simpl in *. lia.
    + intros Hin. repeat (apply elem_of_cons in Hin as [Hin|Hin]; [congruence|]).
      by apply elem_of_nil in Hin.
  - intros Hin. assert (d' = d) as ->.
    { repeat (apply elem_of_cons in Hin as [Hin|Hin]; [congruence|]).
      by apply elem_of_nil in Hin. }
    split; [done|]. unfold zeroNodeVisit. st_simpl. set_solver.
Qed.

Lemma Visit_parsedOnce w d l s r s' : Visit w d l s r s' → parsedOnce s s'.
Proof.
  assert (parsedOnce s (visitedOnly d s)) as Hread.
  { apply (parsedOnce_no_parse _ _ [EvGetTextDocument d]);
      [unfold visitedOnly; st_simpl; set_solver|done|].
    apply Forall_singleton. by intros [? ?]. }
  destruct 1 as [Hv|e Hv _|p text Hv _ _ _|p text e Hv _ _ _|p text Hv _ _ _
                 |p text nodes imports exports e s3 Hv _ _ _ Hscan
                 |p text nodes imports exports l' s3 Hv _ _ _ _ _ Hscan];
    try done.
  - apply parsedOnce_refl.
  - by apply parsedOnce_zeroNodeVisit.
  - by apply parsedOnce_zeroNodeVisit.
  - eapply parsedOnce_trans; [by apply parsedOnce_zeroNodeVisit|].
    apply (quiet_parsedOnce w).
    by destruct (wp_run _ _ _ _ _ (scanNodes_spec w d nodes _ _) Hscan).
  - eapply parsedOnce_trans; [by apply parsedOnce_zeroNodeVisit|].
    eapply parsedOnce_trans.
    + apply (quiet_parsedOnce w).
      by destruct (wp_run _ _ _ _ _ (scanNodes_spec w d nodes _ _) Hscan).
    + apply (parsedOnce_no_parse _ _ []); [done|by rewrite app_nil_r|constructor].
Qed.

Lemma skeletonizerEvent_not_parse t :
  Forall isSkeletonizerEvent t → Forall (λ e, ¬ isParse e) t.
Proof. intros H. eapply Forall_impl; [exact H|]. intros e He [d ->]. done. Qed.

Lemma Persist_parsedOnce w fullBuild s r s' : Persist w fullBuild s r s' → parsedOnce s s'.
Proof.
  destruct 1 as [r s1 t Hq _ _ _|s1 t args Hq _ _ _ _ _].
  - by apply (quiet_parsedOnce w).
  - eapply parsedOnce_trans; [by apply (quiet_parsedOnce w)|].
    apply (parsedOnce_no_parse _ _ [EvSave args]); [done|done|].
    apply Forall_singleton. by intros [? ?].
Qed.

Lemma Gone_parsedOnce w p s r s' : Gone w p s r s' → parsedOnce s s'.
Proof.
  destruct 1 as [e _|docs e _ _ _|docs _ _].
  - eapply parsedOnce_no_parse; [done|done|].
    repeat (apply Forall_cons_2; [by intros [? ?]|]). constructor.
  - eapply parsedOnce_no_parse; [done|done|].
    repeat (apply Forall_cons_2; [by intros [? ?]|]). constructor.
  - eapply parsedOnce_no_parse; [done|unfold removedFile; st_simpl; reflexivity|].
    apply Forall_cons_2; [by intros [? ?]|]. apply Forall_cons_2; [by intros [? ?]|].
    apply Forall_app. split; [destruct docs|].
    + constructor.
    + apply Forall_singleton. by intros [? ?].
    + apply Forall_singleton. by intros [? ?].
Qed.

Lemma forDocumentUris_parsedOnce w fullBuild documentUris s :
  wp (forDocumentUris w fullBuild documentUris) (λ _ s', parsedOnce s s') s.
Proof.
  eapply wp_mono.
  { apply (forDocumentUris_invariant w fullBuild (λ _, True) parsedOnce
             (λ _ _ _, True) (λ _, True)); try done.
    - apply parsedOnce_refl.
    - apply parsedOnce_trans.
    - intros s0 p. apply (parsedOnce_no_parse _ _ [EvExistsSync p]); [done|done|].
      apply Forall_singleton. by intros [? ?].
    - intros s0 d e. apply (parsedOnce_no_parse _ _ [EvConsoleError d e]); [done|done|].
      apply Forall_singleton. by intros [? ?].
    - intros _ d l s0 _ _ _. eapply wp_mono; [apply visitDocument_shape|].
      intros r s' Hv. split; [by eapply Visit_parsedOnce|by destruct r as [[]| |]].
    - intros m s0. eapply wp_mono; [apply persistNodes_shape|].
      intros r s' Hp. split; [by eapply Persist_parsedOnce|].
      destruct Hp as [| ]; [done|]. by destruct (save _ _ _).
    - intros d p s0 _ Hv Hp Hex. eapply wp_mono; [by apply processDocument_gone|].
      intros r s' Hg. split; [by eapply Gone_parsedOnce|]. by destruct Hg.
    - by apply Forall_true. }
  by intros r s' [? _].
Qed.

(** X6: in one pass no document is parsed twice: whatever the batch and
    however the files refer to each other, [createNodesFromDocument] is
    called at most once for each document. *)
Theorem processDocuments_parses_once w documentUris fullBuild s :
  ∃ t, trace (processDocuments w documentUris fullBuild s).2 = trace s ++ t
       ∧ ∀ d, countParses d t ≤ 1.
Proof.
  change (wp (processDocuments w documentUris fullBuild)
            (λ _ s', ∃ t, trace s' = trace s ++ t ∧ ∀ d, countParses d t ≤ 1) s).
  apply wp_processDocuments.
  - intros _. exists []. st_simpl. split; [by rewrite app_nil_r|].
    intros d. unfold countParses. simpl. lia.
  - intros _. eapply wp_mono; [apply forDocumentUris_parsedOnce|].
    intros r s1 [_ (t & Ht & Hd)].
    assert (∃ t, trace s1 = trace s ++ t ∧ ∀ d, countParses d t ≤ 1) as Hgoal.
    { exists t. split; [done|]. intros d. by destruct (Hd d). }
    by destruct r as [[[]|]|e|].
Qed.

(** ** An identifier listed twice *)

Lemma Visit_marks w d l s r s' : Visit w d l s r s' → d ∈ alreadyVisited s'.
Proof.
  assert (∀ rel, d ∈ alreadyVisited (zeroNodeVisit rel d s)) as Hzero.
  { intros rel. unfold zeroNodeVisit. st_simpl. set_solver. }
  assert (d ∈ alreadyVisited (visitedOnly d s)) as Hread.
  { unfold visitedOnly. st_simpl. set_solver. }
  destruct 1 as [Hv|e Hv _|p text Hv _ _ _|p text e Hv _ _ _|p text Hv _ _ _
                 |p text nodes imports exports e s3 Hv _ _ _ Hscan
                 |p text nodes imports exports l' s3 Hv _ _ _ _ _ Hscan];
    try done.
  - destruct (wp_run _ _ _ _ _ (scanNodes_spec w d nodes _ _) Hscan)
      as [(_ & _ & _ & _ & _ & Hv3 & _) _].
    rewrite Hv3. apply Hzero.
  - destruct (wp_run _ _ _ _ _ (scanNodes_spec w d nodes _ _) Hscan)
      as [(_ & _ & _ & _ & _ & Hv3 & _) _].
    st_simpl. rewrite Hv3. apply Hzero.
Qed.

Lemma visitDocument_parsedOnce w d l s :
  wp (visitDocument w d l)
    (λ _ s', parsedOnce s s' ∧ d ∈ alreadyVisited s') s.
Proof.
  eapply wp_mono; [apply visitDocument_shape|].
  intros r s' Hv. split; [by eapply Visit_parsedOnce|by eapply Visit_marks].
Qed.

Lemma persistNodes_parsedOnce w fullBuild m s :
  wp (persistNodes w fullBuild m) (λ r s', parsedOnce s s' ∧ r ≠ Ok Return) s.
Proof.
  eapply wp_mono; [apply persistNodes_shape|].
  intros r s' Hp. split; [by eapply Persist_parsedOnce|].
  destruct Hp as [| ]; [done|]. by destruct (save _ _ _).
Qed.

(** Once the file of [d] is on disk, the body of [try] for [d] leaves [d]
    visited. *)
Lemma processDocument_marks w fullBuild d p s :
  fileURLToPath w d = Some p →
  existsSync w p = true →
  wp (processDocument w fullBuild d)
    (λ _ s', parsedOnce s s' ∧ d ∈ alreadyVisited s') s.
Proof.
  intros Hp Hex. unfold processDocument. wp_run.
  destruct (decide (d ∈ alreadyVisited s)) as [Hv|Hv]; wp_run.
  { split; [apply parsedOnce_refl|done]. }
  rewrite Hp. wp_run. rewrite Hex. simpl negb. wp_run.
  assert (parsedOnce s (set_trace (trace s ++ [EvExistsSync p]) s)) as H0.
  { apply (parsedOnce_no_parse _ _ [EvExistsSync p]); [done|done|].
    apply Forall_singleton. by intros [? ?]. }
  cbn [frontierLoop relatedNodes lookup list_lookup].
  apply wp_bind. eapply wp_mono; [apply visitDocument_parsedOnce|].
  assert (∀ s1 s2, parsedOnce (set_trace (trace s ++ [EvExistsSync p]) s) s1 →
                   d ∈ alreadyVisited s1 → parsedOnce s1 s2 →
                   parsedOnce s s2 ∧ d ∈ alreadyVisited s2) as Hend.
  { intros s1 s2 H1 Hd H2. split.
    - eapply parsedOnce_trans; [done|]. by eapply parsedOnce_trans.
    - destruct H2 as [Hsub _]. set_solver. }
  intros [[l'|]|e|] s1 [H1 Hd]; wp_run.
  - eapply wp_mono.
    { apply (frontierLoop_invariant w (λ _, True) parsedOnce (λ _ _ _, True)
               (λ _, True) parsedOnce_refl parsedOnce_trans); try done.
      intros _ d' l0 s0 _ _ _. eapply wp_mono; [apply visitDocument_parsedOnce|].
      intros r s' [? ?]. split; [done|]. by destruct r as [[]| |]. }
    intros [[l2|]|e|] s2 [H2 _]; wp_run.
    + eapply wp_mono; [apply persistNodes_parsedOnce|].
      intros r s3 [H3 _]. destruct (Hend s1 s2 H1 Hd H2) as [H02 Hd2].
      split; [by eapply parsedOnce_trans|]. destruct H3 as [Hsub _]. set_solver.
    + by apply (Hend s1).
    + by apply (Hend s1).
    + by apply (Hend s1).
  - apply (Hend s1 s1); [done|done|apply parsedOnce_refl].
  - apply (Hend s1 s1); [done|done|apply parsedOnce_refl].
  - apply (Hend s1 s1); [done|done|apply parsedOnce_refl].
Qed.

(** What the [try] and [catch] for one identifier keep. *)
Lemma tryDocument_parsedOnce w fullBuild d s :
  wp (try_catch (processDocument w fullBuild d) (logError d))
    (λ _ s', parsedOnce s s') s.
Proof.
  pose proof (forDocumentUris_parsedOnce w fullBuild [d] s) as H.
  unfold wp in *. rewrite forDocumentUris_cons in H.
  by destruct (try_catch _ _ s) as [[[[]|]|e|] s'].
Qed.

Lemma forDocumentUris_visited w fullBuild d documentUris :
  ∀ s, d ∈ alreadyVisited s →
       forDocumentUris w fullBuild documentUris s
       = forDocumentUris w fullBuild (filter (λ x, x ≠ d) documentUris) s.
Proof.
  induction documentUris as [|x rest IH]; intros s Hd; [done|].
  destruct (decide (x = d)) as [->|Hne].
  - rewrite filter_cons_False by naive_solver. rewrite <- IH by done.
    rewrite forDocumentUris_cons.
    assert (processDocument w fullBuild d s = (Ok (Next ()), s)) as Hskip.
    { apply wp_eq. unfold processDocument. wp_run. rewrite decide_True by done.
      by wp_run. }
    unfold try_catch. by rewrite Hskip.
  - rewrite filter_cons_True by done. rewrite !forDocumentUris_cons.
    pose proof (tryDocument_parsedOnce w fullBuild x s) as [Hsub _].
    destruct (try_catch _ _ s) as [[[[]|]|e|] s']; try done.
    apply IH. cbn [fst snd] in Hsub. set_solver.
Qed.

Lemma processDocuments_unfold w documentUris fullBuild s :
  processDocuments w documentUris fullBuild s
  = if nothingToIndex (workspace s) documentUris then (Ok (), set_syncing false s)
    else match forDocumentUris w fullBuild (default [] documentUris) (passStart s) with
         | (Ok (Next _), s1) => (Ok (), set_syncing false s1)
         | (Ok Return, s1) => (Ok (), s1)
         | (Throw e, s1) => (Throw e, s1)
         | (Diverges, s1) => (Diverges, s1)
         end.
Proof.
  assert (∀ x, wp (processDocuments w documentUris fullBuild)
                 (λ r0 s0, (r0, s0) = x) s →
               processDocuments w documentUris fullBuild s = x) as Heq.
  { intros x. unfold wp. by destruct (processDocuments _ _ _ _). }
  apply Heq, wp_processDocuments.
  - by intros ->.
  - intros ->. unfold wp.
    by destruct (forDocumentUris _ _ _ _) as [[[[]|]|e|] s1].
Qed.

(** X7: an identifier whose file is on disk is processed once however often
    the batch lists it: the pass on a batch that starts with [d] is the pass
    on that batch without the later occurrences of [d]. *)
Theorem processDocuments_duplicate_identifier w s d p documentUris fullBuild :
  fileURLToPath w d = Some p →
  existsSync w p = true →
  processDocuments w (Some (d :: documentUris)) fullBuild s
  = processDocuments w (Some (d :: filter (λ x, x ≠ d) documentUris)) fullBuild s.
Proof.
  intros Hp Hex.
  assert (∀ s0, forDocumentUris w fullBuild (d :: documentUris) s0
                = forDocumentUris w fullBuild (d :: filter (λ x, x ≠ d) documentUris) s0)
    as Hloop.
  { intros s0. rewrite !forDocumentUris_cons.
    pose proof (processDocument_marks w fullBuild d p s0 Hp Hex) as Hmark.
    unfold wp in Hmark. unfold try_catch.
    destruct (processDocument w fullBuild d s0) as [[[[]|]|e|] s1]; try done.
    - apply forDocumentUris_visited. by destruct Hmark.
    - cbn [fst snd] in Hmark. rewrite logError_run.
      apply forDocumentUris_visited. destruct Hmark as [_ Hin].
      unfold caught. by destruct (instanceOfError e). }
  rewrite !processDocuments_unfold. cbn [default]. rewrite Hloop.
  assert (nothingToIndex (workspace s) (Some (d :: documentUris))
          = nothingToIndex (workspace s)
              (Some (d :: filter (λ x, x ≠ d) documentUris))) as <- by done.
  done.
Qed.

Lemma processDocuments_duplicate_identifier_witness :
  let w := Examples.worldAB [] None in
  let s := Examples.indexer Examples.emptyGraph None in
  processDocuments w (Some ["a.ts"; "b.ts"; "a.ts"]) false s
  = processDocuments w (Some ["a.ts"; "b.ts"]) false s.
Proof.
  intros w s.
  apply (processDocuments_duplicate_identifier w s "a.ts" "a.ts" ["b.ts"; "a.ts"] false).
  - reflexivity.
  - vm_compute. reflexivity.
Defined.

(** ** The calls of each part of a pass *)

Lemma matchedSet_same w s s' :
  workspace s' = workspace s → inclusionFilter s' = inclusionFilter s →
  matchedFilesCache s' = matchedFilesCache s → matchedSet w s' = matchedSet w s.
Proof. unfold matchedSet. by intros -> -> ->. Qed.

Lemma quiet_sameIndexer w s s' : quiet w s s' → sameIndexer w s s'.
Proof. by intros (? & _ & ? & _ & _ & _ & _ & ? & _). Qed.

Lemma sameIndexer_trans w s1 s2 s3 :
  sameIndexer w s1 s2 → sameIndexer w s2 s3 → sameIndexer w s1 s3.
Proof. intros (? & ? & ?) (? & ? & ?). repeat split; congruence. Qed.

Lemma Visit_events w d l s r s' :
  Visit w d l s r s' →
  sameIndexer w s s'
  ∧ ∃ t, trace s' = trace s ++ t
         ∧ Forall (visitEvent d) t
         ∧ (EvCreateNodesFromDocument d ∈ t → d ∉ alreadyVisited s).
Proof.
  assert (∀ rel, sameIndexer w s (zeroNodeVisit rel d s)) as Hzero by done.
  assert (∀ rel, Forall (visitEvent d)
                   [EvGetTextDocument d; EvOnFileProcessing rel;
                    EvGetTextDocument d; EvCreateNodesFromDocument d]) as Hpre.
  { intros rel. apply Forall_cons_2; [by left|].
    apply Forall_cons_2; [right; left; by eexists|].
    apply Forall_cons_2; [by left|].
    apply Forall_cons_2; [by right; right|]. apply Forall_nil_2. }
  assert (Forall (visitEvent d) [EvGetTextDocument d]) as Hread.
  { apply Forall_singleton. by left. }
  assert (∀ s3 r3 nodes l0 rel,
            foldM (scanNode w d) l0 nodes (zeroNodeVisit rel d s) = (r3, s3) →
            sameIndexer w s s3
            ∧ ∃ t, trace s3 = trace s ++ t ∧ Forall (visitEvent d) t) as Hscanned.
  { intros s3 r3 nodes l0 rel Hscan.
    destruct (wp_run _ _ _ _ _ (scanNodes_spec w d nodes _ _) Hscan) as [Hq _].
    split; [eapply sameIndexer_trans; [apply (Hzero rel)|by apply quiet_sameIndexer]|].
    destruct Hq as (_ & _ & _ & _ & _ & _ & _ & _ & t3 & Ht3 & Hq3).
    eexists (_ ++ t3). split.
    - rewrite Ht3. unfold zeroNodeVisit. st_simpl. by rewrite <- app_assoc.
    - apply Forall_app. split; [apply (Hpre rel)|].
      eapply Forall_impl; [exact Hq3|]. by left. }
  destruct 1 as [Hv|e Hv _|p text Hv _ _ _|p text e Hv _ _ _|p text Hv _ _ _
                 |p text nodes imports exports e s3 Hv _ _ _ Hscan
                 |p text nodes imports exports l' s3 Hv _ _ _ _ _ Hscan].
  - split; [done|]. exists []. rewrite app_nil_r. split; [done|]. split; [constructor|].
    by intros ?%elem_of_nil.
  - split; [done|]. by exists [EvGetTextDocument d].
  - split; [done|]. by exists [EvGetTextDocument d].
  - split; [done|]. eexists. split; [unfold zeroNodeVisit; st_simpl; reflexivity|].
    split; [apply Hpre|done].
  - split; [done|]. eexists. split; [unfold zeroNodeVisit; st_simpl; reflexivity|].
    split; [apply Hpre|done].
  - destruct (Hscanned _ _ _ _ _ Hscan) as [Hsame (t & Ht & Hev)].
    split; [done|]. by exists t.
  - destruct (Hscanned _ _ _ _ _ Hscan) as [Hsame (t & Ht & Hev)].
    split; [done|]. by exists t.
Qed.

Lemma Persist_events w fullBuild s r s' :
  Persist w fullBuild s r s' →
  sameIndexer w s s'
  ∧ ∃ t, trace s' = trace s ++ t ∧ Forall (persistEvent fullBuild) t.
Proof.
  destruct 1 as [r s1 t Hq Ht Hev _|s1 t args Hq Ht Hev Hdocs Hinc _].
  - split; [by apply quiet_sameIndexer|]. exists t. split; [done|].
    eapply Forall_impl; [exact Hev|]. by left.
  - split; [exact (quiet_sameIndexer w s s1 Hq)|]. exists (t ++ [EvSave args]).
    split; [st_simpl; by rewrite Ht, app_assoc|].
    apply Forall_app. split; [eapply Forall_impl; [exact Hev|]; by left|].
    apply Forall_singleton. right. by exists args.
Qed.

Lemma Gone_events w p s r s' :
  Gone w p s r s' →
  sameIndexer w s s'
  ∧ alreadyVisited s' = alreadyVisited s
  ∧ ∃ t, trace s' = trace s ++ t ∧ Forall removalEvent t.
Proof.
  destruct 1 as [e _|docs e _ _ _|docs _ _].
  - split; [done|]. split; [done|]. eexists. split; [done|].
    by repeat apply Forall_cons_2.
  - split; [done|]. split; [done|]. eexists. split; [done|].
    by repeat apply Forall_cons_2.
  - split; [done|]. split; [done|]. eexists.
    split; [unfold removedFile; st_simpl; reflexivity|].
    apply Forall_cons_2; [done|]. apply Forall_cons_2; [done|].
    apply Forall_app. split; [destruct docs|]; by repeat apply Forall_cons_2.
Qed.

(** ** The calls of a pass, and how it is left *)

Lemma passCalls_refl w fullBuild s : passCalls w fullBuild s s.
Proof. split; [done|]. exists []. by rewrite app_nil_r. Qed.

Lemma passCalls_trans w fullBuild s1 s2 s3 :
  passCalls w fullBuild s1 s2 → passCalls w fullBuild s2 s3 →
  passCalls w fullBuild s1 s3.
Proof.
  intros [H1 (t1 & Ht1 & He1)] [H2 (t2 & Ht2 & He2)].
  split; [by eapply sameIndexer_trans|]. exists (t1 ++ t2).
  split; [by rewrite Ht2, Ht1, app_assoc|]. by apply Forall_app.
Qed.

Lemma forDocumentUris_passCalls w fullBuild documentUris s :
  wp (forDocumentUris w fullBuild documentUris)
    (λ r s', passCalls w fullBuild s s' ∧ (r = Ok Return → endedByEmptyParse w s')) s.
Proof.
  apply (forDocumentUris_invariant w fullBuild (λ _, True) (passCalls w fullBuild)
           (λ _ _ _, True) (endedByEmptyParse w)); try done.
  - apply passCalls_refl.
  - apply passCalls_trans.
  - intros s0 p. split; [done|]. exists [EvExistsSync p]. split; [done|].
    apply Forall_singleton. right. right. by left.
  - intros s0 d e. split; [done|]. exists [EvConsoleError d e]. split; [done|].
    apply Forall_singleton. right. right. right. by eexists _, _.
  - intros _ d l s0 _ _ _. eapply wp_mono; [apply visitDocument_shape|].
    intros r s' Hv. destruct (Visit_events _ _ _ _ _ _ Hv) as [Hsame (t & Ht & Hev & _)].
    split.
    + split; [done|]. exists t. split; [done|].
      eapply Forall_impl; [exact Hev|]. intros e He. left. by exists d.
    + destruct r as [[l'|]| |]; try done.
      inversion Hv as [| | | |p text Hv0 Hp Htext Hzero| |]; subst.
      exists d, text, (trace s0 ++ [EvGetTextDocument d;
                                    EvOnFileProcessing (relative w (workspace s0) p);
                                    EvGetTextDocument d]).
      split; [|done]. unfold zeroNodeVisit. st_simpl. by rewrite <- app_assoc.
  - intros m s0. eapply wp_mono; [apply persistNodes_shape|].
    intros r s' Hp. destruct (Persist_events _ _ _ _ _ Hp) as [Hsame (t & Ht & Hev)].
    split.
    + split; [done|]. exists t. split; [done|].
      eapply Forall_impl; [exact Hev|]. intros e He. right. by left.
    + destruct Hp as [| ]; [done|]. by destruct (save _ _ _).
  - intros d p s0 _ Hv Hp Hex. eapply wp_mono; [by apply processDocument_gone|].
    intros r s' Hg. destruct (Gone_events _ _ _ _ _ Hg) as (Hsame & _ & t & Ht & Hev).
    split.
    + split; [done|]. exists t. split; [done|].
      eapply Forall_impl; [exact Hev|]. intros e He. right. right. by left.
    + by destruct Hg.
  - by apply Forall_true.
Qed.

(** X9: every [save] of a pass carries at least one document, and is
    incremental exactly when the pass is not a full build. *)
Theorem processDocuments_saves w documentUris fullBuild s :
  ∃ t, trace (processDocuments w documentUris fullBuild s).2 = trace s ++ t
       ∧ ∀ args, EvSave args ∈ t →
                 save_documents args ≠ []
                 ∧ save_incremental args = negb fullBuild.
Proof.
  change (wp (processDocuments w documentUris fullBuild)
            (λ _ s', ∃ t, trace s' = trace s ++ t
                          ∧ ∀ args, EvSave args ∈ t →
                                    save_documents args ≠ []
                                    ∧ save_incremental args = negb fullBuild) s).
  apply wp_processDocuments.
  - intros _. exists []. st_simpl. split; [by rewrite app_nil_r|].
    by intros args ?%elem_of_nil.
  - intros _. eapply wp_mono; [apply forDocumentUris_passCalls|].
    intros r s1 [[_ (t & Ht & Hev)] _].
    assert (∃ t, trace s1 = trace s ++ t
                 ∧ ∀ args, EvSave args ∈ t →
                           save_documents args ≠ []
                           ∧ save_incremental args = negb fullBuild) as Hgoal.
    { exists t. split; [done|]. intros args Hin.
      rewrite Forall_forall in Hev.
      destruct (Hev _ Hin) as [[d Hv]|[Hp|[Hr|(d & err & [=])]]]; [| |done].
      - by destruct Hv as [?|[[? [=]]|[=]]].
      - by destruct Hp as [?|(args' & [= <-] & Hgood)]. }
    by destruct r as [[[]|]|e|].
Qed.


(** ** The inclusion filter gates what a pass parses *)

Lemma inFilter_same w s s' u :
  sameIndexer w s s' → inFilter w s u → inFilter w s' u.
Proof. intros (Hw & _ & Hm) (p & Hp & Hin). exists p. by rewrite Hw, Hm. Qed.

Lemma parsesFiltered_refl w isTop s : parsesFiltered w isTop s s.
Proof.
  split; [done|]. split; [done|]. exists []. split; [by rewrite app_nil_r|].
  by intros u ?%elem_of_nil.
Qed.

Lemma parsesFiltered_trans w isTop s1 s2 s3 :
  parsesFiltered w isTop s1 s2 → parsesFiltered w isTop s2 s3 →
  parsesFiltered w isTop s1 s3.
Proof.
  intros (Hw1 & Hm1 & t1 & Ht1 & H1) (Hw2 & Hm2 & t2 & Ht2 & H2).
  split; [congruence|]. split; [congruence|]. exists (t1 ++ t2).
  split; [by rewrite Ht2, Ht1, app_assoc|].
  intros u [Hin|Hin]%elem_of_app; [by apply H1|].
  destruct (H2 u Hin) as [?|(p & Hp & Hf)]; [by left|].
  right. exists p. by rewrite <- Hw1, <- Hm1.
Qed.

Lemma parsesFiltered_no_parse w isTop s s' t :
  sameIndexer w s s' →
  trace s' = trace s ++ t →
  Forall (λ e, ¬ isParse e) t →
  parsesFiltered w isTop s s'.
Proof.
  intros (Hw & _ & Hm) Ht Hno. split; [done|]. split; [done|]. exists t.
  split; [done|]. intros u Hin. rewrite Forall_forall in Hno.
  destruct (Hno _ Hin). by exists u.
Qed.

Lemma expandFrontier_elem w s d nodes :
  ∀ rel u, u ∈ expandFrontier w s d nodes rel → u ∈ rel ∨ wanted w s u = true.
Proof.
  unfold expandFrontier. induction nodes as [|n nodes IH]; intros rel u; [by left|].
  cbn [foldl]. intros [Hin|Hw]%IH; [|by right].
  destruct (bool_decide _ && wanted w s (uri (node_location n))) eqn:Hn; [|by left].
  unfold set_add in Hin. case_decide; [by left|].
  apply elem_of_app in Hin as [Hin| ->%list_elem_of_singleton]; [by left|].
  right. by apply andb_true_iff in Hn as [_ ?].
Qed.

Lemma wanted_inFilter w s u : wanted w s u = true → inFilter w s u.
Proof.
  unfold wanted, inFilter. destruct (fileURLToPath w u) as [p|]; [|done].
  destruct (textDocuments w !! u); [|done].
  intros [Hin _]%andb_true_iff. exists p. split; [done|].
  by apply bool_decide_eq_true in Hin.
Qed.

Lemma persistEvent_not_parse fullBuild t :
  Forall (persistEvent fullBuild) t → Forall (λ e, ¬ isParse e) t.
Proof.
  intros H. eapply Forall_impl; [exact H|]. intros e He [d ->].
  by destruct He as [?|(args & [=] & _)].
Qed.

Lemma removalEvent_not_parse t :
  Forall removalEvent t → Forall (λ e, ¬ isParse e) t.
Proof. intros H. eapply Forall_impl; [exact H|]. by intros e He [d ->]. Qed.

Lemma forDocumentUris_parsesFiltered w fullBuild (isTop : string → Prop) documentUris s :
  Forall isTop documentUris →
  wp (forDocumentUris w fullBuild documentUris)
    (λ _ s', parsesFiltered w isTop s s') s.
Proof.
  intros Htops. eapply wp_mono.
  { apply (forDocumentUris_invariant w fullBuild isTop (parsesFiltered w isTop)
             (λ top s0 l, Forall (λ u, u = top ∨ inFilter w s0 u) (relatedNodes l))
             (λ _, True)); try done.
    - apply parsesFiltered_refl.
    - apply parsesFiltered_trans.
    - intros s0 p. apply (parsesFiltered_no_parse _ _ _ _ [EvExistsSync p]); [done|done|].
      apply Forall_singleton. by intros [? ?].
    - intros s0 d e.
      apply (parsesFiltered_no_parse _ _ _ _ [EvConsoleError d e]); [done|done|].
      apply Forall_singleton. by intros [? ?].
    - intros top s0 _. cbn [relatedNodes]. apply Forall_singleton. by left.
    - intros top d l s0 Htop Hl Hd. eapply wp_mono; [apply visitDocument_shape|].
      intros r s' Hv.
      destruct (Visit_events _ _ _ _ _ _ Hv) as [Hsame (t & Ht & Hev & _)].
      assert (isTop d ∨ inFilter w s0 d) as Hdoc.
      { rewrite Forall_forall in Hl. destruct (Hl d Hd) as [-> |?]; [by left|by right]. }
      split.
      + destruct Hsame as (Hw & _ & Hm). split; [done|]. split; [done|].
        exists t. split; [done|]. intros u Hin. rewrite Forall_forall in Hev.
        destruct (Hev _ Hin) as [?|[[? [=]]|[= ->]]]; done.
      + destruct r as [[l'|]| |]; try done.
        assert (∀ u, u = top ∨ inFilter w s0 u → u = top ∨ inFilter w s' u) as Hkeep.
        { intros u [-> |Hu]; [by left|right; by eapply inFilter_same]. }
        inversion Hv as [| |p text| | |
                         |p text nodes imports exports l0 s3 Hv0 Hp Htext Hstale
                            Hparse Hne Hscan]; subst.
        * eapply Forall_impl; [exact Hl|]. exact Hkeep.
        * eapply Forall_impl; [exact Hl|]. exact Hkeep.
        * destruct (wp_run _ _ _ _ _ (scanNodes_spec w d nodes _ _) Hscan)
            as [Hq [Hrel _]].
          apply Forall_forall. intros u Hu. rewrite Hrel in Hu. cbn [relatedNodes] in Hu.
          apply expandFrontier_elem in Hu as [Hu|Hu].
          -- rewrite Forall_forall in Hl. by apply Hkeep, Hl.
          -- right. apply wanted_inFilter in Hu.
             eapply inFilter_same; [|exact Hu].
             eapply sameIndexer_trans; [|exact Hsame]. by repeat split.
    - intros m s0. eapply wp_mono; [apply persistNodes_shape|].
      intros r s' Hp. destruct (Persist_events _ _ _ _ _ Hp) as [Hsame (t & Ht & Hev)].
      split.
      + eapply parsesFiltered_no_parse; [done|done|by eapply persistEvent_not_parse].
      + destruct Hp as [| ]; [done|]. by destruct (save _ _ _).
    - intros d p s0 _ Hv Hp Hex. eapply wp_mono; [by apply processDocument_gone|].
      intros r s' Hg. destruct (Gone_events _ _ _ _ _ Hg) as (Hsame & _ & t & Ht & Hev).
      split.
      + eapply parsesFiltered_no_parse; [done|done|by eapply removalEvent_not_parse].
      + by destruct Hg. }
  by intros r s' [? _].
Qed.

(** X10: a pass parses only the identifiers of its batch and documents whose
    relative path is in the matched set of the inclusion filter: a file the
    filter excludes is parsed only when the batch names it. *)
Theorem processDocuments_parses_filtered w documentUris fullBuild s :
  ∃ t, trace (processDocuments w documentUris fullBuild s).2 = trace s ++ t
       ∧ ∀ u, EvCreateNodesFromDocument u ∈ t →
              u ∈ default [] documentUris ∨ inFilter w s u.
Proof.
  change (wp (processDocuments w documentUris fullBuild)
            (λ _ s', ∃ t, trace s' = trace s ++ t
                          ∧ ∀ u, EvCreateNodesFromDocument u ∈ t →
                                 u ∈ default [] documentUris ∨ inFilter w s u) s).
  apply wp_processDocuments.
  - intros _. exists []. st_simpl. split; [by rewrite app_nil_r|].
    by intros u ?%elem_of_nil.
  - intros _. eapply wp_mono.
    { apply (forDocumentUris_parsesFiltered w fullBuild
               (λ u, u ∈ default [] documentUris)).
      by apply Forall_forall. }
    intros r s1 (_ & _ & t & Ht & Hparse).
    assert (∃ t, trace s1 = trace s ++ t
                 ∧ ∀ u, EvCreateNodesFromDocument u ∈ t →
                        u ∈ default [] documentUris ∨ inFilter w s u) as Hgoal.
    { exists t. split; [done|]. intros u Hin.
      destruct (Hparse u Hin) as [?|(p & Hp & Hf)]; [by left|].
      right. by exists p. }
    by destruct r as [[[]|]|e|].
Qed.


(** ** Failures inside the body of [try] *)

(** X11: a document that is on disk but cannot be read makes
    [getFileFromSymbolTable] throw; the [catch] of the loop logs the error
    and the loop goes on with the next identifier.  The parser and
    [onFileProcessing] are not called and the Code Graph is left as it
    was. *)
Theorem unreadable_document_is_logged w s d p rest fullBuild :
  d ∉ alreadyVisited s →
  fileURLToPath w d = Some p →
  existsSync w p = true →
  textDocuments w !! d = None →
  ∃ e s',
    forDocumentUris w fullBuild (d :: rest) s = forDocumentUris w fullBuild rest s'
    ∧ trace s' = trace s ++ [EvExistsSync p; EvGetTextDocument d; EvConsoleError d e]
    ∧ codeGraph s' = codeGraph s
    ∧ floating s' = floating s
    ∧ syncing s' = syncing s.
Proof.
  intros Hv Hp Hex Htext.
  eexists _, _. split.
  - apply forDocumentUris_caught. apply wp_eq.
    unfold processDocument. wp_run. rewrite decide_False by done. wp_run.
    rewrite Hp. wp_run. rewrite Hex. simpl negb. wp_run.
    cbn [frontierLoop relatedNodes lookup list_lookup]. wp_run.
    unfold visitDocument. wp_run. rewrite decide_False by done. wp_run.
    unfold getFileFromSymbolTable. wp_run. rewrite Htext. wp_run. reflexivity.
  - unfold caught. cbn [instanceOfError]. st_simpl. by rewrite <- !app_assoc.
Qed.

Lemma unreadable_document_is_logged_witness :
  let w := Faults.unreadable in
  let s := Examples.indexer Examples.emptyGraph None in
  ∃ e s',
    forDocumentUris w false ["ghost.ts"; "b.ts"] s = forDocumentUris w false ["b.ts"] s'
    ∧ trace s' = trace s ++ [EvExistsSync "ghost.ts"; EvGetTextDocument "ghost.ts";
                             EvConsoleError "ghost.ts" e]
    ∧ codeGraph s' = codeGraph s
    ∧ floating s' = floating s
    ∧ syncing s' = syncing s.
Proof.
  intros w s.
  apply (unreadable_document_is_logged w s "ghost.ts" "ghost.ts" ["b.ts"] false).
  - vm_compute. set_solver.
  - reflexivity.
  - reflexivity.
  - vm_compute. reflexivity.
Defined.

(** X12: when the parser throws on a stale document, the [catch] of the loop
    logs the thrown value if it is an instance of [Error] and drops it
    without a trace otherwise; either way the loop goes on with the next
    identifier.  The document stays marked as visited for the rest of the
    pass, but neither the per-pass digest map nor the Code Graph records
    it. *)
Theorem parser_exception_is_logged w s d p text e rest fullBuild :
  d ∉ alreadyVisited s →
  fileURLToPath w d = Some p →
  existsSync w p = true →
  textDocuments w !! d = Some text →
  alreadyIndexed (symbolTable (codeGraph s) !! relative w (workspace s) p)
    (fileHashMap s !! relative w (workspace s) p) (sha256hex w text) = false →
  createNodesFromDocument w d text = ParseThrows e →
  ∃ s',
    forDocumentUris w fullBuild (d :: rest) s = forDocumentUris w fullBuild rest s'
    ∧ trace s' = trace s ++ [EvExistsSync p; EvGetTextDocument d;
                             EvOnFileProcessing (relative w (workspace s) p);
                             EvGetTextDocument d; EvCreateNodesFromDocument d]
                   ++ (if instanceOfError e then [EvConsoleError d e] else [])
    ∧ d ∈ alreadyVisited s'
    ∧ fileHashMap s' = fileHashMap s
    ∧ codeGraph s' = codeGraph s.
Proof.
  intros Hv Hp Hex Htext Hstale Hparse.
  eexists. split.
  - apply forDocumentUris_caught. apply wp_eq.
    unfold processDocument. wp_run. rewrite decide_False by done. wp_run.
    rewrite Hp. wp_run. rewrite Hex. simpl negb. wp_run.
    cbn [frontierLoop relatedNodes lookup list_lookup]. wp_run.
    unfold visitDocument. wp_run. rewrite decide_False by done. wp_run.
    unfold getFileFromSymbolTable. wp_run. rewrite Htext. wp_run.
    rewrite Hp. wp_run. unfold Graph.getFileFromSymbolTable.
    rewrite Hstale. wp_run. rewrite Hparse. wp_run. reflexivity.
  - unfold caught. destruct (instanceOfError e); st_simpl;
      (split; [rewrite <- ?app_assoc; by rewrite ?app_nil_r|]);
      (split; [set_solver|done]).
Qed.

Lemma parser_exception_is_logged_witness :
  let s := Examples.indexer Examples.emptyGraph None in
  (let w := Faults.brokenParser (CollaboratorError "unexpected token") in
   ∃ s',
     forDocumentUris w false ["a.ts"; "b.ts"] s = forDocumentUris w false ["b.ts"] s'
     ∧ trace s' = trace s ++ [EvExistsSync "a.ts"; EvGetTextDocument "a.ts";
                              EvOnFileProcessing "a.ts";
                              EvGetTextDocument "a.ts"; EvCreateNodesFromDocument "a.ts"]
                    ++ [EvConsoleError "a.ts" (CollaboratorError "unexpected token")]
     ∧ "a.ts" ∈ alreadyVisited s'
     ∧ fileHashMap s' = fileHashMap s
     ∧ codeGraph s' = codeGraph s)
  ∧ (let w := Faults.brokenParser (NonError "unexpected token") in
     ∃ s',
       forDocumentUris w false ["a.ts"; "b.ts"] s = forDocumentUris w false ["b.ts"] s'
       ∧ trace s' = trace s ++ [EvExistsSync "a.ts"; EvGetTextDocument "a.ts";
                                EvOnFileProcessing "a.ts";
                                EvGetTextDocument "a.ts"; EvCreateNodesFromDocument "a.ts"]
                      ++ []
       ∧ "a.ts" ∈ alreadyVisited s'
       ∧ fileHashMap s' = fileHashMap s
       ∧ codeGraph s' = codeGraph s).
Proof.
  intros s. split; intros w.
  - apply (parser_exception_is_logged w s "a.ts" "a.ts" "import b"
             (CollaboratorError "unexpected token") ["b.ts"] false).
    + vm_compute. set_solver.
    + reflexivity.
    + vm_compute. reflexivity.
    + vm_compute. reflexivity.
    + vm_compute. reflexivity.
    + reflexivity.
  - apply (parser_exception_is_logged w s "a.ts" "a.ts" "import b"
             (NonError "unexpected token") ["b.ts"] false).
    + vm_compute. set_solver.
    + reflexivity.
    + vm_compute. reflexivity.
    + vm_compute. reflexivity.
    + vm_compute. reflexivity.
    + reflexivity.
Defined.

(** X13: when the file of an identifier is gone from disk and the lookup or
    the deletion in the vector store fails, the [catch] of the loop logs the
    thrown value if it is an instance of [Error] and drops it without a
    trace otherwise; either way the loop goes on with the next identifier,
    the file is not removed from the Code Graph and [onFileRemoved] is not
    called. *)
Theorem removal_store_failure w s d p e rest fullBuild :
  d ∉ alreadyVisited s →
  fileURLToPath w d = Some p →
  existsSync w p = false →
  (findDocumentsByPath w (trace s ++ [EvExistsSync p])
     [relative w (workspace s) p] = inl e
   ∨ ∃ relatedDocs,
       findDocumentsByPath w (trace s ++ [EvExistsSync p])
         [relative w (workspace s) p] = inr relatedDocs
       ∧ relatedDocs ≠ []
       ∧ deleteDocuments w
           (trace s ++ [EvExistsSync p;
                        EvFindDocumentsByPath [relative w (workspace s) p]])
           (doc_id <$> relatedDocs) = Some e) →
  ∃ s' t,
    forDocumentUris w fullBuild (d :: rest) s = forDocumentUris w fullBuild rest s'
    ∧ trace s' = trace s ++ t
                   ++ (if instanceOfError e then [EvConsoleError d e] else [])
    ∧ (EvOnFileRemoved p ∉ t)
    ∧ codeGraph s' = codeGraph s
    ∧ floating s' = floating s.
Proof.
  intros Hv Hp Hex Hfail.
  pose proof (processDocument_gone w fullBuild d p s Hv Hp Hex) as Hgone.
  unfold wp in Hgone.
  destruct (processDocument w fullBuild d s) as [r s1] eqn:Hrun. cbn [fst snd] in Hgone.
  destruct Hgone as [e' Hfind|docs e' Hfind Hne Hdel|docs Hfind Hdel].
  - assert (e' = e) as ->.
    { destruct Hfail as [?|(docs & ? & _)]; congruence. }
    eexists _, [_; _]. split; [by eapply forDocumentUris_caught|].
    unfold caught. split.
    { destruct (instanceOfError e); st_simpl;
        rewrite <- ?app_assoc; by rewrite ?app_nil_r. }
    split.
    { intros Hin. repeat (apply elem_of_cons in Hin as [Hin|Hin]; [done|]).
      by apply elem_of_nil in Hin. }
    by destruct (instanceOfError e).
  - assert (e' = e) as ->.
    { destruct Hfail as [?|(docs' & ? & _ & ?)]; congruence. }
    eexists _, [_; _; _]. split; [by eapply forDocumentUris_caught|].
    unfold caught. split.
    { destruct (instanceOfError e); st_simpl;
        rewrite <- ?app_assoc; by rewrite ?app_nil_r. }
    split.
    { intros Hin. repeat (apply elem_of_cons in Hin as [Hin|Hin]; [done|]).
      by apply elem_of_nil in Hin. }
    by destruct (instanceOfError e).
  - destruct Hfail as [?|(docs' & Hfind' & Hne & Hdel')]; [congruence|].
    assert (docs' = docs) as -> by congruence.
    destruct Hdel as [?|?]; congruence.
Qed.

Lemma removal_store_failure_witness :
  let s := Examples.indexer Examples.emptyGraph None in
  (let w := Faults.brokenStore (CollaboratorError "store offline") in
   ∃ s' t,
     forDocumentUris w false ["gone.ts"; "b.ts"] s = forDocumentUris w false ["b.ts"] s'
     ∧ trace s' = trace s ++ t
                    ++ [EvConsoleError "gone.ts" (CollaboratorError "store offline")]
     ∧ (EvOnFileRemoved "gone.ts" ∉ t)
     ∧ codeGraph s' = codeGraph s
     ∧ floating s' = floating s)
  ∧ (let w := Faults.brokenStore (NonError "store offline") in
     ∃ s' t,
       forDocumentUris w false ["gone.ts"; "b.ts"] s = forDocumentUris w false ["b.ts"] s'
       ∧ trace s' = trace s ++ t ++ []
       ∧ (EvOnFileRemoved "gone.ts" ∉ t)
       ∧ codeGraph s' = codeGraph s
       ∧ floating s' = floating s).
Proof.
  intros s. split; intros w.
  - apply (removal_store_failure w s "gone.ts" "gone.ts"
             (CollaboratorError "store offline") ["b.ts"] false).
    + vm_compute. set_solver.
    + reflexivity.
    + vm_compute. reflexivity.
    + left. reflexivity.
  - apply (removal_store_failure w s "gone.ts" "gone.ts"
             (NonError "store offline") ["b.ts"] false).
    + vm_compute. set_solver.
    + reflexivity.
    + vm_compute. reflexivity.
    + left. reflexivity.
Defined.

(** ** The skeletonizer ends *)

(** X15: for nodes with pairwise distinct ids [skeletonizeCodeNodes] ends,
    whatever the parent links are: the recursion along them goes no deeper
    than there are nodes.  It only reads documents and calls the generator;
    the Indexer is left as it was. *)
Theorem skeletonizeCodeNodes_terminates w nodes s :
  NoDup (node_id <$> nodes) →
  (skeletonizeCodeNodes w nodes s).1 ≠ Diverges
  ∧ quiet w s (skeletonizeCodeNodes w nodes s).2
  ∧ ∃ t, trace (skeletonizeCodeNodes w nodes s).2 = trace s ++ t
         ∧ Forall isSkeletonizerEvent t.
Proof.
  intros Hnd.
  pose proof (skeletonizeCodeNodes_quiet w nodes s) as [Hq Hr].
  pose proof (skeletonizeCodeNodes_events w nodes s) as [_ Hev].
  split; [by apply Hr|]. by split.
Qed.

Lemma skeletonizeCodeNodes_terminates_witness :
  let w := Examples.worldAB [] None in
  let s := Examples.indexer Examples.emptyGraph None in
  let nodes := [Examples.nodeAt "a.ts" "p" None;
                Examples.nodeAt "a.ts" "c" (Some "p");
                Examples.nodeAt "a.ts" "x" (Some "y");
                Examples.nodeAt "a.ts" "y" (Some "x")] in
  (skeletonizeCodeNodes w nodes s).1 ≠ Diverges
  ∧ quiet w s (skeletonizeCodeNodes w nodes s).2
  ∧ ∃ t, trace (skeletonizeCodeNodes w nodes s).2 = trace s ++ t
         ∧ Forall isSkeletonizerEvent t.
Proof.
  intros w s nodes. apply (skeletonizeCodeNodes_terminates w nodes s).
  vm_compute. repeat constructor; set_solver.
Defined.


(** ** Thread management of the composer context *)

Lemma findThread_Some {Message} threadId (ts : list (Composer.Thread Message)) thread :
  Composer.findThread threadId ts = Some thread →
  thread ∈ ts ∧ Composer.thread_id thread = threadId.
Proof.
  unfold Composer.findThread.
  destruct (list_find _ ts) as [[i t]|] eqn:Hfind; [|done].
  intros [= <-]. apply list_find_Some in Hfind as (Hi & Ht & _).
  split; [by eapply list_elem_of_lookup_2|done].
Qed.

Lemma filter_other_id {Message} threadId (ts : list (Composer.Thread Message)) :
  NoDup (Composer.thread_id <$> ts) →
  length ts ≤ S (length (filter (λ t, Composer.thread_id t ≠ threadId) ts)).
Proof.
  induction ts as [|t ts IH]; intros Hnd; [simpl; lia|].
  rewrite fmap_cons in Hnd. apply NoDup_cons in Hnd as [Hnot Hnd].
  rewrite filter_cons. case_decide as Hid.
  - simpl. specialize (IH Hnd). lia.
  - assert (filter (λ t, Composer.thread_id t ≠ threadId) ts = ts) as ->; [|simpl; lia].
    clear IH Hnd.
    induction ts as [|t' ts IH]; [done|].
    rewrite fmap_cons in Hnot. apply not_elem_of_cons in Hnot as [Hne Hnot].
    rewrite filter_cons_True by congruence. f_equal. by apply IH.
Qed.

(** X16: [deleteThread] never removes the last thread.  With at most one
    thread it changes nothing and posts nothing; otherwise, the ids of the
    threads being distinct, at least one thread is left. *)
Theorem deleteThread_leaves_a_thread {Message} threadId (p : Composer.Provider Message) :
  NoDup (Composer.thread_id <$> Composer.threads p) →
  (length (Composer.threads p) ≤ 1 →
   Composer.act (Composer.DeleteThread threadId) p = p)
  ∧ (Composer.threads p ≠ [] →
     Composer.threads (Composer.act (Composer.DeleteThread threadId) p) ≠ []).
Proof.
  intros Hnd. cbn [Composer.act]. unfold Composer.deleteThread.
  destruct (decide (length (Composer.threads p) ≤ 1)) as [Hle|Hgt]; [done|].
  split; [lia|]. intros _.
  pose proof (filter_other_id threadId (Composer.threads p) Hnd) as Hlen.
  destruct (filter _ (Composer.threads p)) as [|t ts] eqn:Hf; [simpl in Hlen; lia|].
  by case_decide.
Qed.

Lemma deleteThread_leaves_a_thread_witness :
  let t1 := Composer.mkThread (Message:=string) "t1" "first" 1 1 ["hello"] in
  let t2 := Composer.mkThread "t2" "second" 2 2 [] in
  let p := Composer.mkProvider ["hello"] [t1; t2] (Some t1) [] in
  (length (Composer.threads p) ≤ 1 →
   Composer.act (Composer.DeleteThread "t1") p = p)
  ∧ (Composer.threads p ≠ [] →
     Composer.threads (Composer.act (Composer.DeleteThread "t1") p) ≠ []).
Proof.
  intros t1 t2 p. apply (deleteThread_leaves_a_thread "t1" p).
  vm_compute. repeat constructor; set_solver.
Defined.

Lemma findThread_elem {Message} threadId (ts : list (Composer.Thread Message)) :
  threadId ∈ Composer.thread_id <$> ts → is_Some (Composer.findThread threadId ts).
Proof.
  intros (t & Hid & Hin)%list_elem_of_fmap. unfold Composer.findThread.
  destruct (list_find (λ t, Composer.thread_id t = threadId) ts) as [[i t']|] eqn:Hf;
    [by eexists|].
  apply list_find_None in Hf. rewrite Forall_forall in Hf. by destruct (Hf t Hin).
Qed.

Lemma filter_same_id {Message} (ts : list (Composer.Thread Message)) a :
  NoDup (Composer.thread_id <$> ts) → a ∈ ts →
  filter (λ t, Composer.thread_id t = Composer.thread_id a) ts = [a].
Proof.
  induction ts as [|t ts IH]; intros Hnd Hin; [by apply elem_of_nil in Hin|].
  rewrite fmap_cons in Hnd. apply NoDup_cons in Hnd as [Hnot Hnd].
  assert (∀ ts' : list (Composer.Thread Message),
            Composer.thread_id a ∉ Composer.thread_id <$> ts' →
            filter (λ t, Composer.thread_id t = Composer.thread_id a) ts' = []) as Hnone.
  { intros ts' Hn. induction ts' as [|t' ts' IH']; [done|].
    rewrite fmap_cons in Hn. apply not_elem_of_cons in Hn as [Hne Hn].
    rewrite filter_cons_False by congruence. by apply IH'. }
  apply elem_of_cons in Hin as [->|Hin].
  - rewrite filter_cons_True by done. by rewrite Hnone.
  - rewrite filter_cons_False; [by apply IH|].
    intros Heq. apply Hnot. rewrite Heq. apply list_elem_of_fmap. by exists a.
Qed.

Lemma renamed_id {Message} now threadId newTitle (t : Composer.Thread Message) :
  Composer.thread_id (Composer.renamed now threadId newTitle t) = Composer.thread_id t.
Proof. unfold Composer.renamed. by case_decide. Qed.

Lemma renamed_messages {Message} now threadId newTitle (t : Composer.Thread Message) :
  Composer.messages (Composer.renamed now threadId newTitle t) = Composer.messages t.
Proof. unfold Composer.renamed. by case_decide. Qed.

(** X17: the thread operations keep the thread state consistent: if the ids
    of the threads are distinct, the active thread is one of the threads and
    the messages shown are its messages, the same holds after
    [createThread], [switchThread], [deleteThread], [renameThread] and the
    arrival of thread data. *)
Theorem thread_actions_consistent {Message} (a : Composer.ThreadAction Message)
    (p : Composer.Provider Message) :
  Composer.consistent p →
  Composer.admissible a p →
  Composer.consistent (Composer.act a p).
Proof.
  intros [Hnd Hact] Hadm.
  destruct a as [now uuid newTitle|threadId|threadId|now threadId newTitle
                 |newThreads activeThreadId]; cbn [Composer.act].
  - unfold Composer.createThread. split; cbn.
    + rewrite fmap_app. apply NoDup_app. split; [done|].
      split; [|apply NoDup_singleton].
      intros x Hx ->%list_elem_of_singleton. by apply Hadm.
    + intros a' [= <-]. split; [|done]. apply elem_of_app. right. by left.
  - unfold Composer.switchThread.
    destruct (Composer.findThread threadId (Composer.threads p)) as [thread|] eqn:Hf;
      [|done].
    apply findThread_Some in Hf as [Hin _]. split; [done|]. cbn.
    by intros a' [= <-].
  - unfold Composer.deleteThread.
    destruct (decide (length (Composer.threads p) ≤ 1)) as [Hle|Hgt]; [done|].
    pose proof (filter_other_id threadId (Composer.threads p) Hnd) as Hlen.
    assert (NoDup (Composer.thread_id <$>
                     filter (λ t, Composer.thread_id t ≠ threadId) (Composer.threads p)))
      as Hnd'.
    { eapply sublist_NoDup; [exact Hnd|]. apply fmap_sublist, sublist_filter. }

    destruct (filter _ (Composer.threads p)) as [|t ts] eqn:Hfilter;
      [simpl in Hlen; lia|].
    case_decide as Hid.
    + split; [done|]. cbn. intros a' [= <-]. split; [by left|done].
    + split; [done|]. cbn. intros a' Ha'. destruct (Hact a' Ha') as [Hin Hmsg].
      split; [|done]. rewrite <- Hfilter. apply list_elem_of_filter.
      split; [|done]. intros Heq. apply Hid. by rewrite Ha', <- Heq.
  - unfold Composer.renameThread. split; cbn.
    + rewrite <- list_fmap_compose.
      erewrite list_fmap_ext; [exact Hnd|]. intros i t _. cbn. apply renamed_id.
    + case_decide as Hid.
      * destruct (Composer.activeThread p) as [a0|] eqn:Ha0; [|done].
        injection Hid as Hid. destruct (Hact a0 eq_refl) as [Hin Hmsg].
        rewrite <- Hid, (filter_same_id _ a0) by done. cbn.
        intros a' [= <-]. split.
        -- apply list_elem_of_fmap. by exists a0.
        -- by rewrite renamed_messages.
      * intros a' Ha'. destruct (Hact a' Ha') as [Hin Hmsg]. split; [|done].
        apply list_elem_of_fmap. exists a'. split; [|done].
        unfold Composer.renamed. rewrite decide_False; [done|].
        intros Heq. apply Hid. by rewrite Ha', <- Heq.
  - destruct Hadm as (Hnd' & Hne & Hid). unfold Composer.threadData.
    destruct (truthy activeThreadId) eqn:Htruthy; cbn [andb].
    + rewrite bool_decide_eq_true_2
        by (destruct newThreads; [done|simpl; lia]).
      destruct (findThread_elem _ _ (Hid eq_refl)) as [thread Hf]. rewrite Hf.
      apply findThread_Some in Hf as [Hin _]. split; [done|]. cbn.
      by intros a' [= <-].
    + destruct newThreads as [|first rest]; [done|]. split; [done|]. cbn.
      intros a' [= <-]. split; [by left|done].
Qed.

Lemma thread_actions_consistent_witness :
  let t1 := Composer.mkThread (Message:=string) "t1" "first" 1 1 ["hello"] in
  let t2 := Composer.mkThread "t2" "second" 2 2 [] in
  let p := Composer.mkProvider ["hello"] [t1; t2] (Some t1) [] in
  Composer.consistent p
  ∧ Composer.consistent (Composer.act (Composer.DeleteThread "t1") p)
  ∧ Composer.activeThread (Composer.act (Composer.DeleteThread "t1") p) = Some t2.
Proof.
  intros t1 t2 p.
  assert (Composer.consistent p) as Hp.
  { split.
    - vm_compute. repeat constructor; set_solver.
    - intros a [= <-]. split; [by left|done]. }
  split; [done|]. split; [|reflexivity].
  by apply (thread_actions_consistent (Composer.DeleteThread "t1") p).
Defined.

(** ** The callbacks of a pass *)












(** ** What the generator is given *)

Lemma generatorCalls_refl w s : generatorCalls w s s.
Proof. split; [done|]. exists []. by rewrite app_nil_r. Qed.

Lemma generatorCalls_trans w s1 s2 s3 :
  generatorCalls w s1 s2 → generatorCalls w s2 s3 → generatorCalls w s1 s3.
Proof.
  intros [Hg1 (t1 & Ht1 & H1)] [Hg2 (t2 & Ht2 & H2)].
  split; [congruence|]. exists (t1 ++ t2).
  split; [by rewrite Ht2, Ht1, app_assoc|].
  apply Forall_app. split; [done|]. by rewrite <- Hg1.
Qed.

Lemma skeletonizeNode_call w P cs l s :
  wp (skeletonizeNode w P cs l) (λ _ s', generatorCalls w s s') s.
Proof.
  unfold skeletonizeNode. wp_run.
  assert (∀ t, Forall (generatorCall w (codeGraph s)) t →
               generatorCalls w s (set_trace (trace s ++ t) s)) as Hcalls.
  { intros t Ht. split; [done|]. by exists t. }
  assert (generatorCalls w s
            (set_trace (trace s ++ [EvGetTextDocument (uri (node_location P))]) s))
    as Hread by (apply Hcalls; by apply Forall_singleton).
  destruct (textDocumentCache l !! uri (node_location P)) as [text|] eqn:Hcache; wp_run.
  - destruct (fileURLToPath w (uri (node_location P))) as [filePath|] eqn:Hp; wp_run.
    2:{ intros e. apply generatorCalls_refl. }
    assert (generatorCalls w s
              (set_trace (trace s ++ [EvSkeletonizeCodeGraphNode filePath P
                 match cs with
                 | [] => getTextRange w text (range (node_location P))
                 | _ :: _ =>
                     mergeCodeNodeSummariesIntoParent w (node_location P)
                       (getTextRange w text (range (node_location P)))
                       (node_id <$> cs) (skeletonNodes l)
                 end (textDocumentCache l)
                 (omap (Graph.getNode (codeGraph s))
                    (default [] (Graph.getImportEdge (codeGraph s) (node_id P))))]) s))
      as Hgen.
    { apply Hcalls, Forall_singleton. cbn. by rewrite Hcache. }
    destruct (skeletonizeCodeGraphNode w _ _ _ _ _); by wp_run.
  - destruct (textDocuments w !! uri (node_location P)) as [text|] eqn:Htext; wp_run;
      [|done].
    destruct (fileURLToPath w (uri (node_location P))) as [filePath|] eqn:Hp; wp_run.
    2:{ by intros e. }
    assert (generatorCalls w s
              (set_trace ((trace s ++ [EvGetTextDocument (uri (node_location P))])
                 ++ [EvSkeletonizeCodeGraphNode filePath P
                 match cs with
                 | [] => getTextRange w text (range (node_location P))
                 | _ :: _ =>
                     mergeCodeNodeSummariesIntoParent w (node_location P)
                       (getTextRange w text (range (node_location P)))
                       (node_id <$> cs) (skeletonNodes l)
                 end (<[uri (node_location P):=text]> (textDocumentCache l))
                 (omap (Graph.getNode (codeGraph s))
                    (default [] (Graph.getImportEdge (codeGraph s) (node_id P))))])
                 (set_trace (trace s ++ [EvGetTextDocument (uri (node_location P))]) s)))
      as Hgen.
    { split; [done|]. eexists [_; _]. split; [st_simpl; by rewrite <- app_assoc|].
      apply Forall_cons_2; [done|]. apply Forall_singleton. cbn.
      rewrite lookup_insert_eq. by repeat split. }
    destruct (skeletonizeCodeGraphNode w _ _ _ _ _); by wp_run.
Qed.

Lemma processNode_calls w parentNodeMap fuel :
  ∀ P l s, wp (processNode w parentNodeMap fuel P l) (λ _ s', generatorCalls w s s') s.
Proof.
  induction fuel as [|fuel IH]; intros P l s; cbn [processNode].
  - apply wp_diverge. apply generatorCalls_refl.
  - apply wp_bind.
    apply (wp_foldM _ (λ _ s0, generatorCalls w s s0)).
    + apply generatorCalls_refl.
    + intros b c s0 _ Hb. eapply wp_mono; [apply IH|].
      intros [b'|e|] s1 H1; simpl; by eapply generatorCalls_trans.
    + intros l1 s1 H1. apply wp_bind. eapply wp_mono; [apply skeletonizeNode_call|].
      intros [[o l2]|e|] s2 H2; simpl.
      * destruct o; apply wp_ret; by eapply generatorCalls_trans.
      * by eapply generatorCalls_trans.
      * by eapply generatorCalls_trans.
Qed.

(** X20: every call of the generator made by [skeletonizeCodeNodes] is given
    the path of the node's document, the nodes of the Code Graph behind the
    node's import edges (edges to nodes the graph does not hold are left
    out), and a document cache that already holds the node's document. *)
Theorem skeletonizeCodeNodes_generator_calls w nodes s :
  ∃ t, trace (skeletonizeCodeNodes w nodes s).2 = trace s ++ t
       ∧ Forall (generatorCall w (codeGraph s)) t.
Proof.
  change (wp (skeletonizeCodeNodes w nodes)
            (λ _ s', ∃ t, trace s' = trace s ++ t
                          ∧ Forall (generatorCall w (codeGraph s)) t) s).
  unfold skeletonizeCodeNodes. destruct (partitionNodes nodes) as [pm roots].
  cbv beta iota. apply wp_bind.
  apply (wp_foldM _ (λ _ s0, generatorCalls w s s0)).
  - apply generatorCalls_refl.
  - intros b c s0 _ Hb. eapply wp_mono; [apply processNode_calls|].
    intros [b'|e|] s1 H1; simpl.
    + by eapply generatorCalls_trans.
    + by destruct (generatorCalls_trans _ _ _ _ Hb H1).
    + by destruct (generatorCalls_trans _ _ _ _ Hb H1).
  - intros l1 s1 [_ H1]. by apply wp_ret.
Qed.
